(** * IIOMain: discovery and reconciliation of IIO sensors

    A shallow embedding of [src/IIOMain.cpp]: the callback that
    [createSensors] hands to the configuration getter (identity resolution,
    matching against the configuration records, reconciliation with the
    sensor table) and the debouncing event handler of [main]. *)

From Stdlib Require Import ZArith QArith Ascii String.
From Stdlib Require Import DecimalString HexadecimalString SpecFloat.
From stdpp Require Import gmap strings list fin_maps.

Local Open Scope string_scope.
Local Open Scope Z_scope.

(** ** Strings, as [std::string] is used by the program *)

Module Str.

(** [s.find(c)]: position of the first occurrence, [None] for [npos]. *)
Fixpoint find_char (c : ascii) (s : string) : option nat :=
  match s with
  | EmptyString => None
  | String d s' =>
      if Ascii.eqb c d then Some 0%nat else S <$> find_char c s'
  end.

(** [s.substr(pos)], for [pos <= s.size()]. *)
Fixpoint substr_from (pos : nat) (s : string) : string :=
  match pos, s with
  | O, _ => s
  | S p, String _ s' => substr_from p s'
  | S _, EmptyString => EmptyString
  end.

(** [s.substr(0, n)]. *)
Fixpoint substr_to (n : nat) (s : string) : string :=
  match n, s with
  | S p, String c s' => String c (substr_to p s')
  | _, _ => EmptyString
  end.

(** [s.find(needle) != npos]. *)
Fixpoint contains (needle s : string) : bool :=
  String.prefix needle s ||
  match s with
  | EmptyString => false
  | String _ s' => contains needle s'
  end.

(** [boost::ends_with(s, suffix)]. *)
Definition ends_with (s suffix : string) : bool :=
  (String.length suffix <=? String.length s)%nat &&
  String.eqb
    (substr_from (String.length s - String.length suffix) s) suffix.

(** Number of occurrences of [c] in [s]. *)
Fixpoint count_char (c : ascii) (s : string) : nat :=
  match s with
  | EmptyString => 0
  | String d s' => (if Ascii.eqb c d then 1 else 0) + count_char c s'
  end.

(** [a < b] on [std::string]: lexicographic on the bytes. *)
Definition lt (a b : string) : bool := String.ltb a b.

End Str.

(** ** [std::stoi] *)

Inductive exception :=
| invalid_argument
| out_of_range
| bad_variant_access
| logic_error
(** not a C++ exception: a null pointer is dereferenced, the behaviour is
    undefined and the pass does not go on *)
| null_dereference.

Module Stoi.

Definition isspace (c : ascii) : bool :=
  let n := nat_of_ascii c in
  (n =? 32)%nat || ((9 <=? n)%nat && (n <=? 13)%nat).

Fixpoint skip_spaces (s : string) : string :=
  match s with
  | String c s' => if isspace c then skip_spaces s' else s
  | EmptyString => s
  end.

(** Value of a character as a digit in some base up to 36. *)
Definition digit_value (c : ascii) : option Z :=
  let n := Z.of_nat (nat_of_ascii c) in
  if (48 <=? n) && (n <=? 57) then Some (n - 48)
  else if (97 <=? n) && (n <=? 122) then Some (n - 97 + 10)
  else if (65 <=? n) && (n <=? 90) then Some (n - 65 + 10)
  else None.

Definition digit_in (base : Z) (c : ascii) : option Z :=
  match digit_value c with
  | Some d => if d <? base then Some d else None
  | None => None
  end.

(** The longest run of digits at the head of [s]: its value on top of
    [acc] and the number of digits consumed. *)
Fixpoint digits (base : Z) (s : string) (acc : Z) (n : nat) : Z * nat :=
  match s with
  | String c s' =>
      match digit_in base c with
      | Some d => digits base s' (acc * base + d) (S n)
      | None => (acc, n)
      end
  | EmptyString => (acc, n)
  end.

(** The [0x]/[0X] prefix that [strtol] accepts in base 16; it is part of
    the number only when a hexadecimal digit follows. *)
Definition skip_hex_prefix (base : Z) (s : string) : string :=
  match s with
  | String "0" (String x (String h s')) =>
      if (base =? 16) && (Ascii.eqb x "x" || Ascii.eqb x "X")
         && bool_decide (is_Some (digit_in 16 h))
      then String h s' else s
  | _ => s
  end.

Definition INT_MAX : Z := 2147483647.
Definition INT_MIN : Z := -2147483648.

(** [std::stoi(s, nullptr, base)]: leading white space is skipped, a
    sign is optional, the conversion stops at the first character that is
    no digit.  No digit at all raises [std::invalid_argument]; a value
    outside [int] raises [std::out_of_range]. *)
Definition stoi (s : string) (base : Z) : exception + Z :=
  let s1 := skip_spaces s in
  let '(neg, s2) :=
    match s1 with
    | String "-" r => (true, r)
    | String "+" r => (false, r)
    | _ => (false, s1)
    end in
  let '(v, n) := digits base (skip_hex_prefix base s2) 0 0 in
  match n with
  | O => inl invalid_argument
  | S _ =>
      let v := if neg then - v else v in
      if (INT_MIN <=? v) && (v <=? INT_MAX) then inr v
      else inl out_of_range
  end.

(** Conversion of the [int] that [std::stoi] returns to [size_t], taken to
    be 64 bits wide: a negative value wraps around. *)
Definition to_size_t (v : Z) : Z := v mod 2 ^ 64.

End Stoi.

(** ** What the program takes from the rest of the repository

    [Utils.hpp], [VariantVisitors.hpp], [Thresholds.hpp] and
    [IIOSensor.hpp] are used by [IIOMain.cpp]; what it uses of them is
    gathered here, and every definition and theorem below holds for any
    implementation of it. *)

Class Collaborators := {
  (** [BasicVariantType]: the value of a configuration attribute, a
      [std::variant].  [std::get<uint64_t>] and [std::get<std::string>]
      return the alternative when it is the one held ([None]: they raise
      [std::bad_variant_access]). *)
  BasicVariantType : Type;
  get_uint64 : BasicVariantType -> option Z;
  get_string : BasicVariantType -> option string;
  (** [float], with the literals of the source and [operator<=]. *)
  Float : Type;
  float_lit : Q -> Float;
  float_le : Float -> Float -> bool;
  (** [std::visit(VariantToFloatVisitor(), v)] and
      [std::visit(VariantToStringVisitor(), v)]; they may raise. *)
  VariantToFloatVisitor : BasicVariantType -> exception + Float;
  VariantToStringVisitor : BasicVariantType -> exception + string;
  (** [parseThresholdsFromConfig(sensorData, thresholds)]: the returned
      flag and the vector it has filled. *)
  Threshold : Type;
  parseThresholdsFromConfig :
    gmap string (gmap string BasicVariantType) -> bool * list Threshold;
  (** [enum class PowerState], its value [always], and
      [setReadState(str, val)] which assigns [val]. *)
  PowerState : Type;
  PowerState_always : PowerState;
  setReadState : string -> PowerState -> PowerState;
  (** The [name] member that the [IIOSensor] constructor stores, as a
      function of the [sensorName] it is given. *)
  IIOSensor_name : string -> string;
}.

(** ** Control flow of a loop body *)

(** How a piece of a loop body ends: normally with a value, by [continue],
    by [break], or by an exception that nothing in the body catches. *)
Inductive completion (A : Type) :=
| Normal (a : A)
| Continue
| Break
| Throw (e : exception).
Arguments Normal {A} a.
Arguments Continue {A}.
Arguments Break {A}.
Arguments Throw {A} e.

Definition body (S A : Type) : Type := S -> completion A * S.

Definition ret {S A} (a : A) : body S A := fun s => (Normal a, s).

Definition bind {S A B} (m : body S A) (k : A -> body S B) : body S B :=
  fun s =>
    match m s with
    | (Normal a, s') => k a s'
    | (Continue, s') => (Continue, s')
    | (Break, s') => (Break, s')
    | (Throw e, s') => (Throw e, s')
    end.

Definition continue {S A} : body S A := fun s => (Continue, s).
Definition throw {S A} (e : exception) : body S A := fun s => (Throw e, s).

(** [*p] and [p->]. *)
Definition deref {S A} (p : option A) : body S A :=
  match p with
  | Some a => ret a
  | None => throw null_dereference
  end.

(** A call that may raise. *)
Definition call {S A} (r : exception + A) : body S A :=
  match r with
  | inl e => throw e
  | inr a => ret a
  end.

Declare Scope body_scope.
Delimit Scope body_scope with body.
Notation "x <- m ;; k" := (bind m (fun x => k))
  (at level 100, m at next level, k at level 200, right associativity)
  : body_scope.
Notation "m ;; k" := (bind m (fun _ => k))
  (at level 100, k at level 200, right associativity) : body_scope.

(** [for (x : l) f(x)]: [continue] goes on with the next element, [break]
    leaves the loop, an exception leaves it and propagates. *)
Fixpoint for_each {S A} (l : list A) (f : A -> body S unit) : body S unit :=
  fun s =>
    match l with
    | [] => (Normal tt, s)
    | x :: l' =>
        match f x s with
        | (Normal _, s') | (Continue, s') => for_each l' f s'
        | (Break, s') => (Normal tt, s')
        | (Throw e, s') => (Throw e, s')
        end
    end.

(** ** [boost::container::flat_set<std::string>] *)

Module FlatSet.

(** The elements in iteration order: increasing, without repetition. *)
Definition t := list string.

Fixpoint insert (x : string) (l : t) : t :=
  match l with
  | [] => [x]
  | y :: l' =>
      if String.eqb x y then l
      else if Str.lt x y then x :: l
      else y :: insert x l'
  end.

(** The loop of lines 178-188: walk the set in order and erase the first
    element that ends with [name]; [None] when no element does. *)
Fixpoint erase_first_ending (name : string) (l : t) : option t :=
  match l with
  | [] => None
  | x :: l' =>
      if Str.ends_with x name then Some l'
      else (x ::.) <$> erase_first_ending name l'
  end.

End FlatSet.

(** Line break written to [std::cerr]. *)
Definition nl : string := String (ascii_of_nat 10) EmptyString.

(** [std::cerr << ...;]: one more entry at the end of the output. *)
Definition emit (out : list string) (msg : string) : list string :=
  app out [msg].

(** ** The configuration and the sensor table *)

(** [SensorBaseConfigMap], [SensorData] and [ManagedObjectType] of
    [Utils.hpp].  The first two are only searched by key; the last is
    walked from [begin()] to [end()] and is given in that order. *)
Abbreviation SensorBaseConfigMap := (gmap string BasicVariantType).
Abbreviation SensorData := (gmap string (gmap string BasicVariantType)).
Abbreviation ManagedObjectType :=
  (list (string * gmap string (gmap string BasicVariantType))).

(** One file found by [findFiles], with what the file system answers for
    it: [deviceName] is
    [fs::canonical(path.parent_path()).parent_path().stem()]. *)
Record DiscoveredPath := {
  pathStr : string;
  deviceName : string;
}.

Section Engine.
Context `{Collaborators}.

Definition pollRateDefault : Float := float_lit (1 # 2)%Q.

(** [std::array<const char*, 13> sensorTypes]: two initialisers, the
    other eleven elements are null pointers. *)
Definition sensorTypes : list (option string) :=
  [Some "xyz.openbmc_project.Configuration.DPS310";
   Some "xyz.openbmc_project.Configuration.SI7020"] ++ replicate 11 None.

(** An [IIOSensor] as line 224 makes it: the arguments of the
    constructor, the [name] it stores, and whether [setupRead] has been
    called on it. *)
Record IIOSensor := {
  name : string;
  ctor_path : string;
  ctor_objectType : string;
  ctor_sensorName : string;
  ctor_thresholds : list Threshold;
  ctor_pollRate : Float;
  ctor_configurationPath : string;
  ctor_readState : PowerState;
  ctor_sensorTypeName : string;
  readStarted : bool;
}.

(** [std::shared_ptr<IIOSensor>]: null, or the address of an object
    together with the object.  Addresses are handed out in order, so two
    pointers are the same object exactly when the addresses agree. *)
Inductive shared_ptr :=
| nullptr
| ptr (addr : nat) (obj : IIOSensor).

Record State := {
  (** [sensors]: the sensor table *)
  sensors : gmap string shared_ptr;
  (** number of [IIOSensor] objects made so far *)
  allocated : nat;
  (** [sensorsChanged]: [None] is the null pointer of the first scan *)
  sensorsChanged : option FlatSet.t;
  (** everything written to [std::cerr], one entry per statement *)
  cerr : list string;
}.

(** The state after [std::cerr << msg;]. *)
Definition logged (st : State) (msg : string) : State :=
  {| sensors := sensors st; allocated := allocated st;
     sensorsChanged := sensorsChanged st; cerr := emit (cerr st) msg |}.

Definition log (msg : string) : body State unit :=
  fun st => (Normal tt, logged st msg).

(** *** Lines 68-89: the identity of the device *)

(** The [try] block: [std::invalid_argument] is caught and skips the
    device, any other exception of [std::stoi] is not caught. *)
Definition parseBusAddr (busStr addrStr : string) : body State (Z * Z) :=
  match Stoi.stoi busStr 10 with
  | inl invalid_argument => continue
  | inl e => throw e
  | inr bus =>
      match Stoi.stoi addrStr 16 with
      | inl invalid_argument => continue
      | inl e => throw e
      | inr addr => ret (Stoi.to_size_t bus, Stoi.to_size_t addr)
      end
  end.

Definition resolveIdentity (deviceName : string) : body State (Z * Z) :=
  match Str.find_char "-" deviceName with
  | None => (log ("found bad device " +:+ deviceName +:+ nl) ;; continue)%body
  | Some findHyphen =>
      let busStr := Str.substr_to findHyphen deviceName in
      let addrStr := Str.substr_from (S findHyphen) deviceName in
      parseBusAddr busStr addrStr
  end.

(** Lines 95-100. *)
Definition inferSensorTypeName (pathStr : string) : string :=
  if Str.contains "pressure" pathStr then "pressure"
  else if Str.contains "humidity" pathStr then "humidity"
  else "temperature".

(** *** Lines 90-143: the search through the configuration records *)

(** The variables declared before the loop over the records; they keep
    their values from one record to the next. *)
Record Locals := {
  sensorData : option SensorData;
  interfacePath : option string;
  sensorType : option string;
  baseConfiguration : option (string * SensorBaseConfigMap);
  baseConfigMap : option SensorBaseConfigMap;
}.

Definition initLocals : Locals :=
  {| sensorData := None; interfacePath := None; sensorType := None;
     baseConfiguration := None; baseConfigMap := None |}.

(** Lines 106-115: the loop over [sensorTypes].  [sensorData->find(type)]
    builds a [std::string] from [type]; from a null pointer that raises
    [std::logic_error] (libstdc++; the standard leaves it undefined). *)
Fixpoint findBase (types : list (option string)) (data : SensorData)
    (v : Locals) : exception + Locals :=
  match types with
  | [] => inr v
  | None :: _ => inl logic_error
  | Some type :: rest =>
      match data !! type with
      | Some m =>
          inr {| sensorData := sensorData v;
                 interfacePath := interfacePath v;
                 sensorType := Some type;
                 baseConfiguration := Some (type, m);
                 baseConfigMap := baseConfigMap v |}
      | None => findBase rest data v
      end
  end.

(** Lines 134-139; [||] does not evaluate its right side when the left
    side holds. *)
Definition identityDiffers (configurationBus configurationAddress :
    BasicVariantType) (bus addr : Z) : exception + bool :=
  match get_uint64 configurationBus with
  | None => inl bad_variant_access
  | Some b =>
      if negb (b =? bus) then inr true
      else match get_uint64 configurationAddress with
           | None => inl bad_variant_access
           | Some a => inr (negb (a =? addr))
           end
  end.

(** The body of the loop over the records, on the locals and
    [std::cerr]. *)
Definition matchRecord (types : list (option string)) (deviceName : string)
    (bus addr : Z) (sensor : string * SensorData)
  : body (Locals * list string) unit :=
  fun '(v, out) =>
    let v := {| sensorData := Some sensor.2;
                interfacePath := interfacePath v;
                sensorType := sensorType v;
                baseConfiguration := baseConfiguration v;
                baseConfigMap := baseConfigMap v |} in
    match findBase types sensor.2 v with
    | inl e => (Throw e, (v, out))
    | inr v =>
        match baseConfiguration v with
        | None =>
            (Continue,
             (v, emit out ("error finding base configuration for "
                             +:+ deviceName +:+ nl)))
        | Some bc =>
            let v := {| sensorData := sensorData v;
                        interfacePath := interfacePath v;
                        sensorType := sensorType v;
                        baseConfiguration := baseConfiguration v;
                        baseConfigMap := Some bc.2 |} in
            match bc.2 !! "Bus", bc.2 !! "Address" with
            | Some configurationBus, Some configurationAddress =>
                match identityDiffers configurationBus
                        configurationAddress bus addr with
                | inl e => (Throw e, (v, out))
                | inr true => (Continue, (v, out))
                | inr false =>
                    (Break,
                     ({| sensorData := sensorData v;
                         interfacePath := Some sensor.1;
                         sensorType := sensorType v;
                         baseConfiguration := baseConfiguration v;
                         baseConfigMap := baseConfigMap v |}, out))
                end
            | _, _ =>
                (Continue,
                 (v, emit out ("error finding bus or address in "
                                 +:+ "configuration" +:+ nl)))
            end
        end
    end.

Definition matchLoop (types : list (option string))
    (sensorConfigurations : ManagedObjectType) (deviceName : string)
    (bus addr : Z) : body (Locals * list string) unit :=
  for_each sensorConfigurations (matchRecord types deviceName bus addr).

(** The loop run from the state of the engine. *)
Definition findConfiguration (sensorConfigurations : ManagedObjectType)
    (deviceName : string) (bus addr : Z) : body State Locals :=
  fun st =>
    match matchLoop sensorTypes sensorConfigurations deviceName bus addr
            (initLocals, cerr st) with
    | (c, (v, out)) =>
        let st' := {| sensors := sensors st; allocated := allocated st;
                      sensorsChanged := sensorsChanged st; cerr := out |} in
        match c with
        | Throw e => (Throw e, st')
        | _ => (Normal v, st')
        end
    end.

(** *** Lines 151-172: the declared type and the name *)

Definition checkSensorType (configMap : SensorBaseConfigMap)
    (deviceName sensorTypeName : string) : body State unit :=
  match configMap !! "SensorType" with
  | None =>
      (log ("failed to find the sensor type for " +:+ deviceName +:+ nl) ;;
       continue)%body
  | Some findType =>
      (configSensorTypeName <- call (VariantToStringVisitor findType) ;;
       if negb (String.eqb sensorTypeName configSensorTypeName)
       then log ("config sensor type " +:+ configSensorTypeName
                 +:+ " doesn't match sensor type " +:+ sensorTypeName
                 +:+ nl)
       else ret tt)%body
  end.

Definition resolveName (configMap : SensorBaseConfigMap)
    (deviceName : string) : body State string :=
  match configMap !! "Name" with
  | None =>
      (log ("could not determine configuration name for "
            +:+ deviceName +:+ nl) ;;
       continue)%body
  | Some findSensorName =>
      match get_string findSensorName with
      | Some sensorName => ret sensorName
      | None => throw bad_variant_access
      end
  end.

(** *** Lines 173-193: on rescans, only update sensors we were signaled by *)

Definition reconcile (sensorName : string) : body State unit :=
  fun st =>
    match sensorsChanged st, sensors st !! sensorName with
    | Some changed, Some findSensor =>
        match findSensor, changed with
        | nullptr, [] => (Continue, st)
        | nullptr, _ :: _ => (Throw null_dereference, st)
        | ptr _ obj, _ =>
            match FlatSet.erase_first_ending (name obj) changed with
            | Some changed' =>
                (Normal tt,
                 {| sensors := <[sensorName := nullptr]> (sensors st);
                    allocated := allocated st;
                    sensorsChanged := Some changed';
                    cerr := cerr st |})
            | None => (Continue, st)
            end
        end
    | _, _ => (Normal tt, st)
    end.

(** *** Lines 194-228: the construction *)

Definition effectivePollRate (baseConfig : SensorBaseConfigMap)
  : exception + Float :=
  match baseConfig !! "PollRate" with
  | None => inr pollRateDefault
  | Some findPollRate =>
      match VariantToFloatVisitor findPollRate with
      | inl e => inl e
      | inr pollRate =>
          inr (if float_le pollRate (float_lit 0)
               then pollRateDefault (* polling time too short *)
               else pollRate)
      end
  end.

Definition configuredReadState (baseConfig : SensorBaseConfigMap)
  : exception + PowerState :=
  match baseConfig !! "PowerState" with
  | None => inr PowerState_always
  | Some findPowerOn =>
      match VariantToStringVisitor findPowerOn with
      | inl e => inl e
      | inr powerState => inr (setReadState powerState PowerState_always)
      end
  end.

Definition setupRead (o : IIOSensor) : IIOSensor :=
  {| name := name o; ctor_path := ctor_path o;
     ctor_objectType := ctor_objectType o;
     ctor_sensorName := ctor_sensorName o;
     ctor_thresholds := ctor_thresholds o;
     ctor_pollRate := ctor_pollRate o;
     ctor_configurationPath := ctor_configurationPath o;
     ctor_readState := ctor_readState o;
     ctor_sensorTypeName := ctor_sensorTypeName o;
     readStarted := true |}.

(** Lines 222-228: [sensors[sensorName]] is given a new object, whose
    [setupRead] is then called.  The value of [getPermitSet] at line 222
    is not used. *)
Definition install (sensorName : string) (o : IIOSensor) : body State unit :=
  fun st =>
    (Normal tt,
     {| sensors :=
          <[sensorName := ptr (allocated st) (setupRead o)]> (sensors st);
        allocated := S (allocated st);
        sensorsChanged := sensorsChanged st;
        cerr := cerr st |}).

Definition construct (pathStr sensorName sensorTypeName : string)
    (data : SensorData) (objectType : string)
    (baseConfig : SensorBaseConfigMap) (configurationPath : string)
  : body State unit :=
  let '(ok, sensorThresholds) := parseThresholdsFromConfig data in
  ((if ok then ret tt
    else log ("error populating thresholds for " +:+ sensorName +:+ nl)) ;;
   pollRate <- call (effectivePollRate baseConfig) ;;
   readState <- call (configuredReadState baseConfig) ;;
   install sensorName
     {| name := IIOSensor_name sensorName;
        ctor_path := pathStr;
        ctor_objectType := objectType;
        ctor_sensorName := sensorName;
        ctor_thresholds := sensorThresholds;
        ctor_pollRate := pollRate;
        ctor_configurationPath := configurationPath;
        ctor_readState := readState;
        ctor_sensorTypeName := sensorTypeName;
        readStarted := false |})%body.

(** *** Lines 59-229: the body of the loop over the discovered paths *)

(** What follows the search once a record has been taken
    ([interfacePath] is not null), lines 151-228. *)
Definition afterMatch (path : DiscoveredPath) (v : Locals)
    (configurationPath : string) : body State unit :=
  let sensorTypeName := inferSensorTypeName (pathStr path) in
  (configMap <- deref (baseConfigMap v) ;;
   checkSensorType configMap (deviceName path) sensorTypeName ;;
   sensorName <- resolveName configMap (deviceName path) ;;
   reconcile sensorName ;;
   data <- deref (sensorData v) ;;
   base <- deref (baseConfiguration v) ;;
   objectType <- deref (sensorType v) ;;
   construct (pathStr path) sensorName sensorTypeName data objectType
     base.2 configurationPath)%body.

Definition processDevice (sensorConfigurations : ManagedObjectType)
    (path : DiscoveredPath) : body State unit :=
  (id <- resolveIdentity (deviceName path) ;;
   v <- findConfiguration sensorConfigurations (deviceName path)
          id.1 id.2 ;;
   match interfacePath v with
   | None =>
       log ("failed to find match for " +:+ deviceName path +:+ nl) ;;
       continue
   | Some configurationPath => afterMatch path v configurationPath
   end)%body.

(** *** Lines 42-230: the callback given to [GetSensorConfiguration]

    [sensorConfigurations] is the answer of the configuration source and
    [paths] what the three calls of [findFiles] have collected; the scan
    is the first one when [sensorsChanged] of the state is [None]. *)
Definition createSensors (sensorConfigurations : ManagedObjectType)
    (paths : list DiscoveredPath) : body State unit :=
  match paths with
  | [] => log ("No IIO sensors in system" +:+ nl)
  | _ :: _ => for_each paths (processDevice sensorConfigurations)
  end.

(** A base configuration that the equality test has turned down, or
    that lacks a field: examined again, it is turned down again. *)
Definition turned_down (bus addr : Z) (m : SensorBaseConfigMap) : Prop :=
  forall cb ca,
    m !! "Bus" = Some cb -> m !! "Address" = Some ca ->
    identityDiffers cb ca bus addr <> inr false.

(** What holds between two records while nothing has been taken. *)
Definition searching (bus addr : Z) (v : Locals) : Prop :=
  interfacePath v = None /\
  forall tag m, baseConfiguration v = Some (tag, m) -> turned_down bus addr m.

(** What holds of the locals once the record [(p, data)] is taken. *)
Definition taken (types : list (option string)) (bus addr : Z)
    (v : Locals) (p : string) (data : SensorData) : Prop :=
  interfacePath v = Some p /\ sensorData v = Some data /\
  exists tag m cb ca,
    Some tag ∈ types /\ data !! tag = Some m /\
    sensorType v = Some tag /\ baseConfiguration v = Some (tag, m) /\
    baseConfigMap v = Some m /\
    m !! "Bus" = Some cb /\ get_uint64 cb = Some bus /\
    m !! "Address" = Some ca /\ get_uint64 ca = Some addr.

(** The sensor that line 224 makes and line 228 starts. *)
Definition made (pathStr sensorName sensorTypeName objectType
    configurationPath : string) (thresholds : list Threshold)
    (pollRate : Float) (readState : PowerState) : IIOSensor :=
  {| name := IIOSensor_name sensorName;
     ctor_path := pathStr;
     ctor_objectType := objectType;
     ctor_sensorName := sensorName;
     ctor_thresholds := thresholds;
     ctor_pollRate := pollRate;
     ctor_configurationPath := configurationPath;
     ctor_readState := readState;
     ctor_sensorTypeName := sensorTypeName;
     readStarted := true |}.

(** The chain of lines 151-228 on the record that has been taken. *)
Definition afterMatchOn (path : DiscoveredPath) (m : SensorBaseConfigMap)
    (data : SensorData) (tag p : string) : body State unit :=
  (checkSensorType m (deviceName path)
     (inferSensorTypeName (pathStr path)) ;;
   sensorName <- resolveName m (deviceName path) ;;
   reconcile sensorName ;;
   construct (pathStr path) sensorName
     (inferSensorTypeName (pathStr path)) data tag m p)%body.

(** The state after lines 158-162, when the declared type reads as
    [declared]: a warning is written when it differs from the type
    inferred from the path. *)
Definition typeChecked (st : State) (sensorTypeName declared : string)
  : State :=
  if String.eqb sensorTypeName declared then st
  else logged st ("config sensor type " +:+ declared
                  +:+ " doesn't match sensor type " +:+ sensorTypeName
                  +:+ nl).

(** The device at [path] is matched: its identity is resolved, and the
    search through [configs] ends with [interfacePath] pointing into the
    record at [p] and [baseConfigMap] at the map [m]; [st'] is the state
    after the search (which writes to [std::cerr] only). *)
Definition matched (configs : ManagedObjectType) (path : DiscoveredPath)
    (st : State) (v : Locals) (p : string) (m : SensorBaseConfigMap)
    (st' : State) : Prop :=
  exists bus addr,
    resolveIdentity (deviceName path) st = (Normal (bus, addr), st) /\
    findConfiguration configs (deviceName path) bus addr st
      = (Normal v, st') /\
    interfacePath v = Some p /\ baseConfigMap v = Some m.

(** Two states with the same sensor table, the same objects and the same
    Changed-Path Set: they differ in the output at most. *)
Definition same_sensors (st st' : State) : Prop :=
  sensors st' = sensors st /\ allocated st' = allocated st /\
  sensorsChanged st' = sensorsChanged st.

End Engine.

(** ** Lines 244-277: the event handler of [main] and its timer *)

Module Debounce.

(** The message given to [eventHandler]. *)
Record message := {
  is_method_error : bool;
  get_path : string;
}.

(** The [error_code] a wait handler is called with. *)
Inductive error_code :=
| success
| operation_aborted
| other_error.

(** [boost::posix_time::seconds(1)], in microseconds. *)
Definition quiet : Z := 1000000.

Record Main := {
  (** the set that [sensorsChanged] points to *)
  changedSet : FlatSet.t;
  (** [filterTimer]: the expiry of the wait that is pending, if any *)
  expiry : option Z;
  (** the time, in microseconds *)
  clock : Z;
  (** the calls [createSensors(io, objectServer, sensors, systemBus,
      sensorsChanged)] made by the wait handler, oldest first, each with
      the content of the set when it is made *)
  rescans : list FlatSet.t;
  errlog : list string;
}.

(** Lines 263-276: the handler given to [async_wait].  The call of line
    274 is recorded with the content of the set at the call.  What the
    call goes on to do is not followed here: the pass it starts takes
    entries out of the same set (line 183) when the configuration
    arrives.  The set of [Main] is the set as the event handler alone
    changes it. *)
Definition waitHandler (ec : error_code) (m : Main) : Main :=
  match ec with
  | operation_aborted => m (* we were canceled *)
  | other_error =>
      {| changedSet := changedSet m; expiry := expiry m; clock := clock m;
         rescans := rescans m;
         errlog := emit (errlog m) ("timer error" +:+ nl) |}
  | success =>
      {| changedSet := changedSet m; expiry := expiry m; clock := clock m;
         rescans := app (rescans m) [changedSet m];
         errlog := errlog m |}
  end.

(** [filterTimer.expires_from_now(d)] followed by [async_wait]: a wait
    that is pending is cancelled, which calls its handler with
    [operation_aborted], and a new wait expires [d] from now. *)
Definition rearm (d : Z) (m : Main) : Main :=
  let m := match expiry m with
           | Some _ => waitHandler operation_aborted m
           | None => m
           end in
  {| changedSet := changedSet m; expiry := Some (clock m + d);
     clock := clock m; rescans := rescans m; errlog := errlog m |}.

(** Lines 253-277. *)
Definition eventHandler (msg : message) (m : Main) : Main :=
  if is_method_error msg then
    {| changedSet := changedSet m; expiry := expiry m; clock := clock m;
       rescans := rescans m;
       errlog := emit (errlog m) ("callback method error" +:+ nl) |}
  else
    rearm quiet
      {| changedSet := FlatSet.insert (get_path msg) (changedSet m);
         expiry := expiry m; clock := clock m; rescans := rescans m;
         errlog := errlog m |}.

(** [io.run()] with nothing to deliver until time [t]: a pending wait
    whose expiry is reached completes with [success]. *)
Definition idle_until (t : Z) (m : Main) : Main :=
  let at_t m := {| changedSet := changedSet m; expiry := expiry m;
                   clock := Z.max (clock m) t; rescans := rescans m;
                   errlog := errlog m |} in
  match expiry m with
  | Some e =>
      if e <=? t then
        at_t (waitHandler success
                {| changedSet := changedSet m; expiry := None;
                   clock := e; rescans := rescans m;
                   errlog := errlog m |})
      else at_t m
  | None => at_t m
  end.

(** A message delivered at time [t]. *)
Definition deliver (m : Main) (tm : Z * message) : Main :=
  eventHandler tm.2 (idle_until tm.1 m).

Definition run (msgs : list (Z * message)) (m : Main) : Main :=
  fold_left deliver msgs m.

(** Each message comes less than the quiet period after the one before;
    the first one no earlier than [t0]. *)
Fixpoint burst_from (t0 : Z) (msgs : list (Z * message)) : Prop :=
  match msgs with
  | [] => True
  | (t, msg) :: rest =>
      t0 <= t /\ t < t0 + quiet /\ is_method_error msg = false /\
      burst_from t rest
  end.

(** The set after the paths of [msgs] have been inserted into [s]. *)
Definition notified (msgs : list (Z * message)) (s : FlatSet.t)
  : FlatSet.t :=
  fold_left (fun s tm => FlatSet.insert (get_path tm.2) s) msgs s.

(** Time of the last message. *)
Definition last_time (t0 : Z) (msgs : list (Z * message)) : Z :=
  List.last (map fst msgs) t0.

End Debounce.

(** ** [float] and [double]

    The poll rate is a [float] (lines 23 and 201-209): [pollRateDefault]
    is one, [pollRate] is one, and the test of line 205 is between two of
    them.  An IEEE 754 number is a [spec_float] of the Standard Library:
    a zero, an infinity, a NaN, or a sign, a mantissa and an exponent
    with value [m * 2 ^ e]; binary32 has 24 bits of mantissa and its
    infinities at exponent 128. *)

Module Single.

Definition prec : Z := 24.
Definition emax : Z := 128.

(** A [double] converted to [float]: rounded to the nearest [float], a
    tie to the one with an even mantissa. *)
Definition of_double (d : spec_float) : spec_float :=
  match d with
  | S754_finite s m e => binary_round prec emax s m e
  | _ => d
  end.

(** An integer converted to [float]. *)
Definition of_Z (n : Z) : spec_float := binary_normalize prec emax n 0 false.

(** The [float] of a literal of the source that is written as the
    quotient of two integers which are [float]s themselves. *)
Definition of_Q (q : Q) : spec_float :=
  SFdiv prec emax (of_Z (Qnum q)) (of_Z (Zpos (Qden q))).

(** [0.0f] and [0.5]. *)
Definition zero : spec_float := S754_zero false.
Definition half : spec_float := S754_finite false 8388608 (-24).

(** [x > 0] and [x <= 0]; both fail for a NaN. *)
Definition above_zero (x : spec_float) : bool := SFltb (S754_zero false) x.
Definition at_most_zero (x : spec_float) : bool := SFleb x (S754_zero false).

(** The number that a zero or a finite [x] stands for. *)
Definition value (x : spec_float) : option Q :=
  match x with
  | S754_zero _ => Some 0%Q
  | S754_finite s m e =>
      Some ((if s then inject_Z (Zneg m) else inject_Z (Zpos m))
            * Qpower 2 e)%Q
  | _ => None
  end.

End Single.

(** ** A sample implementation of the collaborators, for the examples

    The visitors of the sample read a number as a [float] and a string as
    a string, and raise otherwise; no thresholds are configured. *)

Module Sample.

(** Modelled from the spec: the [std::variant] of [Utils.hpp] is missing;
    the attribute values are "typed scalar values (unsigned integer,
    string, floating point)".  The floating point value is a [double]. *)
Inductive variant :=
| VUint64 (n : Z)
| VString (s : string)
| VDouble (d : spec_float).

Inductive power := on | biosPost | always.

(** Modelled from the spec: [VariantVisitors.hpp] is missing.  The
    visitor of line 203 gives the number held, and line 202 holds it in
    the [float] [pollRate]: the number is converted to [float]. *)
#[export] Instance collaborators : Collaborators := {|
  BasicVariantType := variant;
  get_uint64 v := match v with VUint64 n => Some n | _ => None end;
  get_string v := match v with VString s => Some s | _ => None end;
  Float := spec_float;
  float_lit := Single.of_Q;
  float_le := SFleb;
  VariantToFloatVisitor v :=
    match v with
    | VUint64 n => inr (Single.of_Z n)
    | VDouble d => inr (Single.of_double d)
    | VString _ => inl invalid_argument
    end;
  VariantToStringVisitor v :=
    match v with
    | VString s => inr s
    | _ => inl invalid_argument
    end;
  Threshold := Empty_set;
  parseThresholdsFromConfig _ := (true, []);
  PowerState := power;
  PowerState_always := always;
  setReadState str val :=
    if String.eqb str "On" then on
    else if String.eqb str "BiosPost" then biosPost
    else if String.eqb str "Always" then always
    else val;
  IIOSensor_name sensorName := sensorName;
|}.

(** The [double]s 2, 0.1 and 1e-50, and the [float]s 2 and 0.1f. *)
Definition twoDouble : spec_float :=
  S754_finite false 4503599627370496 (-51).
Definition tenthDouble : spec_float :=
  S754_finite false 7205759403792794 (-56).
Definition tinyDouble : spec_float :=
  S754_finite false 8424983333484575 (-219).
Definition twoFloat : spec_float := S754_finite false 8388608 (-22).
Definition tenthFloat : spec_float := S754_finite false 13421773 (-27).

Definition DPS310 : string := "xyz.openbmc_project.Configuration.DPS310".
Definition SI7020 : string := "xyz.openbmc_project.Configuration.SI7020".

Definition st0 (changed : option FlatSet.t) : State :=
  {| sensors := ∅; allocated := 0; sensorsChanged := changed; cerr := [] |}.

(** The locals after the search has taken the record [(path, data)]
    through its map [m] under [tag]. *)
Definition takenLocals (path tag : string)
    (m : gmap string variant) : Locals :=
  {| sensorData := Some {[ tag := m ]};
     interfacePath := Some path;
     sensorType := Some tag;
     baseConfiguration := Some (tag, m);
     baseConfigMap := Some m |}.

(** A pressure sensor on bus 7 at address 0x76. *)
Definition baroPath : DiscoveredPath :=
  {| pathStr := "/sys/bus/iio/devices/iio:device0/in_pressure_input";
     deviceName := "7-0076" |}.

Definition baroConfig : string :=
  "/xyz/openbmc_project/inventory/system/board/bmc/Baro".

Definition baroMap : gmap string variant :=
  list_to_map
    [("Bus", VUint64 7); ("Address", VUint64 118);
     ("Name", VString "Baro"); ("SensorType", VString "pressure")].

Definition baroRecord : string * gmap string (gmap string variant) :=
  (baroConfig, {[ DPS310 := baroMap ]}).

(** The temperature channel of the same device. *)
Definition baroTempPath : DiscoveredPath :=
  {| pathStr := "/sys/bus/iio/devices/iio:device0/in_temp_input";
     deviceName := "7-0076" |}.

(** A humidity sensor on bus 3 at address 0x40. *)
Definition humPath : DiscoveredPath :=
  {| pathStr := "/sys/bus/iio/devices/iio:device1/in_humidity_input";
     deviceName := "3-0040" |}.

Definition humConfig : string :=
  "/xyz/openbmc_project/inventory/system/board/bmc/Hum".

Definition humMap : gmap string variant :=
  list_to_map
    [("Bus", VUint64 3); ("Address", VUint64 64);
     ("Name", VString "Hum"); ("SensorType", VString "humidity");
     ("PollRate", VDouble twoDouble)].

Definition humRecord : string * gmap string (gmap string variant) :=
  (humConfig, {[ SI7020 := humMap ]}).

(** The record of the pressure sensor without [SensorType], and without
    [Name]. *)
Definition untypedMap : gmap string variant :=
  list_to_map
    [("Bus", VUint64 7); ("Address", VUint64 118);
     ("Name", VString "Baro")].

Definition unnamedMap : gmap string variant :=
  list_to_map
    [("Bus", VUint64 7); ("Address", VUint64 118);
     ("SensorType", VString "pressure")].

(** The same record with a number where the name is expected, and with
    a string where the bus is expected. *)
Definition numberedMap : gmap string variant :=
  list_to_map
    [("Bus", VUint64 7); ("Address", VUint64 118);
     ("Name", VUint64 5); ("SensorType", VString "pressure")].

Definition quotedBusMap : gmap string variant :=
  list_to_map
    [("Bus", VString "7"); ("Address", VUint64 118);
     ("Name", VString "Baro"); ("SensorType", VString "pressure")].

(** Device names that are not of the form of the comment at line 65. *)
Definition twoHyphens : DiscoveredPath :=
  {| pathStr := "/sys/bus/iio/devices/iio:device0/in_pressure_input";
     deviceName := "7-0076-1" |}.

Definition wideAddress : DiscoveredPath :=
  {| pathStr := "/sys/bus/iio/devices/iio:device2/in_temp_input";
     deviceName := "1-80000000" |}.

Definition noNumber : DiscoveredPath :=
  {| pathStr := "/sys/bus/iio/devices/iio:device3/in_temp_input";
     deviceName := "iio-hwmon" |}.

(** The sensor of [baroRecord] as a first scan makes it, and a state
    whose table holds it. *)
Definition baroSensor : IIOSensor :=
  made (pathStr baroPath) "Baro" "pressure" DPS310 baroConfig []
    Single.half always.

Definition st1 (changed : option FlatSet.t) : State :=
  {| sensors := {[ "Baro" := ptr 0 baroSensor ]}; allocated := 1;
     sensorsChanged := changed; cerr := [] |}.

Definition humSensor : IIOSensor :=
  made (pathStr humPath) "Hum" "humidity" SI7020 humConfig [] twoFloat
    always.

(** Both sensors in the table, and a Changed-Path Set. *)
Definition st2 (changed : FlatSet.t) : State :=
  {| sensors := {[ "Baro" := ptr 0 baroSensor; "Hum" := ptr 1 humSensor ]};
     allocated := 2; sensorsChanged := Some changed; cerr := [] |}.

(** Two sensors the stored name of one of which ends the stored name of
    the other, and a Changed-Path Set. *)
Definition inletSensor : IIOSensor :=
  made "/sys/bus/iio/devices/iio:device2/in_temp_input" "Temp"
    "temperature" SI7020 "/inv/Temp" [] Single.half always.

Definition cpuSensor : IIOSensor :=
  made "/sys/bus/iio/devices/iio:device4/in_temp_input" "CPU_Temp"
    "temperature" SI7020 "/inv/CPU_Temp" [] Single.half always.

Definition st3 (changed : FlatSet.t) : State :=
  {| sensors := {[ "Temp" := ptr 0 inletSensor;
                   "CPU_Temp" := ptr 1 cpuSensor ]};
     allocated := 2; sensorsChanged := Some changed; cerr := [] |}.

(** Five notifications, 0.2 s apart. *)
Definition notification (path : string) : Debounce.message :=
  {| Debounce.is_method_error := false; Debounce.get_path := path |}.

Definition idle : Debounce.Main :=
  {| Debounce.changedSet := []; Debounce.expiry := None;
     Debounce.clock := 0; Debounce.rescans := [];
     Debounce.errlog := [] |}.

Definition laterFour : list (Z * Debounce.message) :=
  [(200000, notification "/inv/B"); (400000, notification "/inv/A");
   (600000, notification "/inv/C"); (800000, notification "/inv/B")].

End Sample.

Example stoi_dec : Stoi.stoi "7" 10 = inr 7.
Proof. reflexivity. Qed.
Example stoi_hex : Stoi.stoi "0076" 16 = inr 118.
Proof. reflexivity. Qed.
Example stoi_hex_prefix : Stoi.stoi "0x1F" 16 = inr 31.
Proof. reflexivity. Qed.
Example stoi_tail : Stoi.stoi "0076-1" 16 = inr 118.
Proof. reflexivity. Qed.
Example stoi_none : Stoi.stoi "iio" 10 = inl invalid_argument.
Proof. reflexivity. Qed.
Example stoi_big : Stoi.stoi "80000000" 16 = inl out_of_range.
Proof. reflexivity. Qed.

(** ** Predicates for the properties of the Changed-Path Set and of the
    event handler *)

(** The elements are in strictly increasing order, as a [flat_set] keeps
    them. *)
Fixpoint increasing (l : FlatSet.t) : Prop :=
  match l with
  | [] => True
  | x :: l' => Forall (fun y => Str.lt x y = true) l' /\ increasing l'
  end.

(** ** Predicates for the properties of the pass *)

Section PassPredicates.
Context `{Collaborators}.

(** The base configuration that lines 106-115 find in a record when
    nothing is left from an earlier record. *)
Definition baseOf (data : SensorData)
  : option (string * SensorBaseConfigMap) :=
  match findBase sensorTypes data initLocals with
  | inr v => baseConfiguration v
  | inl _ => None
  end.

(** The record is the one of the device: its base configuration holds the
    bus and the address of the device. *)
Definition matches (bus addr : Z) (data : SensorData) : Prop :=
  exists tag m cb ca,
    baseOf data = Some (tag, m) /\
    m !! "Bus" = Some cb /\ get_uint64 cb = Some bus /\
    m !! "Address" = Some ca /\ get_uint64 ca = Some addr.

(** The base configuration of the record lacks [Bus] or [Address]. *)
Definition lacksField (data : SensorData) : bool :=
  match baseOf data with
  | Some (_, m) =>
      match m !! "Bus", m !! "Address" with
      | Some _, Some _ => false
      | _, _ => true
      end
  | None => false
  end.

(** The search goes past the record: it has a base configuration, which
    lacks a field or whose comparison (lines 134-139) finds a difference. *)
Definition passedOver (bus addr : Z) (data : SensorData) : Prop :=
  exists tag m,
    baseOf data = Some (tag, m) /\
    match m !! "Bus", m !! "Address" with
    | Some cb, Some ca => identityDiffers cb ca bus addr = inr true
    | _, _ => True
    end.

(** The message of line 129. *)
Definition busAddressMessage : string :=
  "error finding bus or address in " +:+ "configuration" +:+ nl.

(** What the body of the loop over the paths can do to the sensor table,
    the objects and the Changed-Path Set, with the way it ends: nothing;
    clear the slot of a signalled sensor and be left by an exception; make
    the signalled sensor anew; make a sensor on a first scan or under a
    name the table does not have. *)
Inductive effect : completion unit -> State -> State -> Prop :=
| effect_none c st st' :
    same_sensors st st' -> c <> Break -> effect c st st'
| effect_cleared e st st' sensorName a o l1 x l2 :
    sensorsChanged st = Some (l1 ++ x :: l2)%list ->
    sensors st !! sensorName = Some (ptr a o) ->
    Str.ends_with x (name o) = true ->
    (forall y, y ∈ l1 -> Str.ends_with y (name o) = false) ->
    sensors st' = <[sensorName := nullptr]> (sensors st) ->
    allocated st' = allocated st ->
    sensorsChanged st' = Some (l1 ++ l2)%list ->
    effect (Throw e) st st'
| effect_rebuilt st st' sensorName a o l1 x l2 o' :
    sensorsChanged st = Some (l1 ++ x :: l2)%list ->
    sensors st !! sensorName = Some (ptr a o) ->
    Str.ends_with x (name o) = true ->
    (forall y, y ∈ l1 -> Str.ends_with y (name o) = false) ->
    sensors st' = <[sensorName := ptr (allocated st) o']> (sensors st) ->
    allocated st' = S (allocated st) ->
    sensorsChanged st' = Some (l1 ++ l2)%list ->
    ctor_sensorName o' = sensorName ->
    name o' = IIOSensor_name sensorName ->
    effect (Normal tt) st st'
| effect_new st st' sensorName o' :
    sensorsChanged st = None \/ sensors st !! sensorName = None ->
    sensors st' = <[sensorName := ptr (allocated st) o']> (sensors st) ->
    allocated st' = S (allocated st) ->
    sensorsChanged st' = sensorsChanged st ->
    ctor_sensorName o' = sensorName ->
    name o' = IIOSensor_name sensorName ->
    effect (Normal tt) st st'.

(** Every object of the table has an address that has been handed out. *)
Definition addresses_allocated (st : State) : Prop :=
  forall n a o, sensors st !! n = Some (ptr a o) -> (a < allocated st)%nat.

(** No object is held by two slots of the table. *)
Definition objects_unshared (st : State) : Prop :=
  forall n1 n2 a o1 o2,
    sensors st !! n1 = Some (ptr a o1) ->
    sensors st !! n2 = Some (ptr a o2) -> n1 = n2.

(** Every object sits under the name it was constructed with. *)
Definition slots_named (st : State) : Prop :=
  forall n a o,
    sensors st !! n = Some (ptr a o) ->
    ctor_sensorName o = n /\ name o = IIOSensor_name n.

(** No slot of the table holds a null pointer. *)
Definition no_null_slot (st : State) : Prop :=
  forall n, sensors st !! n <> Some nullptr.

(** The messages the search writes for the records it goes past. *)
Definition passedMessages (pre : ManagedObjectType) : list string :=
  List.map (fun _ => busAddressMessage)
    (List.filter (fun r => lacksField r.2) pre).

(** Why the search ends in the exception [e] at the record [data]. *)
Definition raisedAt (bus addr : Z) (data : SensorData) (e : exception)
  : Prop :=
  (baseOf data = None /\ e = logic_error) \/
  exists tag m cb ca,
    baseOf data = Some (tag, m) /\
    m !! "Bus" = Some cb /\ m !! "Address" = Some ca /\
    identityDiffers cb ca bus addr = inl e.

End PassPredicates.

(** ** Predicates for the properties of the event handler *)

(** The wait of the state is due at [t]. *)
Definition fires (m : Debounce.Main) (t : Z) : bool :=
  match Debounce.expiry m with
  | Some e => e <=? t
  | None => false
  end.

(** * Properties *)

Lemma for_each_nil {S A} (f : A -> body S unit) s :
  for_each [] f s = (Normal tt, s).
Proof. reflexivity. Qed.

Lemma for_each_cons {S A} (f : A -> body S unit) x l s :
  for_each (x :: l) f s =
  match f x s with
  | (Normal _, s') | (Continue, s') => for_each l f s'
  | (Break, s') => (Normal tt, s')
  | (Throw e, s') => (Throw e, s')
  end.
Proof. reflexivity. Qed.

Section Matcher.
Context `{Collaborators}.

Lemma identityDiffers_false cb ca bus addr :
  identityDiffers cb ca bus addr = inr false <->
  get_uint64 cb = Some bus /\ get_uint64 ca = Some addr.
Proof.
  unfold identityDiffers.
  destruct (get_uint64 cb) as [b|]; [|split; [discriminate|intros [? _]; discriminate]].
  destruct (Z.eqb_spec b bus) as [->|Hb]; simpl.
  - destruct (get_uint64 ca) as [a|];
      [|split; [discriminate|intros [_ ?]; discriminate]].
    destruct (Z.eqb_spec a addr) as [->|Ha]; simpl.
    + split; auto.
    + split; [discriminate|intros [_ [=]]; contradiction].
  - split; [discriminate|intros [[=] _]; contradiction].
Qed.

Lemma findBase_spec types data v v' :
  findBase types data v = inr v' ->
  sensorData v' = sensorData v /\ interfacePath v' = interfacePath v /\
  baseConfigMap v' = baseConfigMap v /\
  ((baseConfiguration v' = baseConfiguration v /\
    sensorType v' = sensorType v) \/
   exists tag m, Some tag ∈ types /\ data !! tag = Some m /\
     baseConfiguration v' = Some (tag, m) /\ sensorType v' = Some tag).
Proof.
  induction types as [|[type|] rest IH]; simpl.
  - intros [= <-]. split_and!; auto.
  - destruct (data !! type) as [m|] eqn:Hm.
    + intros [= <-]. simpl. split_and!; auto.
      right. exists type, m. split_and!; auto. left.
    + intros Hf. destruct (IH Hf) as (?&?&?&[?|(tag&m&?&?&?&?)]);
        split_and!; auto.
      right. exists tag, m. split_and!; auto. by right.
  - discriminate.
Qed.

Lemma matchRecord_step types dn bus addr p data v out c v' out' :
  searching bus addr v ->
  matchRecord types dn bus addr (p, data) (v, out) = (c, (v', out')) ->
  match c with
  | Break => taken types bus addr v' p data
  | Continue => searching bus addr v'
  | Normal _ => False
  | Throw _ => True
  end.
Proof.
  intros [Hi Hs]. unfold matchRecord. simpl.
  destruct (findBase types data _) as [e|v1] eqn:Hf; [by intros [= <- _ _]|].
  apply findBase_spec in Hf as (Hd&Hp&Hm&Hb). simpl in *.
  destruct (baseConfiguration v1) as [[tag m]|] eqn:Hbc.
  2:{ intros [= <- <- _]. split; [congruence|]. intros ??. congruence. }
  simpl.
  assert (Hfresh : (baseConfiguration v = Some (tag, m) /\ turned_down bus addr m)
                   \/ (Some tag ∈ types /\ data !! tag = Some m
                       /\ sensorType v1 = Some tag)).
  { destruct Hb as [[Hb _]|(tag'&m'&?&?&Hb&?)].
    - left. split; [congruence|]. apply (Hs tag). congruence.
    - right. assert (tag' = tag /\ m' = m) as [-> ->]; [|done].
      split; congruence. }
  destruct (m !! "Bus") as [cb|] eqn:Hbus.
  2:{ intros [= <- <- _]. split; simpl; [congruence|].
      intros ?? [= <- <-] ??. congruence. }
  destruct (m !! "Address") as [ca|] eqn:Haddr.
  2:{ intros [= <- <- _]. split; simpl; [congruence|].
      intros ?? [= <- <-] ??. congruence. }
  destruct (identityDiffers cb ca bus addr) as [e|[|]] eqn:Hid.
  - by intros [= <- _ _].
  - intros [= <- <- _]. split; simpl; [congruence|].
    intros ?? [= <- <-] cb' ca' ??. congruence.
  - intros [= <- <- _].
    destruct Hfresh as [[_ Htd]|(Htag&Hdata&Hty)].
    { exfalso. by apply (Htd cb ca). }
    apply identityDiffers_false in Hid as [Hgb Hga].
    split; [done|]. split; [done|]. simpl.
    exists tag, m, cb, ca. by repeat split.
Qed.

Lemma matchLoop_spec types dn bus addr configs v out c v' out' :
  searching bus addr v ->
  matchLoop types configs dn bus addr (v, out) = (c, (v', out')) ->
  (exists e, c = Throw e) \/
  (c = Normal tt /\
   (interfacePath v' = None \/
    exists i p data, configs !! i = Some (p, data) /\
                     taken types bus addr v' p data)).
Proof.
  unfold matchLoop.
  revert v out. induction configs as [|[p data] rest IH]; intros v out Hs.
  - rewrite for_each_nil. intros [= <- <- _]. right. split; [done|].
    left. apply Hs.
  - rewrite for_each_cons.
    destruct (matchRecord types dn bus addr (p, data) (v, out))
      as [c1 [v1 out1]] eqn:Hr.
    pose proof (matchRecord_step _ _ _ _ _ _ _ _ _ _ _ Hs Hr) as Hstep.
    destruct c1 as [[]| | |e]; try done.
    + intros Hrest. destruct (IH _ _ Hstep Hrest) as [?|[-> [?|(i&p'&d'&?&?)]]];
        auto.
      right. split; [done|]. right. by exists (S i), p', d'.
    + intros [= <- <- _]. right. split; [done|]. right.
      by exists 0%nat, p, data.
    + intros [= <- _ _]. left. eauto.
Qed.

Lemma searching_init bus addr : searching bus addr initLocals.
Proof. split; [done|]. intros ?? [=]. Qed.

(** [findConfiguration] writes to [std::cerr] only, and what it returns
    in [interfacePath] is the path of a record it has taken. *)
Lemma findConfiguration_spec configs dn bus addr st c st' :
  findConfiguration configs dn bus addr st = (c, st') ->
  sensors st' = sensors st /\ allocated st' = allocated st /\
  sensorsChanged st' = sensorsChanged st /\
  ((exists e, c = Throw e) \/
   exists v, c = Normal v /\
     (interfacePath v = None \/
      exists i p data, configs !! i = Some (p, data) /\
                       taken sensorTypes bus addr v p data)).
Proof.
  unfold findConfiguration.
  destruct (matchLoop _ _ _ _ _ _) as [c1 [v out]] eqn:Hl.
  apply matchLoop_spec in Hl; [|apply searching_init].
  destruct Hl as [[e ->]|[-> Hv]].
  - intros [= <- <-]. simpl. repeat split; auto. left. eauto.
  - intros [= <- <-]. simpl. repeat split; auto. right. eauto.
Qed.

End Matcher.

Section Device.
Context `{Collaborators}.

Lemma bind_normal {S A B} (m : body S A) (k : A -> body S B) s a s' :
  m s = (Normal a, s') -> bind m k s = k a s'.
Proof. unfold bind. by intros ->. Qed.

Lemma bind_continue {S A B} (m : body S A) (k : A -> body S B) s s' :
  m s = (Continue, s') -> bind m k s = (Continue, s').
Proof. unfold bind. by intros ->. Qed.

Lemma bind_throw {S A B} (m : body S A) (k : A -> body S B) s e s' :
  m s = (Throw e, s') -> bind m k s = (Throw e, s').
Proof. unfold bind. by intros ->. Qed.

Lemma same_sensors_refl st : same_sensors st st.
Proof. by repeat split. Qed.

Lemma same_sensors_logged st msg : same_sensors st (logged st msg).
Proof. by repeat split. Qed.

Lemma same_sensors_trans st1 st2 st3 :
  same_sensors st1 st2 -> same_sensors st2 st3 -> same_sensors st1 st3.
Proof.
  intros (?&?&?) (?&?&?). repeat split; congruence.
Qed.

Lemma findConfiguration_same configs dn bus addr st c st' :
  findConfiguration configs dn bus addr st = (c, st') -> same_sensors st st'.
Proof.
  intros Hf. apply findConfiguration_spec in Hf as (?&?&?&_). by repeat split.
Qed.

(** From a device that is matched on, the body goes on with lines
    151-228, and these work on the record that has been taken. *)
Lemma matched_taken configs path st v p m st' :
  matched configs path st v p m st' ->
  exists bus addr i data,
    resolveIdentity (deviceName path) st = (Normal (bus, addr), st) /\
    configs !! i = Some (p, data) /\
    taken sensorTypes bus addr v p data /\
    same_sensors st st' /\
    processDevice configs path st = afterMatch path v p st'.
Proof.
  intros (bus&addr&Hid&Hf&Hp&Hm).
  pose proof (findConfiguration_same _ _ _ _ _ _ _ Hf) as Hsame.
  pose proof Hf as Hf'.
  apply findConfiguration_spec in Hf' as (_&_&_&[[e [=]]|(v'&[= <-]&Hv)]).
  destruct Hv as [Hn|(i&p'&data&Hi&Ht)]; [congruence|].
  assert (p' = p) as -> by (destruct Ht as [Ht _]; congruence).
  exists bus, addr, i, data. split_and!; auto.
  unfold processDevice.
  rewrite (bind_normal _ _ _ _ _ Hid). simpl.
  rewrite (bind_normal _ _ _ _ _ Hf). by rewrite Hp.
Qed.

Lemma afterMatch_taken types bus addr path v p data st :
  taken types bus addr v p data ->
  exists tag m,
    baseConfigMap v = Some m /\ baseConfiguration v = Some (tag, m) /\
    sensorType v = Some tag /\ data !! tag = Some m /\
    afterMatch path v p st =
    (checkSensorType m (deviceName path)
       (inferSensorTypeName (pathStr path)) ;;
     sensorName <- resolveName m (deviceName path) ;;
     reconcile sensorName ;;
     construct (pathStr path) sensorName
       (inferSensorTypeName (pathStr path)) data tag m p)%body st.
Proof.
  intros (Hp&Hd&tag&m&cb&ca&_&Hdt&Hty&Hbc&Hbm&_).
  exists tag, m. split_and!; auto.
  unfold afterMatch. rewrite Hbm, Hd, Hbc, Hty.
  unfold bind, deref, ret.
  by destruct (checkSensorType _ _ _ st) as [[[]| | |e] st1].
Qed.

(** The messages of lines 154, 161 and 167. *)
Lemma checkSensorType_absent m dn kind st :
  m !! "SensorType" = None ->
  checkSensorType m dn kind st =
  (Continue, logged st ("failed to find the sensor type for " +:+ dn +:+ nl)).
Proof. unfold checkSensorType. by intros ->. Qed.

Lemma checkSensorType_present m dn kind st tv declared :
  m !! "SensorType" = Some tv ->
  VariantToStringVisitor tv = inr declared ->
  checkSensorType m dn kind st = (Normal tt, typeChecked st kind declared).
Proof.
  unfold checkSensorType, typeChecked. intros -> Hv. unfold bind, call.
  rewrite Hv. simpl. by destruct (String.eqb kind declared).
Qed.

Lemma same_sensors_typeChecked st kind declared :
  same_sensors st (typeChecked st kind declared).
Proof.
  unfold typeChecked. destruct (String.eqb kind declared);
    [apply same_sensors_refl|apply same_sensors_logged].
Qed.

Lemma checkSensorType_throws m dn kind st tv e :
  m !! "SensorType" = Some tv ->
  VariantToStringVisitor tv = inl e ->
  checkSensorType m dn kind st = (Throw e, st).
Proof.
  unfold checkSensorType. intros -> Hv. unfold bind, call. by rewrite Hv.
Qed.

Lemma checkSensorType_same m dn kind st c st' :
  checkSensorType m dn kind st = (c, st') ->
  same_sensors st st' /\ c <> Break.
Proof.
  destruct (m !! "SensorType") as [tv|] eqn:Hm.
  - destruct (VariantToStringVisitor tv) as [e|d] eqn:Hv.
    + rewrite (checkSensorType_throws _ _ _ _ _ _ Hm Hv).
      intros [= <- <-]. split; [apply same_sensors_refl|done].
    + rewrite (checkSensorType_present _ _ _ _ _ _ Hm Hv).
      intros [= <- <-]. split; [apply same_sensors_typeChecked|done].
  - rewrite (checkSensorType_absent _ _ _ _ Hm).
    intros [= <- <-]. split; [apply same_sensors_logged|done].
Qed.

Lemma resolveName_absent m dn st :
  m !! "Name" = None ->
  resolveName m dn st =
  (Continue,
   logged st ("could not determine configuration name for " +:+ dn +:+ nl)).
Proof. unfold resolveName. by intros ->. Qed.

Lemma resolveName_present m dn st nv sensorName :
  m !! "Name" = Some nv -> get_string nv = Some sensorName ->
  resolveName m dn st = (Normal sensorName, st).
Proof. unfold resolveName. by intros -> ->. Qed.

Lemma resolveName_same m dn st c st' :
  resolveName m dn st = (c, st') ->
  same_sensors st st' /\ c <> Break /\
  (forall sensorName, c = Normal sensorName -> is_Some (m !! "Name")).
Proof.
  unfold resolveName. destruct (m !! "Name") as [nv|].
  - destruct (get_string nv); intros [= <- <-];
      (split; [apply same_sensors_refl|split; [done|eauto]]).
  - intros [= <- <-]. split; [apply same_sensors_logged|]. by split.
Qed.

Lemma reconcile_no_break sensorName st c st' :
  reconcile sensorName st = (c, st') -> c <> Break.
Proof.
  unfold reconcile. intros Hr ->.
  repeat case_match; simplify_eq.
Qed.

(** On a first scan the reconciler lets every device through. *)
Lemma reconcile_first_scan sensorName st :
  sensorsChanged st = None -> reconcile sensorName st = (Normal tt, st).
Proof. unfold reconcile. by intros ->. Qed.

Lemma construct_spec ps sn kind data tag m p st c st' :
  construct ps sn kind data tag m p st = (c, st') ->
  match c with
  | Normal _ =>
      exists pollRate readState,
        effectivePollRate m = inr pollRate /\
        configuredReadState m = inr readState /\
        sensors st' =
          <[sn := ptr (allocated st)
                    (made ps sn kind tag p
                       (parseThresholdsFromConfig data).2
                       pollRate readState)]> (sensors st) /\
        allocated st' = S (allocated st) /\
        sensorsChanged st' = sensorsChanged st
  | Throw e =>
      same_sensors st st' /\
      (effectivePollRate m = inl e \/ configuredReadState m = inl e)
  | _ => False
  end.
Proof.
  unfold construct.
  destruct (parseThresholdsFromConfig data) as [ok ths]. simpl.
  set (st1 := if ok then st
              else logged st ("error populating thresholds for "
                              +:+ sn +:+ nl)).
  assert (Hst1 : same_sensors st st1)
    by (subst st1; destruct ok;
        [apply same_sensors_refl|apply same_sensors_logged]).
  assert (Hlog : (if ok then ret tt
                  else log ("error populating thresholds for "
                            +:+ sn +:+ nl)) st = (Normal tt, st1))
    by (subst st1; by destruct ok).
  rewrite (bind_normal _ _ _ _ _ Hlog).
  unfold bind, call.
  destruct (effectivePollRate m) as [e|pr]; simpl.
  { intros [= <- <-]. split; auto. }
  destruct (configuredReadState m) as [e|rs]; simpl.
  { intros [= <- <-]. split; auto. }
  intros [= <- <-]. exists pr, rs. simpl.
  destruct Hst1 as (->&->&->). by split_and!.
Qed.

Lemma construct_ok ps sn kind data tag m p st pollRate readState :
  effectivePollRate m = inr pollRate ->
  configuredReadState m = inr readState ->
  exists st',
    construct ps sn kind data tag m p st = (Normal tt, st') /\
    sensors st' =
      <[sn := ptr (allocated st)
                (made ps sn kind tag p (parseThresholdsFromConfig data).2
                   pollRate readState)]> (sensors st) /\
    allocated st' = S (allocated st) /\
    sensorsChanged st' = sensorsChanged st.
Proof.
  intros Hp Hr.
  destruct (construct ps sn kind data tag m p st) as [c st'] eqn:Hc.
  pose proof (construct_spec _ _ _ _ _ _ _ _ _ _ Hc) as Hs.
  destruct c as [[]| | |e]; try done.
  - destruct Hs as (pr&rs&Hp'&Hr'&?&?&?).
    assert (pr = pollRate) as -> by congruence.
    assert (rs = readState) as -> by congruence.
    by exists st'.
  - destruct Hs as (_&[?|?]); congruence.
Qed.

Lemma matched_chain configs path st v p m st' :
  matched configs path st v p m st' ->
  exists data tag,
    same_sensors st st' /\
    is_Some (m !! "Bus") /\ is_Some (m !! "Address") /\
    processDevice configs path st = afterMatchOn path m data tag p st'.
Proof.
  intros Hm.
  destruct (matched_taken _ _ _ _ _ _ _ Hm)
    as (bus&addr&i&data&_&_&Ht&Hs&Hp).
  destruct (afterMatch_taken _ _ _ path _ _ _ st' Ht)
    as (tag&m'&Hbm&_&_&_&Ha).
  destruct Hm as (_&_&_&_&_&Hbm').
  assert (m' = m) as -> by congruence.
  destruct Ht as (_&_&tag'&m'&cb&ca&_&_&_&_&Hbm''&Hb&_&Had&_).
  assert (m' = m) as -> by congruence.
  exists data, tag. split_and!; eauto.
  by rewrite Hp.
Qed.

Lemma parseBusAddr_spec busStr addrStr st c st' :
  parseBusAddr busStr addrStr st = (c, st') ->
  st' = st /\
  match c with
  | Normal id =>
      exists bus addr,
        Stoi.stoi busStr 10 = inr bus /\ Stoi.stoi addrStr 16 = inr addr /\
        id = (Stoi.to_size_t bus, Stoi.to_size_t addr)
  | Continue =>
      Stoi.stoi busStr 10 = inl invalid_argument \/
      (exists bus, Stoi.stoi busStr 10 = inr bus /\
                   Stoi.stoi addrStr 16 = inl invalid_argument)
  | Throw e =>
      e <> invalid_argument /\
      (Stoi.stoi busStr 10 = inl e \/
       (exists bus, Stoi.stoi busStr 10 = inr bus /\
                    Stoi.stoi addrStr 16 = inl e))
  | Break => False
  end.
Proof.
  unfold parseBusAddr.
  destruct (Stoi.stoi busStr 10) as [e|bus].
  - destruct e; intros [= <- <-]; (split; [done|]);
      first [by left | split; [done|by left]].
  - destruct (Stoi.stoi addrStr 16) as [e|addr].
    + destruct e; intros [= <- <-]; (split; [done|]);
        first [by right; eauto | split; [done|right; eauto]].
    + intros [= <- <-]. split; [done|]. eauto.
Qed.

Lemma resolveIdentity_spec dn st c st' :
  resolveIdentity dn st = (c, st') ->
  c <> Break /\ same_sensors st st' /\
  (forall id, c = Normal id -> st' = st).
Proof.
  unfold resolveIdentity. destruct (Str.find_char "-" dn) as [i|].
  - intros Hp. apply parseBusAddr_spec in Hp as [-> Hc].
    split; [by intros ->|]. split; [apply same_sensors_refl|done].
  - intros [= <- <-]. split; [done|]. split; [apply same_sensors_logged|done].
Qed.

(** The sensor table, the objects and the Changed-Path Set are touched
    only behind a record that is matched and has [SensorType] and
    [Name]. *)
Lemma afterMatchOn_cases path m data tag p st c st' :
  afterMatchOn path m data tag p st = (c, st') ->
  c <> Break /\
  (same_sensors st st' /\ c <> Normal tt \/
   is_Some (m !! "SensorType") /\ is_Some (m !! "Name")).
Proof.
  unfold afterMatchOn, bind.
  destruct (checkSensorType _ _ _ st) as [c1 st1] eqn:H1.
  pose proof (checkSensorType_same _ _ _ _ _ _ H1) as [Hs1 Hb1].
  assert (Ht : c1 = Normal tt -> is_Some (m !! "SensorType")).
  { intros ->. destruct (m !! "SensorType") eqn:Hm; [eauto|].
    by rewrite (checkSensorType_absent _ _ _ _ Hm) in H1. }
  destruct c1 as [[]| | |e]; try done;
    try (intros [= <- <-]; split; [done|by left]).
  destruct (resolveName _ _ st1) as [c2 st2] eqn:H2.
  pose proof (resolveName_same _ _ _ _ _ H2) as (Hs2&Hb2&Hn).
  destruct c2 as [sn| | |e]; try done;
    try (intros [= <- <-]; split; [done|left; split; [|done]];
         eapply same_sensors_trans; eauto).
  destruct (reconcile sn st2) as [c3 st3] eqn:H3.
  pose proof (reconcile_no_break _ _ _ _ H3) as Hb3.
  destruct c3 as [[]| | |e]; try done.
  - intros Hc. pose proof (construct_spec _ _ _ _ _ _ _ _ _ _ Hc) as Hcs.
    split; [by intros ->|]. right. split; eauto.
  - intros [= <- <-]. split; [done|]. right. split; eauto.
  - intros [= <- <-]. split; [done|]. right. split; eauto.
Qed.

Lemma processDevice_cases configs path st c st' :
  processDevice configs path st = (c, st') ->
  c <> Break /\
  (same_sensors st st' /\ c <> Normal tt \/
   exists v p m st2,
     matched configs path st v p m st2 /\
     is_Some (m !! "SensorType") /\ is_Some (m !! "Name")).
Proof.
  intros Hp. pose proof Hp as Hp'. revert Hp'.
  unfold processDevice at 1. unfold bind at 1.
  destruct (resolveIdentity _ st) as [c1 st1] eqn:H1.
  pose proof (resolveIdentity_spec _ _ _ _ H1) as (Hb1&Hs1&He1).
  destruct c1 as [[bus addr]| | |e]; try done;
    try (intros [= <- <-]; split; [done|by left]).
  rewrite (He1 _ eq_refl) in *. clear He1 Hs1. simpl.
  unfold bind at 1.
  destruct (findConfiguration _ _ _ _ st) as [c2 st2] eqn:H2.
  pose proof (findConfiguration_same _ _ _ _ _ _ _ H2) as Hs2.
  pose proof H2 as H2'.
  apply findConfiguration_spec in H2' as (_&_&_&[[e ->]|(v&->&Hv)]).
  { intros [= <- <-]. split; [done|by left]. }
  destruct Hv as [Hn|(i&p&data&Hi&Ht)].
  { rewrite Hn. intros [= <- <-]. split; [done|]. left. split; [|done].
    eapply same_sensors_trans; [done|apply same_sensors_logged]. }
  intros _.
  destruct Ht as (Hip&Hd&tag&m&cb&ca&Hin&Hdt&Hty&Hbc&Hbm&Hrest).
  assert (Hm : matched configs path st v p m st2)
    by (exists bus, addr; by split_and!).
  destruct (matched_chain _ _ _ _ _ _ _ Hm) as (data'&tag'&_&_&_&Hch).
  rewrite Hch in Hp.
  apply afterMatchOn_cases in Hp as [Hb [[Hs Hc]|[Ht Hn]]].
  - split; [done|]. left. split; [|done]. by eapply same_sensors_trans.
  - split; [done|]. right. by exists v, p, m, st2.
Qed.

(** A matched device whose record declares a readable type and a name
    reaches the reconciler. *)
Lemma matched_named configs path st v p m st' tv declared nv sensorName :
  matched configs path st v p m st' ->
  m !! "SensorType" = Some tv ->
  VariantToStringVisitor tv = inr declared ->
  m !! "Name" = Some nv -> get_string nv = Some sensorName ->
  exists data tag,
    same_sensors st
      (typeChecked st' (inferSensorTypeName (pathStr path)) declared) /\
    processDevice configs path st =
    (reconcile sensorName ;;
     construct (pathStr path) sensorName
       (inferSensorTypeName (pathStr path)) data tag m p)%body
      (typeChecked st' (inferSensorTypeName (pathStr path)) declared).
Proof.
  intros Hm Ht Hv Hn Hg.
  destruct (matched_chain _ _ _ _ _ _ _ Hm) as (data&tag&Hs&_&_&Hp).
  exists data, tag. split.
  { eapply same_sensors_trans; [done|apply same_sensors_typeChecked]. }
  rewrite Hp. unfold afterMatchOn.
  rewrite (bind_normal _ _ _ _ _
             (checkSensorType_present _ _ _ _ _ _ Ht Hv)).
  by rewrite (bind_normal _ _ _ _ _ (resolveName_present _ _ _ _ _ Hn Hg)).
Qed.

Lemma parseBusAddr_invalid busStr addrStr st :
  Stoi.stoi busStr 10 = inl invalid_argument \/
  (exists bus, Stoi.stoi busStr 10 = inr bus /\
               Stoi.stoi addrStr 16 = inl invalid_argument) ->
  parseBusAddr busStr addrStr st = (Continue, st).
Proof.
  unfold parseBusAddr. intros [->|(bus&->&->)]; done.
Qed.

Lemma parseBusAddr_uncaught busStr addrStr st e :
  e <> invalid_argument ->
  Stoi.stoi busStr 10 = inl e \/
  (exists bus, Stoi.stoi busStr 10 = inr bus /\
               Stoi.stoi addrStr 16 = inl e) ->
  parseBusAddr busStr addrStr st = (Throw e, st).
Proof.
  unfold parseBusAddr. intros He [->|(bus&->&->)]; by destruct e.
Qed.

Lemma parseBusAddr_ok busStr addrStr st bus addr :
  Stoi.stoi busStr 10 = inr bus -> Stoi.stoi addrStr 16 = inr addr ->
  parseBusAddr busStr addrStr st
  = (Normal (Stoi.to_size_t bus, Stoi.to_size_t addr), st).
Proof. unfold parseBusAddr. by intros -> ->. Qed.

(** The loop over the paths after the body has run on the first one. *)
Lemma createSensors_cons configs path rest st c st' :
  processDevice configs path st = (c, st') ->
  c <> Break /\
  createSensors configs (path :: rest) st =
  match c with
  | Throw e => (Throw e, st')
  | _ => for_each rest (processDevice configs) st'
  end.
Proof.
  intros Hp. pose proof (processDevice_cases _ _ _ _ _ Hp) as [Hb _].
  split; [done|]. unfold createSensors. rewrite for_each_cons, Hp.
  by destruct c.
Qed.

End Device.

Section FlatSetFacts.

Lemma erase_first_ending_None name l :
  FlatSet.erase_first_ending name l = None <->
  forall x, x ∈ l -> Str.ends_with x name = false.
Proof.
  induction l as [|y l IH]; simpl.
  - split; [|done]. intros _ x Hx. by apply elem_of_nil in Hx.
  - destruct (Str.ends_with y name) eqn:Hy.
    + split; [done|]. intros Hall.
      rewrite (Hall y) in Hy; [done|left].
    + destruct (FlatSet.erase_first_ending name l) as [l'|]; simpl.
      * split; [done|]. intros Hall.
        assert (Some l' = None) as Hn; [|done].
        apply IH. intros x Hx. apply Hall. by right.
      * split; [|done]. intros _ x [->|Hx]%elem_of_cons; [done|].
        by apply IH.
Qed.

(** The element erased is the first one, in the order of the set, that
    ends with [name]; the others stay. *)
Lemma erase_first_ending_Some name l l' :
  FlatSet.erase_first_ending name l = Some l' ->
  exists l1 x l2,
    l = (l1 ++ x :: l2)%list /\ l' = (l1 ++ l2)%list /\
    Str.ends_with x name = true /\
    forall y, y ∈ l1 -> Str.ends_with y name = false.
Proof.
  revert l'. induction l as [|y l IH]; intros l'; simpl; [done|].
  destruct (Str.ends_with y name) eqn:Hy.
  - intros [= <-]. exists [], y, l. split_and!; auto.
    intros z Hz. by apply elem_of_nil in Hz.
  - destruct (FlatSet.erase_first_ending name l) as [l0|]; [|done].
    simpl. intros [= <-].
    destruct (IH _ eq_refl) as (l1&x&l2&->&->&Hx&Hl1).
    exists (y :: l1), x, l2. split_and!; auto.
    intros z [->|Hz]%elem_of_cons; auto.
Qed.

Lemma elem_of_insert x p (l : FlatSet.t) :
  x ∈ FlatSet.insert p l <-> x = p \/ x ∈ l.
Proof.
  induction l as [|y l IH]; simpl.
  - rewrite list_elem_of_singleton. split; [auto|].
    intros [?|Hx]; [done|]. by apply elem_of_nil in Hx.
  - destruct (String.eqb_spec p y) as [->|Hne].
    + rewrite elem_of_cons. tauto.
    + destruct (Str.lt p y).
      * by rewrite elem_of_cons.
      * rewrite !elem_of_cons, IH. tauto.
Qed.

End FlatSetFacts.

Section DebounceFacts.
Import Debounce.

Lemma last_nonempty_default {A} (y d d' : A) l :
  List.last (y :: l) d = List.last (y :: l) d'.
Proof.
  revert y. induction l as [|z l IH]; intros y; [done|].
  change (List.last (z :: l) d = List.last (z :: l) d'). apply IH.
Qed.

Lemma last_cons_default {A} (x d : A) l :
  List.last (x :: l) d = List.last l x.
Proof.
  destruct l as [|y l]; [done|].
  change (List.last (y :: l) d = List.last (y :: l) x).
  apply last_nonempty_default.
Qed.

(** A message that is no method error, delivered before the pending
    wait expires: the path is inserted, the wait is replaced by one that
    expires a full quiet period later, no rescan is made. *)
Lemma deliver_in_burst m t msg :
  is_method_error msg = false ->
  clock m <= t ->
  (forall e, expiry m = Some e -> t < e) ->
  deliver m (t, msg) =
  {| changedSet := FlatSet.insert (get_path msg) (changedSet m);
     expiry := Some (t + quiet); clock := t;
     rescans := rescans m; errlog := errlog m |}.
Proof.
  intros Herr Hclk Hexp.
  unfold deliver, idle_until, eventHandler, rearm. simpl. rewrite Herr.
  destruct (expiry m) as [e|] eqn:He.
  - specialize (Hexp e eq_refl).
    destruct (Z.leb_spec e t) as [?|_]; [lia|]. simpl.
    rewrite ?He. simpl. by rewrite Z.max_r.
  - simpl. rewrite ?He. simpl. by rewrite Z.max_r.
Qed.

Lemma run_burst rest :
  forall m t0,
    clock m = t0 -> expiry m = Some (t0 + quiet) ->
    burst_from t0 rest ->
    run rest m =
    {| changedSet := notified rest (changedSet m);
       expiry := Some (last_time t0 rest + quiet);
       clock := last_time t0 rest;
       rescans := rescans m; errlog := errlog m |}.
Proof.
  induction rest as [|[t msg] rest IH]; intros m t0 Hclk Hexp Hb.
  - destruct m. simpl in *. by subst.
  - destruct Hb as (Hlo&Hhi&Herr&Hb).
    unfold run. simpl. fold (run rest (deliver m (t, msg))).
    rewrite deliver_in_burst; [|done|lia|].
    2:{ intros e He. rewrite Hexp in He. injection He as <-. lia. }
    rewrite (IH _ t); [|done|done|done]. simpl.
    unfold last_time. simpl map. by rewrite last_cons_default.
Qed.

Lemma elem_of_notified msgs : forall s x,
  x ∈ notified msgs s <-> x ∈ s \/ exists tm, tm ∈ msgs /\ x = get_path tm.2.
Proof.
  induction msgs as [|tm msgs IH]; intros s x.
  - simpl. split; [auto|]. intros [?|(tm&Htm&_)]; [done|].
    by apply elem_of_nil in Htm.
  - simpl. rewrite IH, elem_of_insert. split.
    + intros [[->|?]|(tm'&?&?)]; auto.
      * right. exists tm. split; [left|done].
      * right. exists tm'. split; [by right|done].
    + intros [?|(tm'&[->|?]%elem_of_cons&->)]; auto.
      right. eauto.
Qed.

End DebounceFacts.

Section RoundingFacts.
Variables prec emax : Z.

Lemma iter_pos_invariant {A} (P : A -> Prop) (f : A -> A) :
  (forall x, P x -> P (f x)) ->
  forall n x, P x -> P (SpecFloat.iter_pos f n x).
Proof.
  intros Hf. induction n as [n IH|n IH|]; intros x Hx; simpl; auto.
Qed.

Lemma shr_1_nonneg mrs : 0 <= shr_m mrs -> 0 <= shr_m (shr_1 mrs).
Proof.
  destruct mrs as [m r s]. simpl.
  destruct m as [|[p|p|]|[p|p|]]; simpl; lia.
Qed.

Lemma shr_nonneg mrs e n :
  0 <= shr_m mrs -> 0 <= shr_m (shr mrs e n).1.
Proof.
  intros Hm. unfold shr. destruct n as [|p|p]; simpl; auto.
  apply (iter_pos_invariant (fun x => 0 <= shr_m x)); [|done].
  apply shr_1_nonneg.
Qed.

(** Rounding keeps the sign: the result is a zero, an infinity or a
    finite number of the sign given, and never a NaN. *)
Lemma binary_round_aux_sign sx mx ex lx :
  0 <= mx ->
  let r := binary_round_aux prec emax sx mx ex lx in
  r = S754_zero sx \/ r = S754_infinity sx \/
  exists m e, r = S754_finite sx m e.
Proof.
  intros Hmx r. subst r. unfold binary_round_aux, shr_fexp.
  destruct (shr (shr_record_of_loc mx lx) ex _) as [mrs' e'] eqn:H1.
  assert (Hm1 : 0 <= shr_m mrs').
  { change mrs' with (mrs', e').1. rewrite <- H1. apply shr_nonneg.
    by destruct lx as [|[]]. }
  set (m2 := round_nearest_even _ _).
  assert (Hm2 : 0 <= m2).
  { subst m2. unfold round_nearest_even.
    destruct (loc_of_shr_record mrs') as [|[]]; try done; [|lia].
    destruct (Z.even _); lia. }
  destruct (shr (shr_record_of_loc m2 loc_Exact) e' _)
    as [mrs'' e''] eqn:H2.
  assert (Hm3 : 0 <= shr_m mrs'').
  { change mrs'' with (mrs'', e'').1. rewrite <- H2. by apply shr_nonneg. }
  destruct (shr_m mrs'') as [|m|m]; [by left| |lia].
  destruct (e'' <=? emax - prec); eauto.
Qed.

Lemma binary_round_sign sx mx ex :
  let r := binary_round prec emax sx mx ex in
  r = S754_zero sx \/ r = S754_infinity sx \/
  exists m e, r = S754_finite sx m e.
Proof.
  unfold binary_round. destruct (shl_align mx ex _) as [mz ez].
  by apply binary_round_aux_sign.
Qed.

End RoundingFacts.

(** A [double] that is zero or negative is a [float] that is so, and a
    [double] above zero is the [float] zero or a [float] above zero. *)
Lemma of_double_at_most_zero d :
  Single.at_most_zero d = true ->
  Single.at_most_zero (Single.of_double d) = true.
Proof.
  destruct d as [s|s| |s m e]; try done.
  destruct s; [|done]. intros _. unfold Single.of_double.
  by destruct (binary_round_sign Single.prec Single.emax true m e)
    as [->|[->|(m'&e'&->)]].
Qed.

Lemma of_double_above_zero d :
  Single.above_zero d = true ->
  Single.of_double d = Single.zero \/
  (Single.above_zero (Single.of_double d) = true /\
   Single.at_most_zero (Single.of_double d) = false).
Proof.
  destruct d as [s|s| |s m e]; try done.
  - destruct s; [done|]. by right.
  - destruct s; [done|]. intros _. unfold Single.of_double.
    destruct (binary_round_sign Single.prec Single.emax false m e)
      as [->|[->|(m'&e'&->)]]; [by left|by right|by right].
Qed.

(** * The claims *)

Section Claims.
Context `{Collaborators}.

(** C1. For every discovered device, the record the Matcher selects is
    one record of the configuration which itself contains, under one of
    the supported type tags, a base-configuration map whose [Bus] and
    [Address] equal the identity resolved for the device; the map of the
    equality test, the map the later checks read and the one the sensor
    is constructed from are that map of that record, whose path is the
    one taken as the match. *)
Theorem matcher_selects_the_matching_record configs path st v p m st' :
  matched configs path st v p m st' ->
  exists bus addr i data tag cb ca,
    resolveIdentity (deviceName path) st = (Normal (bus, addr), st) /\
    configs !! i = Some (p, data) /\
    Some tag ∈ sensorTypes /\ data !! tag = Some m /\
    m !! "Bus" = Some cb /\ get_uint64 cb = Some bus /\
    m !! "Address" = Some ca /\ get_uint64 ca = Some addr /\
    sensorData v = Some data /\ sensorType v = Some tag /\
    baseConfiguration v = Some (tag, m) /\
    processDevice configs path st = afterMatchOn path m data tag p st'.
Proof.
  intros Hm.
  destruct (matched_taken _ _ _ _ _ _ _ Hm) as (bus&addr&i&data&Hid&Hi&Ht&_&Hp).
  destruct (afterMatch_taken _ _ _ path _ _ _ st' Ht)
    as (tag&m'&Hbm&Hbc&Hty&Hdt&Ha).
  destruct Hm as (_&_&_&_&_&Hbm').
  assert (m' = m) as -> by congruence.
  destruct Ht as (_&Hd&tag'&m'&cb&ca&Hin&_&Hty'&Hbc'&_&Hb&Hgb&Had&Hga).
  assert (tag' = tag) as -> by congruence.
  assert (m' = m) as -> by congruence.
  exists bus, addr, i, data, tag, cb, ca. split_and!; auto.
  rewrite Hp. exact Ha.
Qed.


(** C10. For every matched record whose base-configuration map has no
    [SensorType], the device is skipped with a message on [std::cerr]
    and no sensor is created or replaced for it, whatever else the map
    holds ([Bus], [Address] and [Name] may all be there). *)
Theorem missing_SensorType_skips_the_device configs path st v p m st' :
  matched configs path st v p m st' ->
  m !! "SensorType" = None ->
  exists st'',
    processDevice configs path st = (Continue, st'') /\
    cerr st'' = emit (cerr st') ("failed to find the sensor type for "
                                 +:+ deviceName path +:+ nl) /\
    sensors st'' = sensors st /\ allocated st'' = allocated st /\
    sensorsChanged st'' = sensorsChanged st.
Proof.
  intros Hm Ht.
  destruct (matched_chain _ _ _ _ _ _ _ Hm) as (data&tag&(Hs&Ha&Hc)&_&_&Hp).
  eexists. split.
  - rewrite Hp. unfold afterMatchOn.
    by rewrite (bind_continue _ _ _ _ (checkSensorType_absent _ _ _ _ Ht)).
  - by split_and!.
Qed.

(** C5. On a first scan ([sensorsChanged] is null) a matched device whose
    record gives the type, the name, the poll rate and the power state is
    constructed whatever the Sensor Table holds: the entry of its name is
    set to the sensor just made, a new object, also when the name was
    there before. *)
Theorem first_scan_constructs_unconditionally
    configs path st v p m st' tv declared nv sensorName pollRate readState :
  matched configs path st v p m st' ->
  sensorsChanged st = None ->
  m !! "SensorType" = Some tv ->
  VariantToStringVisitor tv = inr declared ->
  m !! "Name" = Some nv -> get_string nv = Some sensorName ->
  effectivePollRate m = inr pollRate ->
  configuredReadState m = inr readState ->
  exists st'' o,
    processDevice configs path st = (Normal tt, st'') /\
    sensors st'' = <[sensorName := ptr (allocated st) o]> (sensors st) /\
    allocated st'' = S (allocated st) /\
    sensorsChanged st'' = None /\
    name o = IIOSensor_name sensorName /\
    ctor_path o = pathStr path /\
    ctor_configurationPath o = p /\
    ctor_pollRate o = pollRate /\
    readStarted o = true.
Proof.
  intros Hm Hfirst Ht Hv Hn Hg Hp Hr.
  destruct (matched_named _ _ _ _ _ _ _ _ _ _ _ Hm Ht Hv Hn Hg)
    as (data&tag&(Hs&Ha&Hc)&Hpd).
  set (st1 := typeChecked st' _ declared) in *.
  assert (Hf1 : sensorsChanged st1 = None) by congruence.
  rewrite (bind_normal _ _ _ _ _ (reconcile_first_scan sensorName _ Hf1))
    in Hpd.
  destruct (construct_ok (pathStr path) sensorName
              (inferSensorTypeName (pathStr path)) data tag m p st1
              _ _ Hp Hr) as (st''&Hc''&Hs''&Ha''&Hch'').
  exists st'', (made (pathStr path) sensorName
                  (inferSensorTypeName (pathStr path)) tag p
                  (parseThresholdsFromConfig data).2 pollRate readState).
  split; [congruence|]. rewrite Hs'', Ha'', Hch'', Hs, Ha.
  by split_and!.
Qed.

(** Lines 201-211 in the construction: the sensor is made with the
    default when [PollRate] is absent, and otherwise with what the
    visitor gives, unless the test of line 205 holds of it. *)
Lemma construct_pollRate ps sensorName kind data tag m p st st' :
  construct ps sensorName kind data tag m p st = (Normal tt, st') ->
  exists o,
    sensors st' !! sensorName = Some (ptr (allocated st) o) /\
    pollRateDefault = float_lit (1 # 2)%Q /\
    (m !! "PollRate" = None -> ctor_pollRate o = pollRateDefault) /\
    (forall d, m !! "PollRate" = Some d ->
       exists r, VariantToFloatVisitor d = inr r /\
         ctor_pollRate o =
           if float_le r (float_lit 0) then pollRateDefault else r).
Proof.
  intros Hc. apply construct_spec in Hc as (pr&rs&Hp&_&Hs&_).
  eexists. split; [rewrite Hs; apply lookup_insert_eq|].
  split; [done|]. simpl. unfold effectivePollRate in Hp. split.
  - intros Hm. rewrite Hm in Hp. congruence.
  - intros d Hm. rewrite Hm in Hp.
    destruct (VariantToFloatVisitor d) as [e|r]; [done|].
    exists r. split; [done|]. congruence.
Qed.

(** C6. For a matched record whose declared [SensorType] (present in
    the base-configuration map) differs from the kind inferred from the
    path, a warning is written and the processing goes on: the rest of
    the body runs, and every sensor it constructs has the kind inferred
    from the path, not the declared one. *)
Theorem declared_type_mismatch_warns_and_path_wins
    configs path st v p m st' tv declared :
  matched configs path st v p m st' ->
  m !! "SensorType" = Some tv ->
  VariantToStringVisitor tv = inr declared ->
  declared <> inferSensorTypeName (pathStr path) ->
  let kind := inferSensorTypeName (pathStr path) in
  let warned :=
    logged st' ("config sensor type " +:+ declared
                +:+ " doesn't match sensor type " +:+ kind +:+ nl) in
  exists data tag,
    checkSensorType m (deviceName path) kind st' = (Normal tt, warned) /\
    processDevice configs path st =
    (sensorName <- resolveName m (deviceName path) ;;
     reconcile sensorName ;;
     construct (pathStr path) sensorName kind data tag m p)%body warned /\
    forall sensorName st1 st2,
      construct (pathStr path) sensorName kind data tag m p st1
        = (Normal tt, st2) ->
      exists o,
        sensors st2 !! sensorName = Some (ptr (allocated st1) o) /\
        ctor_sensorTypeName o = kind /\
        ctor_sensorTypeName o <> declared.
Proof.
  intros Hm Ht Hv Hne kind warned.
  destruct (matched_chain _ _ _ _ _ _ _ Hm) as (data&tag&_&_&_&Hp).
  assert (Hck : checkSensorType m (deviceName path) kind st'
                = (Normal tt, warned)).
  { rewrite (checkSensorType_present _ _ _ _ _ _ Ht Hv).
    unfold typeChecked. destruct (String.eqb_spec kind declared); [|done].
    by subst. }
  exists data, tag. split; [done|]. split.
  - rewrite Hp. unfold afterMatchOn. by rewrite (bind_normal _ _ _ _ _ Hck).
  - intros sn st1 st2 Hc. apply construct_spec in Hc as (pr&rs&_&_&Hs&_).
    eexists. split; [rewrite Hs; apply lookup_insert_eq|]. simpl.
    split; [done|]. intros Heq. apply Hne. by symmetry.
Qed.

(** C4. On an incremental rescan ([sensorsChanged] not null), for a
    matched device whose sensor name is in the Sensor Table: when some
    entry of the Changed-Path Set ends with the stored sensor's name,
    the first such entry is removed from the set, the slot of the table
    is cleared and a new object is constructed into it; when no entry
    ends with the name, the device is skipped and the slot holds the
    same object as before. *)
Theorem incremental_rescan_of_a_known_sensor
    configs path st v p m st' tv declared nv sensorName changed a obj :
  matched configs path st v p m st' ->
  sensorsChanged st = Some changed ->
  m !! "SensorType" = Some tv ->
  VariantToStringVisitor tv = inr declared ->
  m !! "Name" = Some nv -> get_string nv = Some sensorName ->
  sensors st !! sensorName = Some (ptr a obj) ->
  (a < allocated st)%nat ->
  let st1 := typeChecked st' (inferSensorTypeName (pathStr path)) declared in
  ((exists x, x ∈ changed /\ Str.ends_with x (name obj) = true) ->
   exists l1 x l2,
     changed = (l1 ++ x :: l2)%list /\
     Str.ends_with x (name obj) = true /\
     (forall y, y ∈ l1 -> Str.ends_with y (name obj) = false) /\
     reconcile sensorName st1 =
       (Normal tt,
        {| sensors := <[sensorName := nullptr]> (sensors st);
           allocated := allocated st;
           sensorsChanged := Some (l1 ++ l2)%list;
           cerr := cerr st1 |}) /\
     forall pollRate readState,
       effectivePollRate m = inr pollRate ->
       configuredReadState m = inr readState ->
       exists st'' o,
         processDevice configs path st = (Normal tt, st'') /\
         sensors st'' = <[sensorName := ptr (allocated st) o]> (sensors st) /\
         allocated st <> a /\
         allocated st'' = S (allocated st) /\
         sensorsChanged st'' = Some (l1 ++ l2)%list /\
         name o = IIOSensor_name sensorName /\
         ctor_path o = pathStr path /\
         ctor_configurationPath o = p) /\
  ((forall x, x ∈ changed -> Str.ends_with x (name obj) = false) ->
   exists st'',
     processDevice configs path st = (Continue, st'') /\
     sensors st'' = sensors st /\
     sensors st'' !! sensorName = Some (ptr a obj) /\
     allocated st'' = allocated st /\
     sensorsChanged st'' = Some changed).
Proof.
  intros Hm Hch Ht Hv Hn Hg Hslot Hlt st1.
  destruct (matched_named _ _ _ _ _ _ _ _ _ _ _ Hm Ht Hv Hn Hg)
    as (data&tag&(Hs&Ha&Hc)&Hpd).
  fold st1 in Hs, Ha, Hc, Hpd.
  assert (Hrec : reconcile sensorName st1 =
                 match FlatSet.erase_first_ending (name obj) changed with
                 | Some changed' =>
                     (Normal tt,
                      {| sensors := <[sensorName := nullptr]> (sensors st);
                         allocated := allocated st;
                         sensorsChanged := Some changed';
                         cerr := cerr st1 |})
                 | None => (Continue, st1)
                 end).
  { unfold reconcile. rewrite Hc, Hch, Hs, Hslot, Ha.
    by destruct (FlatSet.erase_first_ending (name obj) changed). }
  split.
  - intros (x&Hx&Hend).
    destruct (FlatSet.erase_first_ending (name obj) changed) as [l'|] eqn:He.
    2:{ pose proof (proj1 (erase_first_ending_None _ _) He) as Hno.
        rewrite (Hno x Hx) in Hend. done. }
    apply erase_first_ending_Some in He as (l1&y&l2&->&->&Hy&Hl1).
    exists l1, y, l2. split_and!; auto.
    intros pollRate readState Hp Hr.
    rewrite (bind_normal _ _ _ _ _ Hrec) in Hpd.
    destruct (construct_ok (pathStr path) sensorName
                (inferSensorTypeName (pathStr path)) data tag m p
                {| sensors := <[sensorName := nullptr]> (sensors st);
                   allocated := allocated st;
                   sensorsChanged := Some (l1 ++ l2)%list;
                   cerr := cerr st1 |}
                _ _ Hp Hr) as (st''&Hc''&Hs''&Ha''&Hch'').
    assert (Hfin : processDevice configs path st = (Normal tt, st''))
      by (etrans; [exact Hpd|exact Hc'']).
    simpl in Hs'', Ha'', Hch''.
    rewrite insert_insert_eq in Hs''.
    exists st'', (made (pathStr path) sensorName
                    (inferSensorTypeName (pathStr path)) tag p
                    (parseThresholdsFromConfig data).2 pollRate readState).
    split_and!; auto. lia.
  - intros Hall. apply (proj2 (erase_first_ending_None _ _)) in Hall.
    rewrite Hall in Hrec.
    rewrite (bind_continue _ _ _ _ Hrec) in Hpd.
    exists st1. split_and!; auto; congruence.
Qed.

(** C8. No sensor comes from a record that lacks [Bus], [Address] or
    [Name] in its base-configuration map: whenever the processing of a
    device changes the Sensor Table, the device is matched to a record
    whose map has all three (a record without [Bus] or [Address] is never
    the match); and a matched record without [Name] leaves the Sensor
    Table unchanged and, unless reading the declared type raises, ends in
    a skip of the device with a message on [std::cerr]. *)
Theorem records_lacking_fields_make_no_sensor :
  (forall configs path st c st',
     processDevice configs path st = (c, st') ->
     ~ same_sensors st st' ->
     exists v p m st2,
       matched configs path st v p m st2 /\
       is_Some (m !! "Bus") /\ is_Some (m !! "Address") /\
       is_Some (m !! "Name")) /\
  (forall configs path st v p m st2,
     matched configs path st v p m st2 ->
     m !! "Name" = None ->
     exists c st',
       processDevice configs path st = (c, st') /\
       same_sensors st st' /\
       ((c = Continue /\
         exists out,
           cerr st' = emit out ("could not determine configuration name for "
                                +:+ deviceName path +:+ nl) \/
           cerr st' = emit out ("failed to find the sensor type for "
                                +:+ deviceName path +:+ nl)) \/
        exists e tv,
          c = Throw e /\ m !! "SensorType" = Some tv /\
          VariantToStringVisitor tv = inl e)).
Proof.
  split.
  - intros configs path st c st' Hp Hns.
    apply processDevice_cases in Hp as [_ [[Hs _]|(v&p&m&st2&Hm&_&Hn)]];
      [done|].
    destruct (matched_chain _ _ _ _ _ _ _ Hm) as (_&_&_&Hb&Ha&_).
    by exists v, p, m, st2.
  - intros configs path st v p m st2 Hm Hn.
    destruct (matched_chain _ _ _ _ _ _ _ Hm) as (data&tag&Hs&_&_&Hp).
    rewrite Hp. unfold afterMatchOn.
    destruct (m !! "SensorType") as [tv|] eqn:Ht.
    + destruct (VariantToStringVisitor tv) as [e|declared] eqn:Hv.
      * rewrite (bind_throw _ _ _ _ _
                   (checkSensorType_throws _ _ _ _ _ _ Ht Hv)).
        eexists _, _. split; [done|]. split; [done|]. right. eauto.
      * rewrite (bind_normal _ _ _ _ _
                   (checkSensorType_present _ _ _ _ _ _ Ht Hv)).
        rewrite (bind_continue _ _ _ _ (resolveName_absent _ _ _ Hn)).
        eexists _, _. split; [done|]. split.
        { eapply same_sensors_trans; [done|].
          eapply same_sensors_trans;
            [apply same_sensors_typeChecked|apply same_sensors_logged]. }
        left. split; [done|]. eexists. by left.
    + rewrite (bind_continue _ _ _ _ (checkSensorType_absent _ _ _ _ Ht)).
      eexists _, _. split; [done|]. split.
      { eapply same_sensors_trans; [done|apply same_sensors_logged]. }
      left. split; [done|]. eexists. by right.
Qed.

(** C2, as the code has it. In one rescan pass a device that the body
    skips (by [continue]) or completes does not stop the pass: the
    remaining devices are processed from the state it leaves. Of the
    exceptions only [std::invalid_argument] raised while the bus and the
    address are parsed is caught, and skips the device. Nothing catches an
    exception raised behind the match (reading the declared type,
    extracting the name): it leaves the pass, and the remaining devices
    are not processed. *)
Theorem skips_go_on_and_exceptions_leave_the_pass
    configs path rest st c st' :
  processDevice configs path st = (c, st') ->
  c <> Break /\
  createSensors configs (path :: rest) st =
    match c with
    | Throw e => (Throw e, st')
    | _ => for_each rest (processDevice configs) st'
    end /\
  (forall i,
     Str.find_char "-" (deviceName path) = Some i ->
     let busStr := Str.substr_to i (deviceName path) in
     let addrStr := Str.substr_from (S i) (deviceName path) in
     Stoi.stoi busStr 10 = inl invalid_argument \/
     (exists bus, Stoi.stoi busStr 10 = inr bus /\
                  Stoi.stoi addrStr 16 = inl invalid_argument) ->
     c = Continue /\ st' = st) /\
  (forall v p m st2 tv,
     matched configs path st v p m st2 ->
     m !! "SensorType" = Some tv ->
     (forall e, VariantToStringVisitor tv = inl e ->
                c = Throw e /\ st' = st2) /\
     (forall declared nv,
        VariantToStringVisitor tv = inr declared ->
        m !! "Name" = Some nv -> get_string nv = None ->
        c = Throw bad_variant_access)).
Proof.
  intros Hp.
  destruct (createSensors_cons _ _ rest _ _ _ Hp) as [Hb Hc].
  split; [done|]. split; [done|]. split.
  - intros i Hi busStr addrStr Hinv.
    assert (Hr : resolveIdentity (deviceName path) st
                 = parseBusAddr busStr addrStr st)
      by (unfold resolveIdentity; by rewrite Hi).
    rewrite (parseBusAddr_invalid _ _ st Hinv) in Hr.
    unfold processDevice in Hp.
    rewrite (bind_continue _ _ _ _ Hr) in Hp. by injection Hp as <- <-.
  - intros v p m st2 tv Hm Ht.
    destruct (matched_chain _ _ _ _ _ _ _ Hm) as (data&tag&_&_&_&Hch).
    rewrite Hch in Hp. unfold afterMatchOn in Hp. split.
    + intros e Hv.
      rewrite (bind_throw _ _ _ _ _
                 (checkSensorType_throws _ _ _ _ _ _ Ht Hv)) in Hp.
      by injection Hp as <- <-.
    + intros declared nv Hv Hn Hg.
      rewrite (bind_normal _ _ _ _ _
                 (checkSensorType_present _ _ _ _ _ _ Ht Hv)) in Hp.
      assert (Hname : forall s0, resolveName m (deviceName path) s0
                                 = (Throw bad_variant_access, s0))
        by (intros s0; unfold resolveName; by rewrite Hn, Hg).
      rewrite (bind_throw _ _ _ _ _ (Hname _)) in Hp.
      by injection Hp as <- _.
Qed.

(** C3, as the code has it. The Device Identity Resolver cuts the name
    of the owning directory at its first hyphen and takes for the bus and
    the address the numbers that [std::stoi] reads at the head of the two
    parts, in base 10 and in base 16; what follows the number in a part
    is not looked at. A name without hyphen, or whose bus part has no
    number at its head, or whose bus part is read as an [int] and whose
    address part has no number at its head, gives no identity: the
    device is skipped, no sensor is created or changed, and the scan goes
    on with the next path. *)
Theorem unparsable_device_name_is_skipped :
  (forall configs path rest st,
     Str.find_char "-" (deviceName path) = None \/
     (exists i,
        Str.find_char "-" (deviceName path) = Some i /\
        (Stoi.stoi (Str.substr_to i (deviceName path)) 10
           = inl invalid_argument \/
         exists bus,
           Stoi.stoi (Str.substr_to i (deviceName path)) 10 = inr bus /\
           Stoi.stoi (Str.substr_from (S i) (deviceName path)) 16
             = inl invalid_argument)) ->
     exists st',
       processDevice configs path st = (Continue, st') /\
       sensors st' = sensors st /\ allocated st' = allocated st /\
       sensorsChanged st' = sensorsChanged st /\
       createSensors configs (path :: rest) st
         = for_each rest (processDevice configs) st') /\
  (forall dn st i bus addr,
     Str.find_char "-" dn = Some i ->
     Stoi.stoi (Str.substr_to i dn) 10 = inr bus ->
     Stoi.stoi (Str.substr_from (S i) dn) 16 = inr addr ->
     resolveIdentity dn st
       = (Normal (Stoi.to_size_t bus, Stoi.to_size_t addr), st)).
Proof.
  split.
  - intros configs path rest st Hbad.
    assert (Hr : exists st', resolveIdentity (deviceName path) st
                             = (Continue, st') /\ same_sensors st st').
    { unfold resolveIdentity. destruct Hbad as [->|(i&->&Hinv)].
      - eexists. split; [done|]. apply same_sensors_logged.
      - rewrite (parseBusAddr_invalid _ _ st Hinv). eexists.
        split; [done|]. apply same_sensors_refl. }
    destruct Hr as (st'&Hr&Hs&Ha&Hc).
    assert (Hp : processDevice configs path st = (Continue, st'))
      by (unfold processDevice; by rewrite (bind_continue _ _ _ _ Hr)).
    exists st'. split_and!; auto.
    by destruct (createSensors_cons _ _ rest _ _ _ Hp) as [_ ->].
  - intros dn st i bus addr Hi Hb Ha. unfold resolveIdentity.
    rewrite Hi. by apply parseBusAddr_ok.
Qed.

End Claims.

Section DebounceClaim.
Import Debounce.

(** C7. Every change notification (a message that is no method error)
    inserts its path into the Changed-Path Set and re-arms the one timer
    to a full quiet period from then; a rescan is made only when a wait
    expires without having been replaced. Hence a burst of notifications,
    each less than the quiet period after the one before, makes no
    rescan while it lasts and exactly one when the quiet period has
    passed after its last notification, and the set of that rescan is
    what the set held before together with all the notified paths. *)
Theorem burst_gives_one_rescan m t1 msg1 rest :
  clock m <= t1 ->
  (forall e, expiry m = Some e -> t1 < e) ->
  is_method_error msg1 = false ->
  burst_from t1 rest ->
  let msgs := (t1, msg1) :: rest in
  let m' := run msgs m in
  let tn := last_time t1 rest in
  (forall m0 msg,
     is_method_error msg = false ->
     changedSet (eventHandler msg m0)
       = FlatSet.insert (get_path msg) (changedSet m0) /\
     expiry (eventHandler msg m0) = Some (clock m0 + quiet) /\
     rescans (eventHandler msg m0) = rescans m0) /\
  (forall x, x ∈ changedSet m' <->
             x ∈ changedSet m \/ exists tm, tm ∈ msgs /\ x = get_path tm.2) /\
  expiry m' = Some (tn + quiet) /\
  rescans m' = rescans m /\
  (forall T, T < tn + quiet -> rescans (idle_until T m') = rescans m) /\
  (forall T, tn + quiet <= T ->
     rescans (idle_until T m') = app (rescans m) [changedSet m'] /\
     expiry (idle_until T m') = None /\
     changedSet (idle_until T m') = changedSet m').
Proof.
  intros Hclk Hexp Herr Hb msgs m' tn.
  assert (Hm' : m' =
    {| changedSet := notified msgs (changedSet m);
       expiry := Some (tn + quiet); clock := tn;
       rescans := rescans m; errlog := errlog m |}).
  { subst m' msgs. unfold run. simpl. fold (run rest (deliver m (t1, msg1))).
    rewrite (deliver_in_burst _ _ _ Herr Hclk Hexp).
    by rewrite (run_burst rest _ t1). }
  split.
  { intros m0 msg He. unfold eventHandler, rearm. rewrite He. simpl.
    by destruct (expiry m0). }
  rewrite Hm'. split; [intros x; apply (elem_of_notified msgs)|].
  split; [done|]. split; [done|]. split.
  - intros T HT. unfold idle_until. simpl.
    by destruct (Z.leb_spec (tn + quiet) T) as [?|_]; [lia|].
  - intros T HT. unfold idle_until. simpl.
    by destruct (Z.leb_spec (tn + quiet) T) as [_|?]; [|lia].
Qed.

End DebounceClaim.

(** * The claims on the sample configuration *)

Import Sample.

Lemma baro_matched path st :
  deviceName path = "7-0076" ->
  matched [humRecord; baroRecord] path st
    (takenLocals baroConfig DPS310 baroMap) baroConfig baroMap st.
Proof.
  intros Hdn. exists 7, 118. rewrite Hdn.
  split_and!; [done| |done|done].
  unfold findConfiguration. destruct st. reflexivity.
Defined.

Lemma matcher_selects_the_matching_record_witness :
  matched [humRecord; baroRecord] baroPath (st0 None)
    (takenLocals baroConfig DPS310 baroMap) baroConfig baroMap (st0 None) /\
  exists i data tag,
    [humRecord; baroRecord] !! i = Some (baroConfig, data) /\
    data !! tag = Some baroMap /\ Some tag ∈ sensorTypes.
Proof.
  split; [by apply baro_matched|].
  destruct (@matcher_selects_the_matching_record collaborators
              [humRecord; baroRecord] baroPath (st0 None)
              (takenLocals baroConfig DPS310 baroMap) baroConfig baroMap
              (st0 None) (baro_matched baroPath (st0 None) eq_refl))
    as (bus&addr&i&data&tag&cb&ca&_&Hi&Hin&Hd&_).
  by exists i, data, tag.
Defined.

Lemma missing_SensorType_skips_the_device_witness :
  untypedMap !! "SensorType" = None /\
  is_Some (untypedMap !! "Name") /\
  exists st'',
    processDevice [(baroConfig, {[ DPS310 := untypedMap ]})] baroPath
      (st0 (Some [])) = (Continue, st'') /\
    sensors st'' = ∅.
Proof.
  split; [done|]. split; [by eexists|].
  destruct (@missing_SensorType_skips_the_device collaborators
              [(baroConfig, {[ DPS310 := untypedMap ]})] baroPath
              (st0 (Some [])) (takenLocals baroConfig DPS310 untypedMap)
              baroConfig untypedMap (st0 (Some [])))
    as (st''&Hp&_&Hs&_).
  - exists 7, 118. split_and!; [done| |done|done]. reflexivity.
  - reflexivity.
  - by exists st''.
Defined.

Lemma first_scan_constructs_unconditionally_witness :
  is_Some (sensors (st1 None) !! "Baro") /\
  exists st'' o,
    processDevice [humRecord; baroRecord] baroPath (st1 None)
      = (Normal tt, st'') /\
    sensors st'' !! "Baro" = Some (ptr 1 o) /\
    ctor_path o = pathStr baroPath.
Proof.
  split; [by eexists|].
  destruct (@first_scan_constructs_unconditionally collaborators
              [humRecord; baroRecord] baroPath (st1 None)
              (takenLocals baroConfig DPS310 baroMap) baroConfig baroMap
              (st1 None) (VString "pressure") "pressure" (VString "Baro")
              "Baro" Single.half always)
    as (st''&o&Hp&Hs&_&_&_&Hpath&_); try reflexivity.
  - by apply baro_matched.
  - exists st'', o. split; [done|]. split; [|done].
    rewrite Hs. apply lookup_insert_eq.
Defined.

(** C9, as the code has it. The poll rate is held in a [float]. The
    sensor is constructed with the default 0.5 when [PollRate] is absent.
    When a floating point [PollRate] is declared, the sensor is
    constructed with the declared number converted to [float], unless
    that [float] is zero or negative, and then with the default. So a
    declared zero or negative number gives the default; a declared
    number above zero gives its [float], which is above zero, or the
    default when it is so small that its [float] is zero. *)
Theorem poll_rate_is_the_float_of_the_declared_value
    ps sensorName kind data tag (m : gmap string variant) p st st' :
  construct ps sensorName kind data tag m p st = (Normal tt, st') ->
  exists o,
    sensors st' !! sensorName = Some (ptr (allocated st) o) /\
    (m !! "PollRate" = None -> ctor_pollRate o = Single.half) /\
    (forall d, m !! "PollRate" = Some (VDouble d) ->
       ctor_pollRate o
       = (if Single.at_most_zero (Single.of_double d) then Single.half
          else Single.of_double d) /\
       (Single.at_most_zero d = true -> ctor_pollRate o = Single.half) /\
       (Single.above_zero d = true ->
        (Single.of_double d = Single.zero /\
         ctor_pollRate o = Single.half) \/
        (Single.above_zero (Single.of_double d) = true /\
         ctor_pollRate o = Single.of_double d))).
Proof.
  intros Hc.
  destruct (@construct_pollRate collaborators _ _ _ _ _ _ _ _ _ Hc)
    as (o&Ho&_&Hnone&Hsome).
  exists o. split; [exact Ho|]. split.
  - intros Hm. by rewrite (Hnone Hm).
  - intros d Hm. destruct (Hsome _ Hm) as (r&Hr&Hrate).
    injection Hr as <-.
    change (ctor_pollRate o
            = if Single.at_most_zero (Single.of_double d)
              then Single.half else Single.of_double d) in Hrate.
    split; [exact Hrate|]. split.
    + intros Hd. by rewrite Hrate, (of_double_at_most_zero d Hd).
    + intros [Hz|[Ha Hn]]%of_double_above_zero.
      * left. split; [done|]. by rewrite Hrate, Hz.
      * right. split; [done|]. by rewrite Hrate, Hn.
Qed.

Lemma poll_rate_is_the_float_of_the_declared_value_witness :
  humMap !! "PollRate" = Some (VDouble twoDouble) /\
  exists st' o,
    construct (pathStr humPath) "Hum" "humidity" humRecord.2 SI7020
      humMap humConfig (st0 None) = (Normal tt, st') /\
    sensors st' !! "Hum" = Some (ptr 0 o) /\
    ctor_pollRate o = twoFloat.
Proof.
  split; [reflexivity|].
  set (st' := (@construct collaborators (pathStr humPath) "Hum" "humidity"
                 humRecord.2 SI7020 humMap humConfig (st0 None)).2).
  assert (Hc : construct (pathStr humPath) "Hum" "humidity" humRecord.2
                 SI7020 humMap humConfig (st0 None) = (Normal tt, st'))
    by (reflexivity).
  destruct (poll_rate_is_the_float_of_the_declared_value _ _ _ _ _ _ _ _ _
              Hc) as (o&Ho&_&Hd).
  destruct (Hd twoDouble eq_refl) as (Hrate&_).
  exists st', o. split; [exact Hc|]. split; [exact Ho|].
  rewrite Hrate. vm_compute. reflexivity.
Defined.

(** C9 as the specification states it fails. The record declares the
    poll rate 1e-50, which is there and strictly greater than zero; as a
    [float] it is zero, so the sensor is constructed with the default
    0.5, which is greater than the declared number. *)
Lemma tiny_positive_poll_rate_gets_the_default :
  let m := <["PollRate" := VDouble tinyDouble]> humMap in
  m !! "PollRate" = Some (VDouble tinyDouble) /\
  Single.above_zero tinyDouble = true /\
  exists st' o q r,
    construct (pathStr humPath) "Hum" "humidity" humRecord.2 SI7020
      m humConfig (st0 None) = (Normal tt, st') /\
    sensors st' !! "Hum" = Some (ptr 0 o) /\
    ctor_pollRate o = Single.half /\
    Single.value tinyDouble = Some q /\
    Single.value (ctor_pollRate o) = Some r /\
    (0 < q)%Q /\ (q < r)%Q /\ (r == 1 # 2)%Q.
Proof.
  intros m. split; [reflexivity|]. split; [reflexivity|].
  eexists _, _, _, _. split; [reflexivity|].
  split; [reflexivity|]. split; [reflexivity|].
  split; [reflexivity|]. split; [reflexivity|].
  split_and!; vm_compute; reflexivity.
Qed.

(** The declared 0.1 is no [float]: the sensor is constructed with the
    [float] next to it. *)
Example tenth_is_rounded :
  Single.of_double tenthDouble = tenthFloat /\
  exists q r,
    Single.value tenthDouble = Some q /\
    Single.value tenthFloat = Some r /\ (q < r)%Q.
Proof.
  split; [vm_compute; reflexivity|].
  eexists _, _. split; [reflexivity|].
  split; [reflexivity|]. vm_compute. reflexivity.
Qed.

Lemma declared_type_mismatch_warns_and_path_wins_witness :
  inferSensorTypeName (pathStr baroTempPath) = "temperature" /\
  baroMap !! "SensorType" = Some (VString "pressure") /\
  exists st'' o,
    processDevice [humRecord; baroRecord] baroTempPath (st0 None)
      = (Normal tt, st'') /\
    sensors st'' !! "Baro" = Some (ptr 0 o) /\
    ctor_sensorTypeName o = "temperature" /\
    cerr st'' = ["config sensor type pressure doesn't match sensor type "
                 +:+ "temperature" +:+ nl].
Proof.
  split; [reflexivity|]. split; [reflexivity|].
  destruct (@declared_type_mismatch_warns_and_path_wins collaborators
              [humRecord; baroRecord] baroTempPath (st0 None)
              (takenLocals baroConfig DPS310 baroMap) baroConfig baroMap
              (st0 None) (VString "pressure") "pressure")
    as (data&tag&_&Hp&Hk); try reflexivity.
  - by apply baro_matched.
  - discriminate.
  - set (warned := logged (st0 None) _) in Hp.
    set (st2 := (@construct collaborators (pathStr baroTempPath) "Baro"
                   (inferSensorTypeName (pathStr baroTempPath)) data tag
                   baroMap baroConfig warned).2).
    assert (Hc : @construct collaborators (pathStr baroTempPath) "Baro"
                   (inferSensorTypeName (pathStr baroTempPath)) data tag
                   baroMap baroConfig warned = (Normal tt, st2))
      by (reflexivity).
    destruct (Hk "Baro" warned st2 Hc) as (o&Ho&Hty&_).
    exists st2, o. split_and!.
    + rewrite Hp. reflexivity.
    + exact Ho.
    + exact Hty.
    + reflexivity.
Defined.

Lemma incremental_rescan_of_a_known_sensor_witness :
  (exists st'' o,
     processDevice [humRecord; baroRecord] baroPath
       (st1 (Some ["/inv/Baro"; "/inv/Hum"])) = (Normal tt, st'') /\
     sensors st'' !! "Baro" = Some (ptr 1 o) /\
     sensorsChanged st'' = Some ["/inv/Hum"]) /\
  (exists st'',
     processDevice [humRecord; baroRecord] baroPath
       (st1 (Some ["/inv/Hum"])) = (Continue, st'') /\
     sensors st'' !! "Baro" = Some (ptr 0 baroSensor)).
Proof.
  split.
  - destruct (@incremental_rescan_of_a_known_sensor collaborators
                [humRecord; baroRecord] baroPath
                (st1 (Some ["/inv/Baro"; "/inv/Hum"]))
                (takenLocals baroConfig DPS310 baroMap) baroConfig baroMap
                (st1 (Some ["/inv/Baro"; "/inv/Hum"]))
                (VString "pressure") "pressure" (VString "Baro") "Baro"
                ["/inv/Baro"; "/inv/Hum"] 0%nat baroSensor)
      as [Hfound _]; try reflexivity.
    + by apply baro_matched.
    + simpl. lia.
    + destruct Hfound as (l1&x&l2&Hsplit&Hx&Hl1&_&Hmake).
      { exists "/inv/Baro". split; [left|reflexivity]. }
      destruct (Hmake Single.half always eq_refl eq_refl)
        as (st''&o&Hp&Hs&_&_&Hch&_).
      assert (l1 = []) as ->.
      { destruct l1 as [|y l1]; [done|]. injection Hsplit as <- _.
        assert (Hy : Str.ends_with "/inv/Baro" (name baroSensor) = false)
          by (apply Hl1; left).
        discriminate Hy. }
      injection Hsplit as <- <-.
      exists st'', o. split; [done|]. split; [|done].
      rewrite Hs. apply lookup_insert_eq.
  - destruct (@incremental_rescan_of_a_known_sensor collaborators
                [humRecord; baroRecord] baroPath (st1 (Some ["/inv/Hum"]))
                (takenLocals baroConfig DPS310 baroMap) baroConfig baroMap
                (st1 (Some ["/inv/Hum"]))
                (VString "pressure") "pressure" (VString "Baro") "Baro"
                ["/inv/Hum"] 0%nat baroSensor)
      as [_ Hskip]; try reflexivity.
    + by apply baro_matched.
    + simpl. lia.
    + destruct Hskip as (st''&Hp&_&Hslot&_).
      { intros x [->|Hx%elem_of_nil]%elem_of_cons; [reflexivity|done]. }
      by exists st''.
Defined.

Lemma records_lacking_fields_make_no_sensor_witness :
  unnamedMap !! "Name" = None /\
  exists c st',
    processDevice [(baroConfig, {[ DPS310 := unnamedMap ]})] baroPath
      (st0 None) = (c, st') /\
    sensors st' = ∅ /\ c = Continue.
Proof.
  split; [reflexivity|].
  destruct (proj2 (@records_lacking_fields_make_no_sensor collaborators)
              [(baroConfig, {[ DPS310 := unnamedMap ]})] baroPath (st0 None)
              (takenLocals baroConfig DPS310 unnamedMap) baroConfig
              unnamedMap (st0 None))
    as (c&st'&Hp&(Hs&_)&Hc).
  - exists 7, 118. split_and!; [done| |done|done]. reflexivity.
  - reflexivity.
  - exists c, st'. split; [done|]. split; [done|].
    destruct Hc as [[-> _]|(e&tv&_&Htv&Hv)]; [done|].
    injection Htv as <-. discriminate.
Defined.

Lemma skips_go_on_and_exceptions_leave_the_pass_witness :
  processDevice [(baroConfig, {[ DPS310 := numberedMap ]})] baroPath
    (st0 None) = (Throw bad_variant_access, st0 None) /\
  createSensors [(baroConfig, {[ DPS310 := numberedMap ]})]
    [baroPath; humPath] (st0 None) = (Throw bad_variant_access, st0 None).
Proof.
  assert (Hp : processDevice [(baroConfig, {[ DPS310 := numberedMap ]})]
                 baroPath (st0 None) = (Throw bad_variant_access, st0 None))
    by (reflexivity).
  split; [exact Hp|].
  destruct (@skips_go_on_and_exceptions_leave_the_pass collaborators
              [(baroConfig, {[ DPS310 := numberedMap ]})] baroPath [humPath]
              (st0 None) _ _ Hp)
    as (_&Hc&_).
  exact Hc.
Defined.

Lemma unparsable_device_name_is_skipped_witness :
  Str.find_char "-" (deviceName noNumber) = Some 3%nat /\
  Stoi.stoi "iio" 10 = inl invalid_argument /\
  exists st',
    processDevice [baroRecord] noNumber (st0 None) = (Continue, st') /\
    sensors st' = ∅ /\
    createSensors [baroRecord] [noNumber; baroPath] (st0 None)
      = for_each [baroPath] (processDevice [baroRecord]) st'.
Proof.
  split; [reflexivity|]. split; [reflexivity|].
  destruct (proj1 (@unparsable_device_name_is_skipped collaborators)
              [baroRecord] noNumber [baroPath] (st0 None))
    as (st'&Hp&Hs&_&_&Hc).
  - right. exists 3%nat. split; [reflexivity|]. left. reflexivity.
  - by exists st'.
Defined.

Lemma burst_gives_one_rescan_witness :
  Debounce.rescans
    (Debounce.idle_until 1800000
       (Debounce.run ((0, notification "/inv/A") :: laterFour) idle))
  = [["/inv/A"; "/inv/B"; "/inv/C"]] /\
  Debounce.rescans
    (Debounce.idle_until 1799999
       (Debounce.run ((0, notification "/inv/A") :: laterFour) idle))
  = [].
Proof.
  destruct (burst_gives_one_rescan idle 0 (notification "/inv/A") laterFour)
    as (_&_&_&_&Hearly&Hlate).
  - simpl. lia.
  - intros e He. discriminate He.
  - reflexivity.
  - simpl. unfold Debounce.quiet. repeat split; try reflexivity; lia.
  - split.
    + destruct (Hlate 1800000) as (Hr&_).
      { unfold Debounce.last_time, Debounce.quiet. simpl. lia. }
      exact Hr.
    + apply Hearly. unfold Debounce.last_time, Debounce.quiet. simpl. lia.
Defined.

(** C2 as the specification states it fails. The second record holds a
    string where [std::get<uint64_t>] expects the bus:
    [std::bad_variant_access] is raised for the first device, nothing
    catches it, and the second device, which alone yields a sensor, is
    never processed. The same happens when parsing an address raises
    [std::out_of_range]. *)
Lemma uncaught_exception_ends_the_pass :
  createSensors [humRecord; (baroConfig, {[ DPS310 := quotedBusMap ]})]
    [baroPath; humPath] (st0 None)
    = (Throw bad_variant_access, st0 None) /\
  (exists st',
     createSensors [humRecord; (baroConfig, {[ DPS310 := quotedBusMap ]})]
       [humPath] (st0 None) = (Normal tt, st') /\
     is_Some (sensors st' !! "Hum")) /\
  createSensors [baroRecord] [wideAddress; baroPath] (st0 None)
    = (Throw out_of_range, st0 None) /\
  exists st',
    createSensors [baroRecord] [baroPath] (st0 None) = (Normal tt, st') /\
    is_Some (sensors st' !! "Baro").
Proof.
  split; [reflexivity|]. split.
  { eexists. split; [reflexivity|]. by eexists. }
  split; [reflexivity|].
  eexists. split; [reflexivity|].
  by eexists.
Qed.

(** C3 as the specification states it fails: a name with two hyphens is
    given the identity (7, 0x76), and a sensor is made for it. *)
Lemma name_with_two_hyphens_is_accepted :
  Str.count_char "-" (deviceName twoHyphens) = 2%nat /\
  resolveIdentity (deviceName twoHyphens) (st0 None)
    = (Normal (7, 118), st0 None) /\
  exists st',
    processDevice [baroRecord] twoHyphens (st0 None) = (Normal tt, st') /\
    is_Some (sensors st' !! "Baro").
Proof.
  split; [reflexivity|]. split; [reflexivity|].
  eexists. split; [reflexivity|].
  by eexists.
Qed.

(** The bus is parsed before the address: a bus part that is a number
    outside [int] raises [std::out_of_range], which nothing catches,
    also when the address part has no number at its head. *)
Example bus_outside_int_leaves_the_pass :
  Stoi.stoi "99999999999" 10 = inl out_of_range /\
  Stoi.stoi "zz" 16 = inl invalid_argument /\
  processDevice [baroRecord]
    {| pathStr := "/sys/bus/iio/devices/iio:device5/in_temp_input";
       deviceName := "99999999999-zz" |} (st0 None)
  = (Throw out_of_range, st0 None).
Proof. split_and!; reflexivity. Qed.

(** An incremental rescan with the set holding the path of one of two known
    sensors: that sensor is made anew, the other one is the same object as
    before, and the set is left empty. *)
Example rescan_touches_only_the_signalled_sensor :
  exists st' o,
    createSensors [humRecord; baroRecord] [baroPath; humPath]
      (st2 ["/inv/Baro"]) = (Normal tt, st') /\
    sensors st' !! "Baro" = Some (ptr 2 o) /\
    sensors st' !! "Hum" = Some (ptr 1 humSensor) /\
    sensorsChanged st' = Some [].
Proof.
  eexists _, _. split; [reflexivity|].
  split_and!; reflexivity.
Qed.

(** * Further properties of the pass *)

Section PassFacts.
Context `{Collaborators}.

Lemma reconcile_spec sensorName st c st' :
  reconcile sensorName st = (c, st') ->
  (c = Normal tt /\ st' = st /\
   (sensorsChanged st = None \/ sensors st !! sensorName = None)) \/
  (c = Normal tt /\
   exists a o l1 x l2,
     sensorsChanged st = Some (l1 ++ x :: l2)%list /\
     sensors st !! sensorName = Some (ptr a o) /\
     Str.ends_with x (name o) = true /\
     (forall y, y ∈ l1 -> Str.ends_with y (name o) = false) /\
     st' = {| sensors := <[sensorName := nullptr]> (sensors st);
              allocated := allocated st;
              sensorsChanged := Some (l1 ++ l2)%list;
              cerr := cerr st |}) \/
  ((c = Continue \/ c = Throw null_dereference) /\ st' = st /\
   is_Some (sensorsChanged st) /\ is_Some (sensors st !! sensorName)).
Proof.
  unfold reconcile.
  destruct (sensorsChanged st) as [changed|] eqn:Hch;
    [|intros [= <- <-]; left; auto].
  destruct (sensors st !! sensorName) as [slot|] eqn:Hs;
    [|intros [= <- <-]; left; auto].
  destruct slot as [|a o].
  - destruct changed; intros [= <- <-]; right; right; eauto.
  - destruct (FlatSet.erase_first_ending (name o) changed) as [l'|] eqn:He.
    + intros [= <- <-]. right. left. split; [done|].
      apply erase_first_ending_Some in He as (l1&x&l2&->&->&Hx&Hl1).
      by exists a, o, l1, x, l2.
    + intros [= <- <-]. right. right. eauto.
Qed.

Lemma effect_same_l c st0 st st' :
  same_sensors st0 st -> effect c st st' -> effect c st0 st'.
Proof.
  intros (Hs&Ha&Hc) He. destruct He as [c st st' Hsame Hb| | |].
  - apply effect_none; [|done]. eapply same_sensors_trans; [|done].
    by split_and!.
  - rewrite Hs, ?Ha, Hc in *. by eapply effect_cleared.
  - rewrite Hs, ?Ha, Hc in *. by eapply effect_rebuilt.
  - rewrite Hs, ?Ha, Hc in *. by eapply effect_new.
Qed.

Lemma afterMatchOn_effect path m data tag p st c st' :
  afterMatchOn path m data tag p st = (c, st') -> effect c st st'.
Proof.
  unfold afterMatchOn, bind.
  destruct (checkSensorType _ _ _ st) as [c1 st1] eqn:H1.
  pose proof (checkSensorType_same _ _ _ _ _ _ H1) as [Hs1 Hb1].
  destruct c1 as [[]| | |e]; try done;
    try (intros [= <- <-]; by apply effect_none).
  destruct (resolveName _ _ st1) as [c2 st2] eqn:H2.
  pose proof (resolveName_same _ _ _ _ _ H2) as (Hs2&Hb2&_).
  pose proof (same_sensors_trans _ _ _ Hs1 Hs2) as Hs12.
  destruct c2 as [sn| | |e]; try done;
    try (intros [= <- <-]; by apply effect_none).
  destruct (reconcile sn st2) as [c3 st3] eqn:H3.
  intros Hc. apply (effect_same_l _ _ _ _ Hs12).
  apply reconcile_spec in H3
    as [(->&->&Hnew)|[(->&a&o&l1&x&l2&Hch&Hslot&Hx&Hl1&->)|([->| ->]&->&_)]].
  - pose proof (construct_spec _ _ _ _ _ _ _ _ _ _ Hc) as Hcs.
    destruct c as [[]| | |e]; try done.
    + destruct Hcs as (pr&rs&_&_&Hs&Ha&Hch).
      eapply effect_new; eauto.
    + destruct Hcs as [Hs _]. by apply effect_none.
  - pose proof (construct_spec _ _ _ _ _ _ _ _ _ _ Hc) as Hcs.
    destruct c as [[]| | |e]; try done.
    + destruct Hcs as (pr&rs&_&_&Hs&Ha&Hch'). simpl in *.
      rewrite insert_insert_eq in Hs.
      eapply effect_rebuilt; eauto.
    + destruct Hcs as [(Hs&Ha&Hch') _]. simpl in *.
      eapply effect_cleared; eauto.
  - injection Hc as <- <-. by apply effect_none.
  - injection Hc as <- <-. by apply effect_none.
Qed.

(** The body of the loop over the paths has one of the four effects. *)
Lemma processDevice_effect configs path st c st' :
  processDevice configs path st = (c, st') -> effect c st st'.
Proof.
  intros Hp.
  destruct (processDevice_cases _ _ _ _ _ Hp)
    as [Hb [[Hs _]|(v&p&m&st2&Hm&_)]]; [by apply effect_none|].
  destruct (matched_chain _ _ _ _ _ _ _ Hm) as (data&tag&Hs&_&_&Hch).
  rewrite Hch in Hp. apply (effect_same_l _ _ _ _ Hs).
  by eapply afterMatchOn_effect.
Qed.

(** A relation that is transitive and holds along every effect of the
    body holds between the states before and after a pass. *)
Lemma createSensors_ind (R : State -> State -> Prop) :
  (forall a b c, R a b -> R b c -> R a c) ->
  (forall c st st', effect c st st' -> R st st') ->
  forall configs paths st c st',
    createSensors configs paths st = (c, st') -> R st st'.
Proof.
  intros Htrans Hstep configs paths st c st'.
  assert (Hrefl : forall s, R s s).
  { intros s. apply (Hstep Continue), effect_none; [|done].
    apply same_sensors_refl. }
  assert (Hloop : forall l s c' s',
            for_each l (processDevice configs) s = (c', s') -> R s s').
  { induction l as [|path l IH]; intros s c' s'.
    - rewrite for_each_nil. intros [= _ <-]. apply Hrefl.
    - rewrite for_each_cons.
      destruct (processDevice configs path s) as [c1 s1] eqn:Hp.
      pose proof (Hstep _ _ _ (processDevice_effect _ _ _ _ _ Hp)) as H1.
      destruct c1 as [[]| | |e].
      + intros Hl. eapply Htrans; eauto.
      + intros Hl. eapply Htrans; eauto.
      + by intros [= _ <-].
      + by intros [= _ <-]. }
  unfold createSensors. destruct paths as [|path paths].
  - intros [= _ <-]. apply (Hstep Continue), effect_none; [|done].
    apply same_sensors_logged.
  - apply Hloop.
Qed.

(** The same for a pass that no exception leaves: only the effects of
    bodies that end without exception are met. *)
Lemma createSensors_ind_normal (R : State -> State -> Prop) :
  (forall a b c, R a b -> R b c -> R a c) ->
  (forall c st st',
     (forall e, c <> Throw e) -> effect c st st' -> R st st') ->
  forall configs paths st st',
    createSensors configs paths st = (Normal tt, st') -> R st st'.
Proof.
  intros Htrans Hstep configs paths st st'.
  assert (Hrefl : forall s, R s s).
  { intros s. apply (Hstep Continue); [done|]. apply effect_none; [|done].
    apply same_sensors_refl. }
  assert (Hloop : forall l s s',
            for_each l (processDevice configs) s = (Normal tt, s') -> R s s').
  { induction l as [|path l IH]; intros s s'.
    - rewrite for_each_nil. intros [= <-]. apply Hrefl.
    - rewrite for_each_cons.
      destruct (processDevice configs path s) as [c1 s1] eqn:Hp.
      pose proof (processDevice_effect _ _ _ _ _ Hp) as H1.
      destruct (processDevice_cases _ _ _ _ _ Hp) as [Hb _].
      destruct c1 as [[]| | |e]; try done.
      + intros Hl. eapply Htrans; [apply (Hstep (Normal tt)); eauto|eauto].
      + intros Hl. eapply Htrans; [apply (Hstep Continue); eauto|eauto]. }
  unfold createSensors. destruct paths as [|path paths].
  - intros [= <-]. apply (Hstep Continue); [done|].
    apply effect_none; [|done]. apply same_sensors_logged.
  - apply Hloop.
Qed.

End PassFacts.

Section PassProperties.
Context `{Collaborators}.

(** X1. A pass never removes a name from the Sensor Table, never gives
    back an address, and only takes entries out of the Changed-Path Set:
    after a first scan the set is still absent, after an incremental scan
    it is a sublist of what it was. This holds however the pass ends. *)
Theorem pass_keeps_names_and_shrinks_the_set configs paths st c st' :
  createSensors configs paths st = (c, st') ->
  (forall n, is_Some (sensors st !! n) -> is_Some (sensors st' !! n)) /\
  (allocated st <= allocated st')%nat /\
  (sensorsChanged st = None -> sensorsChanged st' = None) /\
  (forall l, sensorsChanged st = Some l ->
     exists l', sensorsChanged st' = Some l' /\ l' `sublist_of` l).
Proof.
  revert configs paths st c st'.
  apply (createSensors_ind (fun st st' =>
    (forall n, is_Some (sensors st !! n) -> is_Some (sensors st' !! n)) /\
    (allocated st <= allocated st')%nat /\
    (sensorsChanged st = None -> sensorsChanged st' = None) /\
    (forall l, sensorsChanged st = Some l ->
       exists l', sensorsChanged st' = Some l' /\ l' `sublist_of` l))).
  - intros a b c (Hn1&Ha1&Hf1&Hs1) (Hn2&Ha2&Hf2&Hs2). split_and!; auto; [lia|].
    intros l Hl. destruct (Hs1 l Hl) as (l1&Hl1&Hsub1).
    destruct (Hs2 l1 Hl1) as (l2&Hl2&Hsub2).
    exists l2. split; [done|]. by etrans.
  - intros c st st' He.
    assert (Hins : forall sn slot,
              sensors st' = <[sn := slot]> (sensors st) ->
              forall n, is_Some (sensors st !! n) ->
                        is_Some (sensors st' !! n)).
    { intros sn slot -> n Hn. destruct (decide (sn = n)) as [->|Hne].
      - rewrite lookup_insert_eq. eauto.
      - by rewrite lookup_insert_ne. }
    destruct He as [c st st' (Hs&Ha&Hc) _
                   |e st st' sn a o l1 x l2 Hch _ _ _ Hs Ha Hc
                   |st st' sn a o l1 x l2 o' Hch _ _ _ Hs Ha Hc _ _
                   |st st' sn o' _ Hs Ha Hc _ _].
    + rewrite Hs, Ha, Hc. split_and!; auto. intros l Hl. by exists l.
    + split_and!; eauto; [lia|congruence|].
      intros l Hl. exists (l1 ++ l2)%list. split; [done|].
      assert (l = (l1 ++ x :: l2)%list) as -> by congruence.
      apply sublist_app; [done|]. by apply sublist_cons.
    + split_and!; eauto; [lia|congruence|].
      intros l Hl. exists (l1 ++ l2)%list. split; [done|].
      assert (l = (l1 ++ x :: l2)%list) as -> by congruence.
      apply sublist_app; [done|]. by apply sublist_cons.
    + split_and!; eauto; [lia|congruence|].
      intros l Hl. exists l. split; [congruence|done].
Qed.

(** X2. On an incremental scan a sensor whose stored name ends no entry
    of the Changed-Path Set is, after the pass, the same object in the
    same slot, whatever the pass does to other sensors and however it
    ends. In particular a pass with an empty set changes no slot that
    holds an object. *)
Theorem pass_spares_the_sensors_not_signalled
    configs paths st c st' changed n a o :
  createSensors configs paths st = (c, st') ->
  sensorsChanged st = Some changed ->
  sensors st !! n = Some (ptr a o) ->
  (forall x, x ∈ changed -> Str.ends_with x (name o) = false) ->
  sensors st' !! n = Some (ptr a o).
Proof.
  intros Hpass Hch Hslot Hno.
  assert (HR : forall changed0, sensorsChanged st = Some changed0 ->
             exists changed', sensorsChanged st' = Some changed' /\
               changed' ⊆ changed0 /\
               forall n a o, sensors st !! n = Some (ptr a o) ->
                 (forall x, x ∈ changed0 ->
                            Str.ends_with x (name o) = false) ->
                 sensors st' !! n = Some (ptr a o)).
  { clear Hch Hslot Hno. revert configs paths st c st' Hpass.
    apply (createSensors_ind (fun st st' =>
      forall changed0, sensorsChanged st = Some changed0 ->
        exists changed', sensorsChanged st' = Some changed' /\
          changed' ⊆ changed0 /\
          forall n a o, sensors st !! n = Some (ptr a o) ->
            (forall x, x ∈ changed0 -> Str.ends_with x (name o) = false) ->
            sensors st' !! n = Some (ptr a o))).
    - intros s1 s2 s3 H12 H23 l Hl.
      destruct (H12 l Hl) as (l1&Hl1&Hsub1&Hk1).
      destruct (H23 l1 Hl1) as (l2&Hl2&Hsub2&Hk2).
      exists l2. split; [done|]. split; [by etrans|].
      intros n0 a0 o0 Hs0 Hno0. apply Hk2; [by apply Hk1|].
      intros x Hx. apply Hno0. by apply Hsub1.
    - intros c0 s s' He l Hl.
      destruct He as [c0 s s' (Hs&Ha&Hc) _
                     |e s s' sn a0 o0 l1 x l2 Hch0 Hsl Hx _ Hs Ha Hc
                     |s s' sn a0 o0 l1 x l2 o' Hch0 Hsl Hx _ Hs Ha Hc _ _
                     |s s' sn o' Hnew Hs Ha Hc _ _].
      + exists l. rewrite Hs, Hc. by split_and!.
      + assert (l = (l1 ++ x :: l2)%list) as -> by congruence.
        exists (l1 ++ l2)%list. split; [done|]. split.
        { intros y. rewrite !elem_of_app, elem_of_cons. tauto. }
        intros n0 a1 o1 Hs1 Hno1. rewrite Hs.
        destruct (decide (sn = n0)) as [->|Hne];
          [|by rewrite lookup_insert_ne].
        rewrite Hsl in Hs1. injection Hs1 as <- <-.
        rewrite Hno1 in Hx; [done|].
        rewrite elem_of_app, elem_of_cons. auto.
      + assert (l = (l1 ++ x :: l2)%list) as -> by congruence.
        exists (l1 ++ l2)%list. split; [done|]. split.
        { intros y. rewrite !elem_of_app, elem_of_cons. tauto. }
        intros n0 a1 o1 Hs1 Hno1. rewrite Hs.
        destruct (decide (sn = n0)) as [->|Hne];
          [|by rewrite lookup_insert_ne].
        rewrite Hsl in Hs1. injection Hs1 as <- <-.
        rewrite Hno1 in Hx; [done|].
        rewrite elem_of_app, elem_of_cons. auto.
      + exists l. split; [congruence|]. split; [done|].
        intros n0 a1 o1 Hs1 _. rewrite Hs.
        destruct (decide (sn = n0)) as [->|Hne];
          [|by rewrite lookup_insert_ne].
        destruct Hnew as [Hnone|Hnone]; congruence. }
  destruct (HR changed Hch) as (_&_&_&Hkeep). by apply Hkeep.
Qed.

(** X3. A pass keeps the objects of the table apart: when every object
    in the table has an address already handed out and no object sits in
    two slots, the same holds after the pass, however it ends. Every
    sensor the pass installs is therefore a new object, distinct from all
    the others in the table. *)
Theorem pass_keeps_objects_allocated_and_unshared configs paths st c st' :
  createSensors configs paths st = (c, st') ->
  addresses_allocated st /\ objects_unshared st ->
  addresses_allocated st' /\ objects_unshared st'.
Proof.
  revert configs paths st c st'.
  apply (createSensors_ind (fun st st' =>
    addresses_allocated st /\ objects_unshared st ->
    addresses_allocated st' /\ objects_unshared st')); [by auto|].
  intros c st st' He [Hal Hun].
  assert (Hfresh : forall sn o',
            sensors st' = <[sn := ptr (allocated st) o']> (sensors st) ->
            allocated st' = S (allocated st) ->
            addresses_allocated st' /\ objects_unshared st').
  { intros sn o' Hs Ha. split.
    - intros n a o. rewrite Hs, Ha.
      destruct (decide (sn = n)) as [->|Hne].
      + rewrite lookup_insert_eq. intros [= <- _]. lia.
      + rewrite lookup_insert_ne by done. intros Hn.
        specialize (Hal _ _ _ Hn). lia.
    - intros n1 n2 a o1 o2. rewrite Hs.
      destruct (decide (sn = n1)) as [He1|Hne1],
               (decide (sn = n2)) as [He2|Hne2]; [congruence| | |].
      + subst n1. rewrite lookup_insert_eq, lookup_insert_ne by done.
        intros [= <- _] Hn. specialize (Hal _ _ _ Hn). lia.
      + subst n2. rewrite lookup_insert_eq, lookup_insert_ne by done.
        intros Hn [= <- _]. specialize (Hal _ _ _ Hn). lia.
      + rewrite !lookup_insert_ne by done. apply Hun. }
  destruct He as [c st st' (Hs&Ha&Hc) _
                 |e st st' sn a o l1 x l2 _ _ _ _ Hs Ha _
                 |st st' sn a o l1 x l2 o' _ _ _ _ Hs Ha _ _ _
                 |st st' sn o' _ Hs Ha _ _ _]; eauto.
  - split.
    + intros n a o. rewrite Hs, Ha. apply Hal.
    + intros n1 n2 a o1 o2. rewrite Hs. apply Hun.
  - split.
    + intros n a0 o0. rewrite Hs, Ha.
      destruct (decide (sn = n)) as [->|Hne].
      * by rewrite lookup_insert_eq.
      * rewrite lookup_insert_ne by done. apply Hal.
    + intros n1 n2 a0 o1 o2. rewrite Hs.
      destruct (decide (sn = n1)) as [->|Hne1];
        [by rewrite lookup_insert_eq|].
      destruct (decide (sn = n2)) as [->|Hne2];
        [by rewrite (lookup_insert_eq _ n2)|].
      rewrite !lookup_insert_ne by done. apply Hun.
Qed.

(** X4. A pass keeps every object under the name it was constructed
    with: when each object of the table has its slot's key as constructor
    name and the stored [name] derived from it, so it is after the pass,
    however it ends. *)
Theorem pass_keeps_slots_named configs paths st c st' :
  createSensors configs paths st = (c, st') ->
  slots_named st -> slots_named st'.
Proof.
  revert configs paths st c st'.
  apply (createSensors_ind (fun st st' => slots_named st -> slots_named st'));
    [by auto|].
  intros c st st' He Hn.
  assert (Hins : forall sn o',
            sensors st' = <[sn := ptr (allocated st) o']> (sensors st) ->
            ctor_sensorName o' = sn -> name o' = IIOSensor_name sn ->
            slots_named st').
  { intros sn o' Hs Hcn Hnm n a o. rewrite Hs.
    destruct (decide (sn = n)) as [->|Hne].
    - rewrite lookup_insert_eq. by intros [= _ <-].
    - rewrite lookup_insert_ne by done. apply Hn. }
  destruct He as [c st st' (Hs&Ha&Hc) _
                 |e st st' sn a o l1 x l2 _ _ _ _ Hs Ha _
                 |st st' sn a o l1 x l2 o' _ _ _ _ Hs Ha _ Hcn Hnm
                 |st st' sn o' _ Hs Ha _ Hcn Hnm]; eauto.
  - intros n a o. rewrite Hs. apply Hn.
  - intros n a0 o0. rewrite Hs.
    destruct (decide (sn = n)) as [->|Hne].
    + by rewrite lookup_insert_eq.
    + rewrite lookup_insert_ne by done. apply Hn.
Qed.

(** X5. A pass that no exception leaves fills every slot it clears: when
    no slot of the table is null before, none is after. (A null slot is
    what an exception between the clearing at line 184 and the assignment
    at line 224 leaves behind.) *)
Theorem completed_pass_leaves_no_null_slot configs paths st st' :
  createSensors configs paths st = (Normal tt, st') ->
  no_null_slot st -> no_null_slot st'.
Proof.
  revert configs paths st st'.
  apply (createSensors_ind_normal
           (fun st st' => no_null_slot st -> no_null_slot st')); [by auto|].
  intros c st st' Hc He Hn.
  assert (Hins : forall sn a o',
            sensors st' = <[sn := ptr a o']> (sensors st) ->
            no_null_slot st').
  { intros sn a o' Hs n. rewrite Hs.
    destruct (decide (sn = n)) as [->|Hne].
    - by rewrite lookup_insert_eq.
    - rewrite lookup_insert_ne by done. apply Hn. }
  destruct He as [c st st' (Hs&Ha&Hch) _
                 |e st st' sn a o l1 x l2 _ _ _ _ Hs Ha _
                 |st st' sn a o l1 x l2 o' _ _ _ _ Hs Ha _ _ _
                 |st st' sn o' _ Hs Ha _ _ _]; eauto.
  - intros n. rewrite Hs. apply Hn.
  - by destruct (Hc e).
Qed.

(** X6. A pass constructs at most one sensor for each discovered path:
    the number of objects made grows by no more than the number of paths,
    and by nothing when no path is found. *)
Theorem pass_makes_at_most_one_sensor_per_path configs paths st c st' :
  createSensors configs paths st = (c, st') ->
  (allocated st <= allocated st' <= allocated st + length paths)%nat.
Proof.
  assert (Hstep : forall c0 s s', effect c0 s s' ->
            (allocated s <= allocated s' <= S (allocated s))%nat).
  { intros c0 s s' He.
    destruct He as [c0 s s' (Hs&Ha&Hch) _
                   |e s s' sn a o l1 x l2 _ _ _ _ Hs Ha _
                   |s s' sn a o l1 x l2 o' _ _ _ _ Hs Ha _ _ _
                   |s s' sn o' _ Hs Ha _ _ _]; lia. }
  assert (Hloop : forall l s c0 s',
            for_each l (processDevice configs) s = (c0, s') ->
            (allocated s <= allocated s' <= allocated s + length l)%nat).
  { induction l as [|path l IH]; intros s c0 s'.
    - rewrite for_each_nil. intros [= _ <-]. simpl. lia.
    - rewrite for_each_cons.
      destruct (processDevice configs path s) as [c1 s1] eqn:Hp.
      pose proof (Hstep _ _ _ (processDevice_effect _ _ _ _ _ Hp)) as H1.
      simpl length.
      destruct c1 as [[]| | |e]; try (intros [= _ <-]; lia).
      + intros Hl. specialize (IH _ _ _ Hl). lia.
      + intros Hl. specialize (IH _ _ _ Hl). lia. }
  unfold createSensors. destruct paths as [|path paths].
  - intros [= _ <-]. simpl. lia.
  - apply Hloop.
Qed.

End PassProperties.

Section SearchFacts.
Context `{Collaborators}.

Lemma findBase_sensorTypes data v :
  findBase sensorTypes data v =
  match baseOf data with
  | Some (tag, m) =>
      inr {| sensorData := sensorData v; interfacePath := interfacePath v;
             sensorType := Some tag; baseConfiguration := Some (tag, m);
             baseConfigMap := baseConfigMap v |}
  | None => inl logic_error
  end.
Proof.
  unfold baseOf, sensorTypes. simpl.
  destruct (data !! "xyz.openbmc_project.Configuration.DPS310"); [done|].
  by destruct (data !! "xyz.openbmc_project.Configuration.SI7020").
Qed.

(** The base configuration of a record sits under a supported tag. *)
Lemma baseOf_Some data tag m :
  baseOf data = Some (tag, m) ->
  Some tag ∈ sensorTypes /\ data !! tag = Some m.
Proof.
  unfold baseOf, sensorTypes. simpl.
  destruct (data !! "xyz.openbmc_project.Configuration.DPS310") eqn:H1.
  - simpl. intros [= <- <-]. split; [left|done].
  - destruct (data !! "xyz.openbmc_project.Configuration.SI7020") eqn:H2;
      [|done].
    simpl. intros [= <- <-]. split; [right; left|done].
Qed.

Lemma matchRecord_passedOver dn bus addr p data v out :
  passedOver bus addr data ->
  exists v',
    matchRecord sensorTypes dn bus addr (p, data) (v, out)
    = (Continue, (v', app out (passedMessages [(p, data)]))) /\
    interfacePath v' = interfacePath v.
Proof.
  intros (tag&m&Hb&Hm). unfold matchRecord, passedMessages, lacksField.
  cbn [fst snd List.filter List.map]. rewrite findBase_sensorTypes, Hb.
  simpl.
  destruct (m !! "Bus") as [cb|]; [|by eexists].
  destruct (m !! "Address") as [ca|]; [|by eexists].
  rewrite Hm. simpl. rewrite app_nil_r. by eexists.
Qed.

Lemma matchRecord_matches dn bus addr p data v out :
  matches bus addr data ->
  exists v',
    matchRecord sensorTypes dn bus addr (p, data) (v, out)
    = (Break, (v', out)) /\
    interfacePath v' = Some p /\ sensorData v' = Some data.
Proof.
  intros (tag&m&cb&ca&Hb&Hbus&Hgb&Haddr&Hga).
  unfold matchRecord. cbn [fst snd]. rewrite findBase_sensorTypes, Hb.
  simpl. rewrite Hbus, Haddr.
  rewrite (proj2 (identityDiffers_false cb ca bus addr) (conj Hgb Hga)).
  by eexists.
Qed.

(** What the body of the search does with a record says what the record
    is. *)
Lemma matchRecord_inv dn bus addr p data v out c v' out' :
  matchRecord sensorTypes dn bus addr (p, data) (v, out) = (c, (v', out')) ->
  match c with
  | Continue => passedOver bus addr data
  | Break => matches bus addr data
  | Throw e =>
      (baseOf data = None /\ e = logic_error) \/
      exists tag m cb ca,
        baseOf data = Some (tag, m) /\
        m !! "Bus" = Some cb /\ m !! "Address" = Some ca /\
        identityDiffers cb ca bus addr = inl e
  | Normal _ => False
  end.
Proof.
  unfold matchRecord. cbn [fst snd]. rewrite findBase_sensorTypes.
  destruct (baseOf data) as [[tag m]|] eqn:Hb;
    [|intros [= <- _ _]; by left].
  simpl.
  destruct (m !! "Bus") as [cb|] eqn:Hbus.
  2:{ intros [= <- _ _]. exists tag, m. by rewrite Hbus. }
  destruct (m !! "Address") as [ca|] eqn:Haddr.
  2:{ intros [= <- _ _]. exists tag, m. by rewrite Hbus, Haddr. }
  destruct (identityDiffers cb ca bus addr) as [e|[|]] eqn:Hid.
  - intros [= <- _ _]. right. by exists tag, m, cb, ca.
  - intros [= <- _ _]. exists tag, m. by rewrite Hbus, Haddr.
  - intros [= <- _ _].
    apply identityDiffers_false in Hid as [Hgb Hga].
    by exists tag, m, cb, ca.
Qed.

Lemma matchLoop_passed dn bus addr pre :
  forall rest v out,
    Forall (fun r => passedOver bus addr r.2) pre ->
    exists v',
      matchLoop sensorTypes (pre ++ rest) dn bus addr (v, out)
      = matchLoop sensorTypes rest dn bus addr
          (v', app out (passedMessages pre)) /\
      interfacePath v' = interfacePath v.
Proof.
  unfold matchLoop.
  induction pre as [|[p data] pre IH]; intros rest v out Hpre.
  - exists v. unfold passedMessages. simpl. by rewrite app_nil_r.
  - apply Forall_cons in Hpre as [Hr Hpre].
    destruct (matchRecord_passedOver dn bus addr p data v out Hr)
      as (v1&Hm&Hi).
    destruct (IH rest v1 (app out (passedMessages [(p, data)])) Hpre)
      as (v2&Hl&Hi2).
    exists v2. split; [|congruence].
    change ((((p, data) :: pre) ++ rest)%list)
      with ((p, data) :: (pre ++ rest)%list).
    rewrite for_each_cons, Hm, Hl. f_equal. f_equal.
    rewrite <- app_assoc. f_equal. unfold passedMessages. simpl.
    by destruct (lacksField data).
Qed.

Lemma passedMessages_cons r pre :
  passedMessages (r :: pre)
  = app (passedMessages [r]) (passedMessages pre).
Proof. unfold passedMessages. simpl. by destruct (lacksField r.2). Qed.

Lemma matchLoop_inv dn bus addr l :
  forall v out c v' out',
    interfacePath v = None ->
    matchLoop sensorTypes l dn bus addr (v, out) = (c, (v', out')) ->
    match c with
    | Normal _ =>
        (interfacePath v' = None /\
         Forall (fun r => passedOver bus addr r.2) l /\
         out' = app out (passedMessages l)) \/
        (exists pre p data post,
           l = (pre ++ (p, data) :: post)%list /\
           Forall (fun r => passedOver bus addr r.2) pre /\
           matches bus addr data /\
           interfacePath v' = Some p /\ sensorData v' = Some data /\
           out' = app out (passedMessages pre))
    | Throw e =>
        exists pre p data post,
          l = (pre ++ (p, data) :: post)%list /\
          Forall (fun r => passedOver bus addr r.2) pre /\
          raisedAt bus addr data e /\
          out' = app out (passedMessages pre)
    | _ => False
    end.
Proof.
  unfold matchLoop.
  induction l as [|[p data] l IH]; intros v out c v' out' Hv.
  - rewrite for_each_nil. intros [= <- <- <-]. left.
    split; [done|]. split; [constructor|].
    unfold passedMessages. simpl. by rewrite app_nil_r.
  - rewrite for_each_cons.
    destruct (matchRecord sensorTypes dn bus addr (p, data) (v, out))
      as [c1 [v1 out1]] eqn:Hr.
    pose proof (matchRecord_inv _ _ _ _ _ _ _ _ _ _ Hr) as Hinv.
    destruct c1 as [[]| | |e]; try done.
    + destruct (matchRecord_passedOver dn bus addr p data v out Hinv)
        as (v1'&Hr'&Hi).
      rewrite Hr' in Hr. injection Hr as <- <-.
      intros Hl. apply IH in Hl; [|congruence].
      destruct c as [[]| | |e]; try done.
      * destruct Hl as [(Hn&Hall&->)|(pre&p'&d'&post&->&Hall&Hm&Hip&Hsd&->)].
        -- left. split; [done|]. split; [by constructor|].
           by rewrite (passedMessages_cons (p, data) l), app_assoc.
        -- right. exists ((p, data) :: pre), p', d', post.
           split_and!; auto.
           by rewrite (passedMessages_cons (p, data) pre), app_assoc.
      * destruct Hl as (pre&p'&d'&post&->&Hall&Hraise&->).
        exists ((p, data) :: pre), p', d', post. split_and!; auto.
        by rewrite (passedMessages_cons (p, data) pre), app_assoc.
    + destruct (matchRecord_matches dn bus addr p data v out Hinv)
        as (v1'&Hr'&Hip&Hsd).
      rewrite Hr' in Hr. injection Hr as <- <-.
      intros [= <- <- <-]. right. exists [], p, data, l.
      split_and!; auto.
      unfold passedMessages. simpl. by rewrite app_nil_r.
    + intros [= <- <- <-]. exists [], p, data, l. split_and!; auto.
      unfold matchRecord in Hr. cbn [fst snd] in Hr.
      rewrite findBase_sensorTypes in Hr.
      assert (Hout : out1 = out); [|by rewrite Hout, app_nil_r].
      destruct (baseOf data) as [[tag m]|]; [|by injection Hr as _ _ <-].
      simpl in Hr. destruct (m !! "Bus"); [|done].
      destruct (m !! "Address"); [|done].
      destruct (identityDiffers _ _ _ _) as [?|[|]]; [|done|done].
      by injection Hr as _ _ <-.
Qed.

End SearchFacts.

Section SearchProperties.
Context `{Collaborators}.

(** X7. The record the search takes is the first one, in the order the
    records are walked, whose base configuration holds the bus and the
    address of the device: every record before it has been gone past
    (a field is missing, or the comparison finds a difference). When the
    search ends with nothing taken, every record has been gone past. In
    both cases the search has written the message of line 129 once for
    each record gone past for a missing field, and nothing else. *)
Theorem taken_record_is_the_first_that_matches
    configs dn bus addr st v st' :
  findConfiguration configs dn bus addr st = (Normal v, st') ->
  match interfacePath v with
  | Some p =>
      exists pre data post,
        configs = (pre ++ (p, data) :: post)%list /\
        Forall (fun r => passedOver bus addr r.2) pre /\
        matches bus addr data /\ sensorData v = Some data /\
        cerr st' = app (cerr st) (passedMessages pre)
  | None =>
      Forall (fun r => passedOver bus addr r.2) configs /\
      cerr st' = app (cerr st) (passedMessages configs)
  end.
Proof.
  unfold findConfiguration.
  destruct (matchLoop _ _ _ _ _ _) as [c [v1 out]] eqn:Hl.
  apply matchLoop_inv in Hl; [|done].
  destruct c as [[]| | |e]; try done. intros [= <- <-]. simpl.
  destruct Hl as [(->&Hall&->)|(pre&p&data&post&->&Hall&Hm&->&Hsd&->)].
  - done.
  - by exists pre, data, post.
Qed.

(** X8. When a record matches and every record before it is gone past,
    the search takes that record (its path, its attributes), leaves the
    table alone, and has written one message for each of the earlier
    records that lacks [Bus] or [Address]; records after it are not
    looked at, whatever they hold. *)
Theorem search_takes_the_first_matching_record
    configs dn bus addr st pre p data post :
  configs = (pre ++ (p, data) :: post)%list ->
  Forall (fun r => passedOver bus addr r.2) pre ->
  matches bus addr data ->
  exists v,
    findConfiguration configs dn bus addr st
    = (Normal v,
       {| sensors := sensors st; allocated := allocated st;
          sensorsChanged := sensorsChanged st;
          cerr := app (cerr st) (passedMessages pre) |}) /\
    interfacePath v = Some p /\ sensorData v = Some data.
Proof.
  intros -> Hpre Hm. unfold findConfiguration.
  destruct (matchLoop_passed dn bus addr pre ((p, data) :: post)
              initLocals (cerr st) Hpre) as (v1&Hl&Hi).
  rewrite Hl. unfold matchLoop. rewrite for_each_cons.
  destruct (matchRecord_matches dn bus addr p data v1
              (app (cerr st) (passedMessages pre)) Hm) as (v2&Hr&Hip&Hsd).
  rewrite Hr. by exists v2.
Qed.

(** X9. A device for which every record is gone past is skipped: the
    body ends by [continue] after the message of line 146, the table, the
    objects and the Changed-Path Set are as before. An empty
    configuration is such a case. *)
Theorem device_without_matching_record_is_skipped
    configs path st bus addr :
  resolveIdentity (deviceName path) st = (Normal (bus, addr), st) ->
  Forall (fun r => passedOver bus addr r.2) configs ->
  processDevice configs path st
  = (Continue,
     {| sensors := sensors st; allocated := allocated st;
        sensorsChanged := sensorsChanged st;
        cerr := app (app (cerr st) (passedMessages configs))
                  ["failed to find match for " +:+ deviceName path +:+ nl] |}).
Proof.
  intros Hid Hall. unfold processDevice.
  rewrite (bind_normal _ _ _ _ _ Hid). simpl.
  destruct (findConfiguration configs (deviceName path) bus addr st)
    as [c st'] eqn:Hf.
  assert (Hres : exists v, c = Normal v /\ interfacePath v = None /\
            st' = {| sensors := sensors st; allocated := allocated st;
                     sensorsChanged := sensorsChanged st;
                     cerr := app (cerr st) (passedMessages configs) |}).
  { revert Hf. unfold findConfiguration.
    destruct (matchLoop_passed (deviceName path) bus addr configs []
                initLocals (cerr st) Hall) as (v1&Hl&Hi).
    rewrite app_nil_r in Hl. rewrite Hl. unfold matchLoop.
    rewrite for_each_nil. intros [= <- <-]. by exists v1. }
  destruct Hres as (v&->&Hv&->).
  rewrite (bind_normal _ _ _ _ _ Hf). by rewrite Hv.
Qed.

(** X10. A record that has none of the supported interfaces ends the
    search by an exception, when the search gets to it: the loop over
    [sensorTypes] runs into the null entries of the array, and building
    the key of [find] from a null pointer raises. The message of line 118
    is therefore never written: whatever the records, the search writes
    the message of line 129 only. *)
Theorem record_without_supported_interface_ends_the_search :
  (forall configs dn bus addr st pre p data post,
     configs = (pre ++ (p, data) :: post)%list ->
     Forall (fun r => passedOver bus addr r.2) pre ->
     data !! "xyz.openbmc_project.Configuration.DPS310" = None ->
     data !! "xyz.openbmc_project.Configuration.SI7020" = None ->
     exists st',
       findConfiguration configs dn bus addr st = (Throw logic_error, st')) /\
  (forall configs dn bus addr st c st',
     findConfiguration configs dn bus addr st = (c, st') ->
     exists k, cerr st' = app (cerr st) (replicate k busAddressMessage)).
Proof.
  split.
  - intros configs dn bus addr st pre p data post -> Hpre H1 H2.
    unfold findConfiguration.
    destruct (matchLoop_passed dn bus addr pre ((p, data) :: post)
                initLocals (cerr st) Hpre) as (v1&Hl&Hi).
    rewrite Hl. unfold matchLoop. rewrite for_each_cons.
    unfold matchRecord. cbn [fst snd]. rewrite findBase_sensorTypes.
    unfold baseOf, sensorTypes. simpl. rewrite H1, H2. by eexists.
  - intros configs dn bus addr st c st'. unfold findConfiguration.
    destruct (matchLoop _ _ _ _ _ _) as [c1 [v1 out]] eqn:Hl.
    assert (Hmsgs : forall l, exists k,
              passedMessages l = replicate k busAddressMessage).
    { intros l. unfold passedMessages.
      induction (List.filter _ l) as [|r l' [k IH]]; [by exists 0%nat|].
      exists (S k). simpl. by rewrite IH. }
    apply matchLoop_inv in Hl; [|done].
    destruct c1 as [[]| | |e]; try done.
    + intros [= <- <-]. simpl.
      destruct Hl as [(_&_&->)|(pre&_&_&_&_&_&_&_&_&->)].
      * destruct (Hmsgs configs) as [k ->]. by exists k.
      * destruct (Hmsgs pre) as [k ->]. by exists k.
    + intros [= <- <-]. simpl. destruct Hl as (pre&_&_&_&_&_&_&->).
      destruct (Hmsgs pre) as [k ->]. by exists k.
Qed.

End SearchProperties.

Section ReconcilerProperties.
Context `{Collaborators}.

(** X11. On an incremental rescan a matched device whose name the Sensor
    Table does not have is constructed without the Changed-Path Set being
    searched: the new object is put under the name, and the set is exactly
    what it was, also when one of its entries ends with that name. *)
Theorem incremental_scan_constructs_an_unknown_name
    configs path st v p m st' tv declared nv sensorName changed
    pollRate readState :
  matched configs path st v p m st' ->
  sensorsChanged st = Some changed ->
  m !! "SensorType" = Some tv ->
  VariantToStringVisitor tv = inr declared ->
  m !! "Name" = Some nv -> get_string nv = Some sensorName ->
  sensors st !! sensorName = None ->
  effectivePollRate m = inr pollRate ->
  configuredReadState m = inr readState ->
  exists st'' o,
    processDevice configs path st = (Normal tt, st'') /\
    sensors st'' = <[sensorName := ptr (allocated st) o]> (sensors st) /\
    allocated st'' = S (allocated st) /\
    sensorsChanged st'' = Some changed /\
    name o = IIOSensor_name sensorName /\
    ctor_path o = pathStr path /\
    ctor_configurationPath o = p.
Proof.
  intros Hm Hch Ht Hv Hn Hg Hnone Hp Hr.
  destruct (matched_named _ _ _ _ _ _ _ _ _ _ _ Hm Ht Hv Hn Hg)
    as (data&tag&(Hs&Ha&Hc)&Hpd).
  set (st1 := typeChecked st' _ declared) in *.
  assert (Hrec : reconcile sensorName st1 = (Normal tt, st1)).
  { unfold reconcile. rewrite Hc, Hch, Hs, Hnone. done. }
  rewrite (bind_normal _ _ _ _ _ Hrec) in Hpd.
  destruct (construct_ok (pathStr path) sensorName
              (inferSensorTypeName (pathStr path)) data tag m p st1
              _ _ Hp Hr) as (st''&Hc''&Hs''&Ha''&Hch'').
  exists st'', (made (pathStr path) sensorName
                  (inferSensorTypeName (pathStr path)) tag p
                  (parseThresholdsFromConfig data).2 pollRate readState).
  split; [congruence|]. rewrite Hs'', Ha'', Hch'', Hs, Ha, Hc.
  by split_and!.
Qed.

End ReconcilerProperties.

(** * Further properties of the identity resolver *)

Section StoiFacts.

Lemma digits_step b c s acc k d :
  Stoi.digit_in b c = Some d ->
  Stoi.digits b (String c s) acc k = Stoi.digits b s (acc * b + d) (S k).
Proof. simpl. by intros ->. Qed.

Lemma digits_decimal d : forall (acc k : nat) rest,
  Stoi.digits 10 (DecimalString.NilEmpty.string_of_uint d +:+ rest)
    (Z.of_nat acc) k
  = Stoi.digits 10 rest (Z.of_nat (Nat.of_uint_acc d acc))
      (k + Decimal.nb_digits d)%nat.
Proof.
  induction d; intros acc k rest;
    [simpl; by rewrite Nat.add_0_r|..];
    (etrans;
     [first [exact (digits_step 10 "0" (_ +:+ rest) _ _ 0 eq_refl)
            |exact (digits_step 10 "1" (_ +:+ rest) _ _ 1 eq_refl)
            |exact (digits_step 10 "2" (_ +:+ rest) _ _ 2 eq_refl)
            |exact (digits_step 10 "3" (_ +:+ rest) _ _ 3 eq_refl)
            |exact (digits_step 10 "4" (_ +:+ rest) _ _ 4 eq_refl)
            |exact (digits_step 10 "5" (_ +:+ rest) _ _ 5 eq_refl)
            |exact (digits_step 10 "6" (_ +:+ rest) _ _ 6 eq_refl)
            |exact (digits_step 10 "7" (_ +:+ rest) _ _ 7 eq_refl)
            |exact (digits_step 10 "8" (_ +:+ rest) _ _ 8 eq_refl)
            |exact (digits_step 10 "9" (_ +:+ rest) _ _ 9 eq_refl)]|]);
    cbn [Nat.of_uint_acc Decimal.nb_digits];
    match goal with
    | |- Stoi.digits 10 _ ?a _
         = Stoi.digits 10 _ (Z.of_nat (Nat.of_uint_acc _ ?n)) _ =>
        replace a with (Z.of_nat n)
          by (rewrite Nat.tail_mul_spec; lia)
    end;
    rewrite IHd; f_equal; lia.
Qed.

Lemma digits_hexadecimal h : forall (acc k : nat) rest,
  Stoi.digits 16 (HexadecimalString.NilEmpty.string_of_uint h +:+ rest)
    (Z.of_nat acc) k
  = Stoi.digits 16 rest (Z.of_nat (Nat.of_hex_uint_acc h acc))
      (k + Hexadecimal.nb_digits h)%nat.
Proof.
  induction h; intros acc k rest;
    [simpl; by rewrite Nat.add_0_r|..];
    (etrans;
     [first [exact (digits_step 16 "0" (_ +:+ rest) _ _ 0 eq_refl)
            |exact (digits_step 16 "1" (_ +:+ rest) _ _ 1 eq_refl)
            |exact (digits_step 16 "2" (_ +:+ rest) _ _ 2 eq_refl)
            |exact (digits_step 16 "3" (_ +:+ rest) _ _ 3 eq_refl)
            |exact (digits_step 16 "4" (_ +:+ rest) _ _ 4 eq_refl)
            |exact (digits_step 16 "5" (_ +:+ rest) _ _ 5 eq_refl)
            |exact (digits_step 16 "6" (_ +:+ rest) _ _ 6 eq_refl)
            |exact (digits_step 16 "7" (_ +:+ rest) _ _ 7 eq_refl)
            |exact (digits_step 16 "8" (_ +:+ rest) _ _ 8 eq_refl)
            |exact (digits_step 16 "9" (_ +:+ rest) _ _ 9 eq_refl)
            |exact (digits_step 16 "a" (_ +:+ rest) _ _ 10 eq_refl)
            |exact (digits_step 16 "b" (_ +:+ rest) _ _ 11 eq_refl)
            |exact (digits_step 16 "c" (_ +:+ rest) _ _ 12 eq_refl)
            |exact (digits_step 16 "d" (_ +:+ rest) _ _ 13 eq_refl)
            |exact (digits_step 16 "e" (_ +:+ rest) _ _ 14 eq_refl)
            |exact (digits_step 16 "f" (_ +:+ rest) _ _ 15 eq_refl)]|]);
    cbn [Nat.of_hex_uint_acc Hexadecimal.nb_digits];
    match goal with
    | |- Stoi.digits 16 _ ?a _
         = Stoi.digits 16 _ (Z.of_nat (Nat.of_hex_uint_acc _ ?n)) _ =>
        replace a with (Z.of_nat n)
          by (rewrite Nat.tail_mul_spec; lia)
    end;
    rewrite IHh; f_equal; lia.
Qed.

Lemma append_cons c s t : String c s +:+ t = String c (s +:+ t).
Proof. reflexivity. Qed.

Lemma append_empty_r s : s +:+ "" = s.
Proof. induction s as [|c s IH]; [done|]. by rewrite append_cons, IH. Qed.

Lemma substr_to_append s1 s2 :
  Str.substr_to (String.length s1) (s1 +:+ s2) = s1.
Proof.
  induction s1 as [|c s1 IH]; [by destruct s2|].
  rewrite append_cons. simpl. by rewrite IH.
Qed.

Lemma substr_from_append s1 c s2 :
  Str.substr_from (S (String.length s1)) (s1 +:+ String c s2) = s2.
Proof.
  induction s1 as [|d s1 IH]; [done|]. rewrite append_cons. apply IH.
Qed.

Lemma find_hyphen_decimal d rest :
  Str.find_char "-"
    (DecimalString.NilEmpty.string_of_uint d +:+ String "-" rest)
  = Some (String.length (DecimalString.NilEmpty.string_of_uint d)).
Proof.
  induction d; [done|..];
    cbn [DecimalString.NilEmpty.string_of_uint]; rewrite append_cons;
    cbn [Str.find_char String.length]; simpl Ascii.eqb; cbv iota;
    by rewrite IHd.
Qed.

(** [std::stoi] on a string whose first character is no white space and
    no sign. *)
Lemma stoi_head c s b :
  Stoi.isspace c = false -> c <> "-"%char -> c <> "+"%char ->
  Stoi.stoi (String c s) b =
  match Stoi.digits b (Stoi.skip_hex_prefix b (String c s)) 0 0 with
  | (v, O) => inl invalid_argument
  | (v, S _) =>
      if (Stoi.INT_MIN <=? v) && (v <=? Stoi.INT_MAX) then inr v
      else inl out_of_range
  end.
Proof.
  intros Hsp Hm Hp. unfold Stoi.stoi. simpl Stoi.skip_spaces. rewrite Hsp.
  destruct c as [[] [] [] [] [] [] [] []]; try done.
Qed.

Lemma skip_hex_prefix_10 s : Stoi.skip_hex_prefix 10 s = s.
Proof. unfold Stoi.skip_hex_prefix. by repeat case_match. Qed.

Lemma skip_hex_prefix_id b c0 x s :
  x <> "x"%char -> x <> "X"%char ->
  Stoi.skip_hex_prefix b (String c0 (String x s)) = String c0 (String x s).
Proof.
  intros Hx HX. unfold Stoi.skip_hex_prefix.
  destruct (Ascii.eqb_spec x "x"); [done|].
  destruct (Ascii.eqb_spec x "X"); [done|].
  rewrite andb_false_r. simpl. by repeat case_match.
Qed.

Lemma skip_hex_prefix_hexadecimal h :
  Stoi.skip_hex_prefix 16 (HexadecimalString.NilEmpty.string_of_uint h)
  = HexadecimalString.NilEmpty.string_of_uint h.
Proof.
  destruct h as [|h|h|h|h|h|h|h|h|h|h|h|h|h|h|h|h]; try reflexivity;
    destruct h; try reflexivity; apply skip_hex_prefix_id; discriminate.
Qed.

Lemma stoi_range v n :
  n <> O -> Stoi.INT_MIN <= v <= Stoi.INT_MAX ->
  match n with
  | O => inl invalid_argument
  | S _ =>
      if (Stoi.INT_MIN <=? v) && (v <=? Stoi.INT_MAX) then inr v
      else @inl exception Z out_of_range
  end = inr v.
Proof.
  intros Hn [Hlo Hhi]. destruct n; [done|].
  apply Z.leb_le in Hlo, Hhi. by rewrite Hlo, Hhi.
Qed.

(** [std::stoi] reads a decimal numeral that fits [int] as its value. *)
Lemma stoi_decimal d :
  d <> Decimal.Nil ->
  Z.of_nat (Nat.of_uint d) <= Stoi.INT_MAX ->
  Stoi.stoi (DecimalString.NilEmpty.string_of_uint d) 10
  = inr (Z.of_nat (Nat.of_uint d)).
Proof.
  intros Hd Hmax.
  assert (Hhead : exists c s,
            DecimalString.NilEmpty.string_of_uint d = String c s /\
            Stoi.isspace c = false /\ c <> "-"%char /\ c <> "+"%char).
  { destruct d; [done|..]; eexists _, _; by split_and!. }
  destruct Hhead as (c&s&Hs&Hsp&Hm&Hp).
  rewrite Hs, (stoi_head _ _ _ Hsp Hm Hp), skip_hex_prefix_10, <- Hs.
  rewrite <- (append_empty_r (DecimalString.NilEmpty.string_of_uint d)).
  pose proof (digits_decimal d 0 0 "") as Hdig.
  change (Z.of_nat 0) with 0 in Hdig. rewrite Hdig. cbn [Stoi.digits].
  apply stoi_range.
  - destruct d; [done|..]; simpl; lia.
  - unfold Stoi.INT_MAX in Hmax. unfold Stoi.INT_MIN, Stoi.INT_MAX. lia.
Qed.

Lemma stoi_hexadecimal h :
  h <> Hexadecimal.Nil ->
  Z.of_nat (Nat.of_hex_uint h) <= Stoi.INT_MAX ->
  Stoi.stoi (HexadecimalString.NilEmpty.string_of_uint h) 16
  = inr (Z.of_nat (Nat.of_hex_uint h)).
Proof.
  intros Hh Hmax.
  assert (Hhead : exists c s,
            HexadecimalString.NilEmpty.string_of_uint h = String c s /\
            Stoi.isspace c = false /\ c <> "-"%char /\ c <> "+"%char).
  { destruct h; [done|..]; eexists _, _; by split_and!. }
  destruct Hhead as (c&s&Hs&Hsp&Hm&Hp).
  rewrite Hs, (stoi_head _ _ _ Hsp Hm Hp), <- Hs, skip_hex_prefix_hexadecimal.
  rewrite <- (append_empty_r (HexadecimalString.NilEmpty.string_of_uint h)).
  pose proof (digits_hexadecimal h 0 0 "") as Hdig.
  change (Z.of_nat 0) with 0 in Hdig. rewrite Hdig. cbn [Stoi.digits].
  apply stoi_range.
  - destruct h; [done|..]; simpl; lia.
  - unfold Stoi.INT_MAX in Hmax. unfold Stoi.INT_MIN, Stoi.INT_MAX. lia.
Qed.

Lemma stoi_in_int s b v :
  Stoi.stoi s b = inr v -> Stoi.INT_MIN <= v <= Stoi.INT_MAX.
Proof.
  unfold Stoi.stoi.
  destruct (match Stoi.skip_spaces s with
            | String "-" r => (true, r)
            | String "+" r => (false, r)
            | _ => (false, Stoi.skip_spaces s)
            end) as [neg s2].
  destruct (Stoi.digits b (Stoi.skip_hex_prefix b s2) 0 0) as [v0 n].
  destruct n; [done|].
  destruct (Z.leb_spec Stoi.INT_MIN (if neg then - v0 else v0));
    destruct (Z.leb_spec (if neg then - v0 else v0) Stoi.INT_MAX);
    simpl; try done.
  by intros [= <-].
Qed.

End StoiFacts.

Section IdentityProperties.
Context `{Collaborators}.

(** X12. A device name made of a decimal numeral, a hyphen and a
    hexadecimal numeral (lower case, leading zeros allowed), as in the
    comment at lines 65-67, is resolved to the two values, for every bus
    and address that fit [int]; nothing is written and the state is left
    as it is. *)
Theorem resolver_reads_decimal_hyphen_hexadecimal d h st :
  d <> Decimal.Nil -> h <> Hexadecimal.Nil ->
  Z.of_nat (Nat.of_uint d) <= Stoi.INT_MAX ->
  Z.of_nat (Nat.of_hex_uint h) <= Stoi.INT_MAX ->
  resolveIdentity
    (DecimalString.NilEmpty.string_of_uint d +:+ "-"
     +:+ HexadecimalString.NilEmpty.string_of_uint h) st
  = (Normal (Z.of_nat (Nat.of_uint d), Z.of_nat (Nat.of_hex_uint h)), st).
Proof.
  intros Hd Hh Hdmax Hhmax. unfold resolveIdentity.
  change ("-" +:+ HexadecimalString.NilEmpty.string_of_uint h)
    with (String "-" (HexadecimalString.NilEmpty.string_of_uint h)).
  rewrite find_hyphen_decimal, substr_to_append, substr_from_append.
  rewrite (parseBusAddr_ok _ _ st _ _ (stoi_decimal d Hd Hdmax)
             (stoi_hexadecimal h Hh Hhmax)).
  unfold Stoi.to_size_t, Stoi.INT_MAX in *.
  rewrite !Z.mod_small by lia. done.
Qed.

(** X13. The bus and the address of a resolved identity are [int] values
    converted to [size_t]: each lies below 2^31 or, for a negative number,
    in the top 2^31 values of [size_t]. A record whose [Bus] or [Address]
    lies between can therefore be matched by no device. *)
Theorem matched_bus_and_address_are_wrapped_ints
    configs path st v p m st' :
  matched configs path st v p m st' ->
  forall key cv n,
    key = "Bus" \/ key = "Address" ->
    m !! key = Some cv -> get_uint64 cv = Some n ->
    0 <= n < 2 ^ 31 \/ 2 ^ 64 - 2 ^ 31 <= n < 2 ^ 64.
Proof.
  intros Hm key cv n Hkey Hcv Hn.
  destruct (matched_taken _ _ _ _ _ _ _ Hm)
    as (bus&addr&i&data&Hid&_&Ht&_&_).
  destruct Hm as (_&_&_&_&_&Hbm).
  destruct Ht as (_&_&tag&m'&cb&ca&_&_&_&_&Hbm'&Hb&Hgb&Ha&Hga).
  assert (m' = m) as -> by congruence.
  assert (Hwrap : forall z, Stoi.INT_MIN <= z <= Stoi.INT_MAX ->
            0 <= Stoi.to_size_t z < 2 ^ 31 \/
            2 ^ 64 - 2 ^ 31 <= Stoi.to_size_t z < 2 ^ 64).
  { intros z. unfold Stoi.INT_MIN, Stoi.INT_MAX, Stoi.to_size_t. intros Hz.
    destruct (Z.lt_ge_cases z 0).
    - right. rewrite <- (Z.mod_add z 1) by lia.
      rewrite Z.mod_small by lia. lia.
    - left. rewrite Z.mod_small by lia. lia. }
  unfold resolveIdentity in Hid.
  destruct (Str.find_char "-" (deviceName path)) as [j|]; [|done].
  apply parseBusAddr_spec in Hid as (_&b0&a0&Hsb&Hsa&[= -> ->]).
  apply stoi_in_int in Hsb, Hsa.
  destruct Hkey as [-> | ->].
  - assert (n = Stoi.to_size_t b0) as -> by congruence. by apply Hwrap.
  - assert (n = Stoi.to_size_t a0) as -> by congruence. by apply Hwrap.
Qed.

End IdentityProperties.

(** * Further properties of the Changed-Path Set *)

Section FlatSetOrder.

Lemma ascii_compare_refl a : Ascii.compare a a = Eq.
Proof. unfold Ascii.compare. apply N.compare_refl. Qed.

Lemma ascii_compare_lt_trans a b c :
  Ascii.compare a b = Lt -> Ascii.compare b c = Lt -> Ascii.compare a c = Lt.
Proof.
  unfold Ascii.compare. rewrite !N.compare_lt_iff. apply N.lt_trans.
Qed.

Lemma string_compare_lt_trans a : forall b c,
  String.compare a b = Lt -> String.compare b c = Lt ->
  String.compare a c = Lt.
Proof.
  induction a as [|x a IH]; intros [|y b] [|z c]; simpl; try done.
  destruct (Ascii.compare x y) eqn:Hxy; try done;
    destruct (Ascii.compare y z) eqn:Hyz; try done; intros Hab Hbc.
  - apply Ascii.compare_eq_iff in Hxy as ->.
    apply Ascii.compare_eq_iff in Hyz as ->.
    rewrite ascii_compare_refl. by eapply IH.
  - apply Ascii.compare_eq_iff in Hxy as ->. by rewrite Hyz.
  - apply Ascii.compare_eq_iff in Hyz as <-. by rewrite Hxy.
  - by rewrite (ascii_compare_lt_trans _ _ _ Hxy Hyz).
Qed.

Lemma lt_trans a b c :
  Str.lt a b = true -> Str.lt b c = true -> Str.lt a c = true.
Proof.
  unfold Str.lt, String.ltb.
  destruct (String.compare a b) eqn:Hab; try done.
  destruct (String.compare b c) eqn:Hbc; try done.
  by rewrite (string_compare_lt_trans _ _ _ Hab Hbc).
Qed.

Lemma string_compare_refl a : String.compare a a = Eq.
Proof.
  induction a as [|x a IH]; [done|]. simpl. by rewrite ascii_compare_refl.
Qed.

Lemma lt_irrefl a : Str.lt a a = false.
Proof. unfold Str.lt, String.ltb. by rewrite string_compare_refl. Qed.

Lemma lt_total a b : a <> b -> Str.lt a b = false -> Str.lt b a = true.
Proof.
  unfold Str.lt, String.ltb. intros Hne.
  rewrite (String.compare_antisym b a).
  destruct (String.compare a b) eqn:Hab; simpl; try done.
  apply String.compare_eq_iff in Hab. congruence.
Qed.

Lemma increasing_cons x l :
  increasing (x :: l) <-> Forall (fun y => Str.lt x y = true) l /\ increasing l.
Proof. done. Qed.

Lemma insert_increasing x l : increasing l -> increasing (FlatSet.insert x l).
Proof.
  induction l as [|y l IH]; intros Hl.
  - simpl. split; [constructor|done].
  - apply increasing_cons in Hl as [Hy Hl]. simpl.
    destruct (String.eqb_spec x y) as [->|Hne]; [done|].
    destruct (Str.lt x y) eqn:Hxy.
    + split; [|done]. constructor; [done|].
      eapply Forall_impl; [exact Hy|]. intros z Hz. by eapply lt_trans.
    + apply increasing_cons. split; [|by apply IH].
      apply Forall_forall. intros z Hz.
      apply elem_of_insert in Hz as [->|Hz].
      * by apply lt_total.
      * by eapply Forall_forall in Hy.
Qed.

Lemma increasing_sublist l' l :
  l' `sublist_of` l -> increasing l -> increasing l'.
Proof.
  induction 1 as [|x l1 l2 Hsub IH|x l1 l2 Hsub IH]; [done|..].
  - intros [Hx Hl]%increasing_cons. apply increasing_cons. split; [|auto].
    apply Forall_forall. intros y Hy.
    eapply Forall_forall in Hx; [done|]. by eapply elem_of_sublist.
  - intros [_ Hl]%increasing_cons. auto.
Qed.

Lemma increasing_NoDup l : increasing l -> NoDup l.
Proof.
  induction l as [|x l IH]; [constructor|].
  intros [Hx Hl]%increasing_cons. constructor; [|auto].
  intros Hin. eapply Forall_forall in Hx; [|done].
  by rewrite lt_irrefl in Hx.
Qed.

Lemma insert_present x l : increasing l -> x ∈ l -> FlatSet.insert x l = l.
Proof.
  induction l as [|y l IH]; intros Hl Hx; [by apply elem_of_nil in Hx|].
  apply increasing_cons in Hl as [Hy Hl]. simpl.
  destruct (String.eqb_spec x y) as [->|Hne]; [done|].
  apply elem_of_cons in Hx as [->|Hx]; [done|].
  eapply Forall_forall in Hy; [|done].
  assert (Str.lt x y = false) as ->.
  { destruct (Str.lt x y) eqn:Hxy; [|done].
    by rewrite <- (lt_irrefl y), <- (lt_trans _ _ _ Hy Hxy). }
  by rewrite IH.
Qed.

End FlatSetOrder.

(** * Further properties of the event handler *)

Section DebounceMore.
Import Debounce.

Lemma deliver_spec m t msg :
  changedSet (deliver m (t, msg))
  = (if is_method_error msg then changedSet m
     else FlatSet.insert (get_path msg) (changedSet m)) /\
  rescans (deliver m (t, msg))
  = (if fires m t then app (rescans m) [changedSet m] else rescans m) /\
  expiry (deliver m (t, msg))
  = (if is_method_error msg
     then (if fires m t then None else expiry m)
     else Some (clock (deliver m (t, msg)) + quiet)) /\
  t <= clock (deliver m (t, msg)) /\
  (forall e, expiry m = Some e -> fires m t = false ->
             e <= clock m + quiet ->
             e <= clock (deliver m (t, msg)) + quiet).
Proof.
  unfold deliver, idle_until, eventHandler, rearm, waitHandler, fires.
  simpl.
  destruct (expiry m) as [e|] eqn:He; [destruct (Z.leb_spec e t)|];
    destruct (is_method_error msg); simpl; rewrite ?He; simpl;
    split_and!; try done; try lia; intros; simplify_eq; lia.
Qed.

Lemma run_cons tm msgs m : run (tm :: msgs) m = run msgs (deliver m tm).
Proof. done. Qed.

(** X16. The Changed-Path Set keeps the order of a [flat_set] under the
    event handler: when its elements are strictly increasing (so without
    repetition) before, they are after any messages and any wait, and so
    are the elements of every set handed to a rescan on the way. A
    notification of a path that is in the set leaves the set as it is. *)
Theorem event_handler_keeps_the_set_increasing msgs m T :
  increasing (changedSet m) ->
  Forall increasing (rescans m) ->
  increasing (changedSet (idle_until T (run msgs m))) /\
  Forall increasing (rescans (idle_until T (run msgs m))) /\
  (forall msg,
     is_method_error msg = false -> get_path msg ∈ changedSet m ->
     changedSet (eventHandler msg m) = changedSet m).
Proof.
  intros Hs Hr.
  assert (Hrun : forall l m0,
            increasing (changedSet m0) -> Forall increasing (rescans m0) ->
            increasing (changedSet (run l m0)) /\
            Forall increasing (rescans (run l m0))).
  { induction l as [|[t msg] l IH]; intros m0 H1 H2; [done|].
    rewrite run_cons. destruct (deliver_spec m0 t msg) as (Hc&Hrs&_).
    apply IH.
    - rewrite Hc. destruct (is_method_error msg); [done|].
      by apply insert_increasing.
    - rewrite Hrs. destruct (fires m0 t); [|done].
      apply Forall_app. split; [done|]. by constructor. }
  destruct (Hrun msgs m Hs Hr) as [H1 H2].
  split_and!.
  - unfold idle_until. by repeat case_match.
  - unfold idle_until. repeat case_match; simpl; try done.
    apply Forall_app. split; [done|]. by constructor.
  - intros msg Herr Hin. unfold eventHandler, rearm. rewrite Herr. simpl.
    rewrite insert_present by done. by destruct (expiry m).
Qed.

End DebounceMore.

(** * Further properties of the string tests and of the reconciler *)

Section StringTests.

Lemma length_append s1 s2 :
  String.length (s1 +:+ s2) = (String.length s1 + String.length s2)%nat.
Proof.
  induction s1 as [|c s1 IH]; [done|]. rewrite append_cons. simpl.
  by rewrite IH.
Qed.

Lemma substr_from_append_0 s1 s2 :
  Str.substr_from (String.length s1) (s1 +:+ s2) = s2.
Proof.
  induction s1 as [|c s1 IH]; [by destruct s2|]. rewrite append_cons.
  apply IH.
Qed.

Lemma substr_split k : forall s,
  (k <= String.length s)%nat ->
  Str.substr_to k s +:+ Str.substr_from k s = s.
Proof.
  induction k as [|k IH]; intros s Hk; [by destruct s|].
  destruct s as [|c s]; [simpl in Hk; lia|].
  simpl in *. rewrite append_cons. f_equal. apply IH. lia.
Qed.

(** [boost::ends_with(s, suffix)] holds exactly when [s] is some text
    followed by [suffix]. *)
Lemma ends_with_spec s suffix :
  Str.ends_with s suffix = true <-> exists front, s = front +:+ suffix.
Proof.
  unfold Str.ends_with. split.
  - intros [Hlen Heq]%andb_true_iff.
    apply Nat.leb_le in Hlen. apply String.eqb_eq in Heq.
    exists (Str.substr_to (String.length s - String.length suffix) s).
    transitivity
      (Str.substr_to (String.length s - String.length suffix) s
       +:+ Str.substr_from (String.length s - String.length suffix) s);
      [|by rewrite Heq].
    symmetry. apply substr_split. lia.
  - intros [front ->]. rewrite length_append. apply andb_true_iff. split.
    + apply Nat.leb_le. lia.
    + replace (String.length front + String.length suffix
               - String.length suffix)%nat
        with (String.length front) by lia.
      rewrite substr_from_append_0. apply String.eqb_refl.
Qed.

Lemma append_assoc s1 s2 s3 : (s1 +:+ s2) +:+ s3 = s1 +:+ (s2 +:+ s3).
Proof.
  induction s1 as [|c s1 IH]; [done|]. rewrite !append_cons. by rewrite IH.
Qed.

Lemma prefix_spec needle : forall s,
  String.prefix needle s = true <-> exists rest, s = needle +:+ rest.
Proof.
  induction needle as [|c needle IH]; intros s.
  - split; [|by destruct s]. intros _. by exists s.
  - destruct s as [|d s]; simpl.
    + split; [done|]. by intros [rest Hr].
    + destruct (ascii_dec c d) as [->|Hne].
      * rewrite IH. split; intros [rest Hr]; exists rest.
        -- rewrite append_cons. by rewrite Hr.
        -- rewrite append_cons in Hr. by injection Hr.
      * split; [done|]. intros [rest Hr]. rewrite append_cons in Hr.
        injection Hr as ? _. congruence.
Qed.

(** [s.find(needle) != npos] holds exactly when [needle] occurs in [s]. *)
Lemma contains_spec needle s :
  Str.contains needle s = true <->
  exists front rest, s = front +:+ needle +:+ rest.
Proof.
  induction s as [|c s IH].
  - change (Str.contains needle "") with (String.prefix needle "" || false).
    rewrite orb_false_r, prefix_spec. split.
    + intros [rest Hr]. by exists "", rest.
    + intros (front&rest&Hr). destruct front; [by exists rest|done].
  - change (Str.contains needle (String c s))
      with (String.prefix needle (String c s) || Str.contains needle s).
    rewrite orb_true_iff, IH, prefix_spec. split.
    + intros [[rest Hr]|(front&rest&Hr)].
      * by exists "", rest.
      * exists (String c front), rest. rewrite append_cons. by rewrite Hr.
    + intros (front&rest&Hr). destruct front as [|d front].
      * left. by exists rest.
      * right. rewrite append_cons in Hr. injection Hr as _ Hr.
        by exists front, rest.
Qed.

End StringTests.

Section SetProperties.
Context `{Collaborators}.

(** X17. The kind of a channel is read off the whole text of the path:
    pressure when the word occurs anywhere in it, otherwise humidity when
    that word occurs, otherwise temperature. *)
Theorem kind_is_read_off_the_whole_path p :
  let occurs word := exists front rest, p = front +:+ word +:+ rest in
  (inferSensorTypeName p = "pressure" <-> occurs "pressure") /\
  (inferSensorTypeName p = "humidity" <->
   ~ occurs "pressure" /\ occurs "humidity") /\
  (inferSensorTypeName p = "temperature" <->
   ~ occurs "pressure" /\ ~ occurs "humidity").
Proof.
  intros occurs. unfold inferSensorTypeName.
  pose proof (contains_spec "pressure" p) as Hp.
  pose proof (contains_spec "humidity" p) as Hh.
  fold (occurs "pressure") in Hp. fold (occurs "humidity") in Hh.
  destruct (Str.contains "pressure" p);
    [|destruct (Str.contains "humidity" p)].
  - assert (occurs "pressure") by by apply Hp. split_and!.
    + done.
    + split; [done|]. by intros [? _].
    + split; [done|]. by intros [? _].
  - assert (~ occurs "pressure") by (intros ?%Hp; done).
    assert (occurs "humidity") by by apply Hh. split_and!.
    + split; [done|]. done.
    + done.
    + split; [done|]. by intros [_ ?].
  - assert (~ occurs "pressure") by (intros ?%Hp; done).
    assert (~ occurs "humidity") by (intros ?%Hh; done). split_and!.
    + split; [done|]. done.
    + split; [done|]. by intros [_ ?].
    + done.
Qed.

(** X18. A pass keeps the order of the Changed-Path Set: when its
    elements are strictly increasing before an incremental pass, they are
    after it, however the pass ends. *)
Theorem pass_keeps_the_set_increasing configs paths st c st' l :
  createSensors configs paths st = (c, st') ->
  sensorsChanged st = Some l -> increasing l ->
  exists l', sensorsChanged st' = Some l' /\ increasing l'.
Proof.
  revert configs paths st c st' l.
  assert (HR : forall configs paths st c st',
            createSensors configs paths st = (c, st') ->
            forall l, sensorsChanged st = Some l -> increasing l ->
              exists l', sensorsChanged st' = Some l' /\ increasing l').
  { apply (createSensors_ind (fun st st' =>
      forall l, sensorsChanged st = Some l -> increasing l ->
        exists l', sensorsChanged st' = Some l' /\ increasing l')).
    - intros s1 s2 s3 H12 H23 l Hl Hinc.
      destruct (H12 l Hl Hinc) as (l1&Hl1&Hinc1). eauto.
    - intros c st st' He l Hl Hinc.
      assert (Hdrop : forall l1 x l2,
                l = (l1 ++ x :: l2)%list -> increasing (l1 ++ l2)%list).
      { intros l1 x l2 ->. eapply increasing_sublist; [|done].
        apply sublist_app; [done|]. by apply sublist_cons. }
      destruct He as [c st st' (Hs&Ha&Hc) _
                     |e st st' sn a o l1 x l2 Hch _ _ _ Hs Ha Hc
                     |st st' sn a o l1 x l2 o' Hch _ _ _ Hs Ha Hc _ _
                     |st st' sn o' _ Hs Ha Hc _ _].
      + exists l. split; [congruence|done].
      + exists (l1 ++ l2)%list. split; [done|]. apply (Hdrop l1 x). congruence.
      + exists (l1 ++ l2)%list. split; [done|]. apply (Hdrop l1 x). congruence.
      + exists l. split; [congruence|done]. }
  intros configs paths st c st' l Hp. by apply HR with configs paths c.
Qed.

(** X19. The entry that the reconciler takes out of the Changed-Path Set
    for a known sensor is the least one, in the order of the set, that
    ends with the stored name; it is in the set no more, every other entry
    is, and the slot of the sensor is null until the new object is
    assigned. *)
Theorem consumed_entry_is_the_least_and_is_gone
    sensorName st st' changed a o :
  sensorsChanged st = Some changed -> increasing changed ->
  sensors st !! sensorName = Some (ptr a o) ->
  reconcile sensorName st = (Normal tt, st') ->
  exists x l',
    sensorsChanged st' = Some l' /\
    x ∈ changed /\ Str.ends_with x (name o) = true /\
    (forall y, y ∈ changed -> Str.ends_with y (name o) = true ->
               y = x \/ Str.lt x y = true) /\
    (x ∉ l') /\ (forall y, y ∈ l' <-> y ∈ changed /\ y <> x) /\
    sensors st' !! sensorName = Some nullptr.
Proof.
  intros Hch Hinc Hslot Hr.
  apply reconcile_spec in Hr
    as [(_&_&[?|?])|[(_&a'&o'&l1&x&l2&Hch'&Hslot'&Hx&Hl1&->)|([[=]|[=]]&_)]];
    try congruence.
  assert (changed = (l1 ++ x :: l2)%list) as -> by congruence.
  assert (o' = o) as -> by congruence.
  pose proof (increasing_NoDup _ Hinc) as Hnd.
  apply NoDup_app in Hnd as (Hnd1&Hdisj&Hnd2).
  apply NoDup_cons in Hnd2 as [Hx2 Hnd2].
  assert (Hx1 : x ∉ l1).
  { intros Hin. apply (Hdisj x Hin). left. }
  assert (Hgt : forall y, y ∈ l2 -> Str.lt x y = true).
  { assert (Hxl2 : increasing (x :: l2)).
    { eapply increasing_sublist; [|exact Hinc]. by apply sublist_inserts_l. }
    apply increasing_cons in Hxl2 as [Hall _]. intros y Hy.
    by eapply Forall_forall in Hall. }
  exists x, (l1 ++ l2)%list. simpl. split_and!; auto.
  - rewrite elem_of_app, elem_of_cons. auto.
  - intros y [Hy|[->|Hy]%elem_of_cons]%elem_of_app Hend; auto.
    rewrite (Hl1 y Hy) in Hend. done.
  - rewrite elem_of_app. tauto.
  - intros y. rewrite !elem_of_app, elem_of_cons. split.
    + intros [Hy|Hy]; (split; [tauto|]); intros ->; done.
    + intros [[?|[?|?]] ?]; tauto.
  - apply lookup_insert_eq.
Qed.

(** X20. An entry of the Changed-Path Set is consumed by the first sensor
    it names. When the stored name of a first sensor ends the stored name
    of a second one, an entry that names the second names the first too:
    if it is the only such entry and the first sensor is reconciled
    first, the entry goes to the first sensor and the second sensor is
    skipped. *)
Theorem entry_goes_to_the_first_sensor_it_names
    st changed n1 n2 a1 o1 a2 o2 x front :
  sensorsChanged st = Some changed -> increasing changed ->
  n1 <> n2 ->
  sensors st !! n1 = Some (ptr a1 o1) ->
  sensors st !! n2 = Some (ptr a2 o2) ->
  name o2 = front +:+ name o1 ->
  x ∈ changed -> Str.ends_with x (name o2) = true ->
  (forall y, y ∈ changed -> Str.ends_with y (name o1) = true -> y = x) ->
  exists st1,
    reconcile n1 st = (Normal tt, st1) /\
    sensors st1 !! n1 = Some nullptr /\
    reconcile n2 st1 = (Continue, st1).
Proof.
  intros Hch Hinc Hne Hs1 Hs2 Hname Hx Hx2 Honly.
  assert (Hsuffix : forall y, Str.ends_with y (name o2) = true ->
                              Str.ends_with y (name o1) = true).
  { intros y [f ->]%ends_with_spec. apply ends_with_spec.
    exists (f +:+ front). by rewrite Hname, append_assoc. }
  pose proof (Hsuffix x Hx2) as Hx1.
  destruct (reconcile n1 st) as [c st1] eqn:Hr1.
  pose proof Hr1 as Hr1'.
  apply reconcile_spec in Hr1'
    as [(_&_&[?|?])
       |[(->&a'&o'&l1&x'&l2&Hch'&Hslot'&Hx'&Hl1&->)|([->| ->]&->&_)]];
    try congruence.
  - assert (changed = (l1 ++ x' :: l2)%list) as -> by congruence.
    assert (o' = o1) as -> by congruence.
    assert (x' = x) as ->.
    { apply Honly; [|done]. rewrite elem_of_app, elem_of_cons. auto. }
    eexists. split; [done|]. simpl. split; [apply lookup_insert_eq|].
    unfold reconcile. simpl. rewrite lookup_insert_ne by done. rewrite Hs2.
    assert (Hnone : FlatSet.erase_first_ending (name o2) (l1 ++ l2)%list = None).
    { apply erase_first_ending_None. intros y Hy.
      destruct (Str.ends_with y (name o2)) eqn:Hy2; [|done].
      assert (y = x) as ->.
      { apply Honly; [|by apply Hsuffix].
        revert Hy. rewrite !elem_of_app, elem_of_cons. tauto. }
      pose proof (increasing_NoDup _ Hinc) as Hnd.
      apply NoDup_app in Hnd as (_&Hdisj&Hnd2).
      apply NoDup_cons in Hnd2 as [Hx2' _].
      apply elem_of_app in Hy as [Hy|Hy]; [|done].
      exfalso. apply (Hdisj x Hy). left. }
    by rewrite Hnone.
  - exfalso. unfold reconcile in Hr1. rewrite Hch, Hs1 in Hr1.
    destruct (FlatSet.erase_first_ending (name o1) changed) eqn:He;
      [done|].
    pose proof (proj1 (erase_first_ending_None _ _) He x Hx) as Hno.
    congruence.
  - exfalso. unfold reconcile in Hr1. rewrite Hch, Hs1 in Hr1.
    destruct (FlatSet.erase_first_ending (name o1) changed) eqn:He;
      done.
Qed.

End SetProperties.

(** * The first scan as a whole *)

Section FirstScanFacts.
Context `{Collaborators}.

(** What a record does to the locals does not depend on what has been
    written to [std::cerr]. *)
Lemma matchRecord_any_out types dn bus addr r v out c v' out' :
  matchRecord types dn bus addr r (v, out) = (c, (v', out')) ->
  forall out2, exists out2',
    matchRecord types dn bus addr r (v, out2) = (c, (v', out2')).
Proof.
  unfold matchRecord. intros Hr out2.
  repeat case_match; simplify_eq; eauto.
Qed.

Lemma matchLoop_any_out types configs dn bus addr v out c v' out' :
  matchLoop types configs dn bus addr (v, out) = (c, (v', out')) ->
  forall out2, exists out2',
    matchLoop types configs dn bus addr (v, out2) = (c, (v', out2')).
Proof.
  unfold matchLoop. revert v out.
  induction configs as [|r configs IH]; intros v out.
  - rewrite for_each_nil. intros [= <- <- <-] out2. by exists out2.
  - rewrite for_each_cons.
    destruct (matchRecord types dn bus addr r (v, out))
      as [c1 [v1 out1]] eqn:Hr.
    intros Hl out2.
    destruct (matchRecord_any_out _ _ _ _ _ _ _ _ _ _ Hr out2)
      as (out2'&Hr2).
    rewrite for_each_cons, Hr2.
    destruct c1 as [[]| | |e]; simplify_eq; eauto.
Qed.

Lemma findConfiguration_any_state configs dn bus addr st v st' :
  findConfiguration configs dn bus addr st = (Normal v, st') ->
  forall s, exists s',
    findConfiguration configs dn bus addr s = (Normal v, s').
Proof.
  unfold findConfiguration. intros Hf s.
  destruct (matchLoop sensorTypes configs dn bus addr (initLocals, cerr st))
    as [c [v1 out1]] eqn:Hl.
  destruct (matchLoop_any_out _ _ _ _ _ _ _ _ _ _ Hl (cerr s))
    as (out2&->).
  destruct c as [[]| | |e]; simplify_eq; eauto.
Qed.

Lemma resolveIdentity_any_state dn st id st' :
  resolveIdentity dn st = (Normal id, st') ->
  forall s, resolveIdentity dn s = (Normal id, s).
Proof.
  unfold resolveIdentity, parseBusAddr. intros Hr s. revert Hr.
  destruct (Str.find_char "-" dn) as [i|]; [|done].
  destruct (Stoi.stoi (Str.substr_to i dn) 10) as [[]|bus]; try done.
  destruct (Stoi.stoi (Str.substr_from (S i) dn) 16) as [[]|addr];
    try done.
  unfold ret in *. by intros [= <- _].
Qed.

(** Whether a device is matched, and by which record, does not depend on
    the state of the engine. *)
Lemma matched_any_state configs path st v p m st' :
  matched configs path st v p m st' ->
  forall s, exists s', matched configs path s v p m s'.
Proof.
  intros (bus&addr&Hr&Hf&Hp&Hm) s.
  destruct (findConfiguration_any_state _ _ _ _ _ _ _ Hf s) as (s'&Hf').
  exists s', bus, addr.
  by rewrite (resolveIdentity_any_state _ _ _ _ Hr s).
Qed.

(** The loop over the devices of a first scan keeps a sensor that
    stands in the table under its name, or replaces it by a new one. *)
Lemma first_scan_keeps_a_sensor configs l sn :
  forall s c s',
    for_each l (processDevice configs) s = (c, s') ->
    sensorsChanged s = None ->
    (exists a o, sensors s !! sn = Some (ptr a o) /\
                 name o = IIOSensor_name sn /\ ctor_sensorName o = sn) ->
    exists a o, sensors s' !! sn = Some (ptr a o) /\
                name o = IIOSensor_name sn /\ ctor_sensorName o = sn.
Proof.
  induction l as [|path l IH]; intros s c s'.
  - rewrite for_each_nil. by intros [= _ <-].
  - rewrite for_each_cons.
    destruct (processDevice configs path s) as [c1 s1] eqn:Hp.
    intros Hl Hfirst Hsn.
    assert (H1 : sensorsChanged s1 = None /\
                 exists a o, sensors s1 !! sn = Some (ptr a o) /\
                   name o = IIOSensor_name sn /\ ctor_sensorName o = sn).
    { destruct (processDevice_effect _ _ _ _ _ Hp)
        as [c0 s0 s0' (Hs&Ha&Hch) _
           |e s0 s0' n a o l1 x l2 Hch _ _ _ _ _ _
           |s0 s0' n a o l1 x l2 o' Hch _ _ _ _ _ _ _ _
           |s0 s0' n o' _ Hs Ha Hch Hc Hn]; try congruence.
      - split; [congruence|]. by rewrite Hs.
      - split; [congruence|]. rewrite Hs.
        destruct (decide (n = sn)) as [->|Hne].
        + rewrite lookup_insert_eq. eauto.
        + by rewrite lookup_insert_ne. }
    destruct H1 as [Hfirst1 Hsn1].
    destruct c1 as [[]| | |e]; simplify_eq; eauto.
Qed.

End FirstScanFacts.

Section FirstScanProperties.
Context `{Collaborators}.

(** X21. A first scan that completes has a sensor for every device that
    is matched and whose record declares a type and a name: whatever the
    other devices of the pass did, the table holds under that name an
    object made for that name.  (A poll rate or power state that cannot
    be read raises, and then the pass does not complete.) *)
Theorem completed_first_scan_has_a_sensor_for_each_matched_device
    configs paths st st' path v p m st1 tv declared nv sensorName :
  createSensors configs paths st = (Normal tt, st') ->
  sensorsChanged st = None ->
  path ∈ paths ->
  matched configs path st v p m st1 ->
  m !! "SensorType" = Some tv ->
  VariantToStringVisitor tv = inr declared ->
  m !! "Name" = Some nv -> get_string nv = Some sensorName ->
  exists a o,
    sensors st' !! sensorName = Some (ptr a o) /\
    name o = IIOSensor_name sensorName /\
    ctor_sensorName o = sensorName.
Proof.
  intros Hpass Hfirst Hin Hm Ht Hv Hn Hg.
  assert (Hloop : for_each paths (processDevice configs) st
                  = (Normal tt, st')).
  { unfold createSensors in Hpass. destruct paths; [|done].
    by apply elem_of_nil in Hin. }
  clear Hpass. revert st st1 Hfirst Hm Hloop.
  induction paths as [|path0 paths IH]; intros st st1 Hfirst Hm.
  { by apply elem_of_nil in Hin. }
  rewrite for_each_cons.
  destruct (processDevice configs path0 st) as [c0 s0] eqn:Hp0.
  intros Hloop.
  destruct (processDevice_cases _ _ _ _ _ Hp0) as [Hb _].
  assert (Hfirst0 : sensorsChanged s0 = None).
  { destruct (processDevice_effect _ _ _ _ _ Hp0)
      as [c1 s1 s1' (Hs&Ha&Hch) _
         |e s1 s1' n a o l1 x l2 Hch _ _ _ _ _ _
         |s1 s1' n a o l1 x l2 o' Hch _ _ _ _ _ _ _ _
         |s1 s1' n o' _ Hs Ha Hch Hc Hnm]; congruence. }
  assert (Hrest : for_each paths (processDevice configs) s0
                  = (Normal tt, st')).
  { destruct c0 as [[]| | |e]; by simplify_eq. }
  apply elem_of_cons in Hin as [<-|Hin].
  - destruct (matched_named _ _ _ _ _ _ _ _ _ _ _ Hm Ht Hv Hn Hg)
      as (data&tag&(Hs&Ha&Hc)&Hpd).
    set (s1 := typeChecked st1 _ declared) in *.
    assert (Hf1 : sensorsChanged s1 = None) by congruence.
    rewrite (bind_normal _ _ _ _ _ (reconcile_first_scan sensorName _ Hf1))
      in Hpd.
    assert (Hc0 : construct (pathStr path) sensorName
                    (inferSensorTypeName (pathStr path)) data tag m p s1
                  = (c0, s0)) by congruence.
    apply construct_spec in Hc0.
    destruct c0 as [[]| | |e]; try done.
    destruct Hc0 as (pollRate&readState&_&_&Hs0&_&_).
    eapply first_scan_keeps_a_sensor; [exact Hrest|done|].
    rewrite Hs0, lookup_insert_eq. eauto.
  - destruct (matched_any_state _ _ _ _ _ _ _ Hm s0) as (s1&Hm0).
    by apply (IH Hin s0 s1).
Qed.

End FirstScanProperties.

(** * The further properties on the sample configuration *)

Lemma pass_keeps_names_and_shrinks_the_set_witness :
  exists st',
    createSensors [humRecord; baroRecord] [baroPath; humPath]
      (st2 ["/inv/Baro"]) = (Normal tt, st') /\
    is_Some (sensors st' !! "Hum") /\ (2 <= allocated st')%nat /\
    exists l', sensorsChanged st' = Some l' /\
               l' `sublist_of` ["/inv/Baro"].
Proof.
  set (st' := (@createSensors collaborators [humRecord; baroRecord] [baroPath; humPath]
                 (st2 ["/inv/Baro"])).2).
  assert (Hc : createSensors [humRecord; baroRecord] [baroPath; humPath]
                 (st2 ["/inv/Baro"]) = (Normal tt, st'))
    by (reflexivity).
  destruct (@pass_keeps_names_and_shrinks_the_set collaborators
              _ _ _ _ _ Hc) as (Hn&Ha&_&Hl).
  exists st'. split; [exact Hc|].
  split; [apply Hn; by eexists|].
  split; [exact Ha|]. apply Hl. reflexivity.
Defined.

Lemma pass_spares_the_sensors_not_signalled_witness :
  (forall x, x ∈ ["/inv/Baro"] ->
             Str.ends_with x (name humSensor) = false) /\
  sensors (createSensors [humRecord; baroRecord] [baroPath; humPath]
             (st2 ["/inv/Baro"])).2 !! "Hum" = Some (ptr 1 humSensor).
Proof.
  assert (Hno : forall x, x ∈ ["/inv/Baro"] ->
                          Str.ends_with x (name humSensor) = false).
  { intros x [->|Hx%elem_of_nil]%elem_of_cons; [reflexivity|done]. }
  split; [exact Hno|].
  apply (@pass_spares_the_sensors_not_signalled collaborators
           [humRecord; baroRecord] [baroPath; humPath] (st2 ["/inv/Baro"])
           (@createSensors collaborators [humRecord; baroRecord]
              [baroPath; humPath] (st2 ["/inv/Baro"])).1
           _ ["/inv/Baro"] "Hum" 1%nat humSensor).
  - apply surjective_pairing.
  - reflexivity.
  - reflexivity.
  - exact Hno.
Defined.

Lemma pass_keeps_objects_allocated_and_unshared_witness :
  (addresses_allocated (st0 None) /\ objects_unshared (st0 None)) /\
  exists st',
    createSensors [humRecord; baroRecord] [baroPath; humPath] (st0 None)
    = (Normal tt, st') /\
    is_Some (sensors st' !! "Baro") /\ is_Some (sensors st' !! "Hum") /\
    addresses_allocated st' /\ objects_unshared st'.
Proof.
  assert (H0 : addresses_allocated (st0 None) /\
               objects_unshared (st0 None)).
  { split; [intros n a o Hn|intros n1 n2 a o1 o2 Hn _];
      simpl in Hn; by rewrite lookup_empty in Hn. }
  split; [exact H0|].
  set (st' := (@createSensors collaborators [humRecord; baroRecord] [baroPath; humPath]
                 (st0 None)).2).
  assert (Hc : createSensors [humRecord; baroRecord] [baroPath; humPath]
                 (st0 None) = (Normal tt, st'))
    by (reflexivity).
  exists st'. split; [exact Hc|].
  split; [by eexists|]. split; [by eexists|].
  exact (@pass_keeps_objects_allocated_and_unshared collaborators
           _ _ _ _ _ Hc H0).
Defined.

Lemma pass_keeps_slots_named_witness :
  slots_named (st0 None) /\
  exists st',
    createSensors [humRecord; baroRecord] [baroPath; humPath] (st0 None)
    = (Normal tt, st') /\
    is_Some (sensors st' !! "Baro") /\ slots_named st'.
Proof.
  assert (H0 : slots_named (st0 None)).
  { intros n a o Hn. simpl in Hn. by rewrite lookup_empty in Hn. }
  split; [exact H0|].
  set (st' := (@createSensors collaborators [humRecord; baroRecord] [baroPath; humPath]
                 (st0 None)).2).
  assert (Hc : createSensors [humRecord; baroRecord] [baroPath; humPath]
                 (st0 None) = (Normal tt, st'))
    by (reflexivity).
  exists st'. split; [exact Hc|]. split; [by eexists|].
  exact (@pass_keeps_slots_named collaborators _ _ _ _ _ Hc H0).
Defined.

Lemma completed_pass_leaves_no_null_slot_witness :
  no_null_slot (st2 ["/inv/Baro"]) /\
  exists st',
    createSensors [humRecord; baroRecord] [baroPath; humPath]
      (st2 ["/inv/Baro"]) = (Normal tt, st') /\
    no_null_slot st'.
Proof.
  assert (H0 : no_null_slot (st2 ["/inv/Baro"])).
  { intros n Hn. simpl in Hn.
    apply lookup_insert_Some in Hn as [[_ [=]]|[_ Hn]].
    by apply lookup_singleton_Some in Hn as [_ [=]]. }
  split; [exact H0|].
  set (st' := (@createSensors collaborators [humRecord; baroRecord] [baroPath; humPath]
                 (st2 ["/inv/Baro"])).2).
  assert (Hc : createSensors [humRecord; baroRecord] [baroPath; humPath]
                 (st2 ["/inv/Baro"]) = (Normal tt, st'))
    by (reflexivity).
  exists st'. split; [exact Hc|].
  exact (@completed_pass_leaves_no_null_slot collaborators _ _ _ _ Hc H0).
Defined.

Lemma pass_makes_at_most_one_sensor_per_path_witness :
  exists st',
    createSensors [humRecord; baroRecord] [baroPath; noNumber; humPath]
      (st0 None) = (Normal tt, st') /\
    (0 <= allocated st' <= 3)%nat.
Proof.
  set (st' := (@createSensors collaborators [humRecord; baroRecord]
                 [baroPath; noNumber; humPath] (st0 None)).2).
  assert (Hc : createSensors [humRecord; baroRecord]
                 [baroPath; noNumber; humPath] (st0 None) = (Normal tt, st'))
    by (reflexivity).
  exists st'. split; [exact Hc|].
  exact (@pass_makes_at_most_one_sensor_per_path collaborators
           _ _ _ _ _ Hc).
Defined.

Lemma hum_passed_over : passedOver 7 118 humRecord.2.
Proof.
  exists SI7020, humMap. split; reflexivity.
Defined.

Lemma baro_matches : matches 7 118 baroRecord.2.
Proof.
  exists DPS310, baroMap, (VUint64 7), (VUint64 118).
  split_and!; reflexivity.
Defined.

Lemma taken_record_is_the_first_that_matches_witness :
  findConfiguration [humRecord; baroRecord] "7-0076" 7 118 (st0 None)
  = (Normal (takenLocals baroConfig DPS310 baroMap), st0 None) /\
  exists pre data post,
    [humRecord; baroRecord] = (pre ++ (baroConfig, data) :: post)%list /\
    Forall (fun r => passedOver 7 118 r.2) pre /\
    matches 7 118 data.
Proof.
  assert (Hf : findConfiguration [humRecord; baroRecord] "7-0076" 7 118
                 (st0 None)
               = (Normal (takenLocals baroConfig DPS310 baroMap), st0 None))
    by (reflexivity).
  split; [exact Hf|].
  pose proof (@taken_record_is_the_first_that_matches collaborators
                _ _ _ _ _ _ _ Hf) as Ht.
  change (interfacePath (takenLocals baroConfig DPS310 baroMap))
    with (Some baroConfig) in Ht.
  destruct Ht as (pre&data&post&Hsplit&Hpre&Hm&_).
  by exists pre, data, post.
Defined.

Lemma search_takes_the_first_matching_record_witness :
  Forall (fun r => passedOver 7 118 r.2) [humRecord] /\
  matches 7 118 baroRecord.2 /\
  exists v,
    findConfiguration [humRecord; baroRecord; humRecord] "7-0076" 7 118
      (st0 None) = (Normal v, st0 None) /\
    interfacePath v = Some baroConfig.
Proof.
  assert (Hpre : Forall (fun r => passedOver 7 118 r.2) [humRecord])
    by (repeat constructor; apply hum_passed_over).
  split; [exact Hpre|]. split; [exact baro_matches|].
  destruct (@search_takes_the_first_matching_record collaborators
              [humRecord; baroRecord; humRecord] "7-0076" 7 118 (st0 None)
              [humRecord] baroConfig baroRecord.2 [humRecord]
              eq_refl Hpre baro_matches) as (v&Hf&Hp&_).
  exists v. split; [exact Hf|exact Hp].
Defined.

Lemma device_without_matching_record_is_skipped_witness :
  Forall (fun r => passedOver 7 118 r.2) [humRecord] /\
  exists st',
    processDevice [humRecord] baroPath (st0 None) = (Continue, st') /\
    sensors st' = ∅ /\
    cerr st' = ["failed to find match for 7-0076" +:+ nl].
Proof.
  assert (Hall : Forall (fun r => passedOver 7 118 r.2) [humRecord])
    by (repeat constructor; apply hum_passed_over).
  split; [exact Hall|].
  eexists. split.
  - apply (@device_without_matching_record_is_skipped collaborators
             [humRecord] baroPath (st0 None) 7 118);
      [reflexivity|exact Hall].
  - split; reflexivity.
Defined.

Lemma record_without_supported_interface_ends_the_search_witness :
  exists st',
    findConfiguration
      [humRecord; (baroConfig, {[ "xyz.openbmc_project.Configuration.TMP75"
                                  := baroMap ]}); baroRecord]
      "7-0076" 7 118 (st0 None) = (Throw logic_error, st').
Proof.
  apply (proj1 (@record_without_supported_interface_ends_the_search
                  collaborators) _ "7-0076" 7 118 (st0 None)
           [humRecord] baroConfig
           {[ "xyz.openbmc_project.Configuration.TMP75" := baroMap ]}
           [baroRecord]).
  - reflexivity.
  - repeat constructor. apply hum_passed_over.
  - reflexivity.
  - reflexivity.
Defined.

Lemma incremental_scan_constructs_an_unknown_name_witness :
  sensors (st0 (Some ["/inv/Baro"])) !! "Baro" = None /\
  exists st'' o,
    processDevice [humRecord; baroRecord] baroPath
      (st0 (Some ["/inv/Baro"])) = (Normal tt, st'') /\
    sensors st'' !! "Baro" = Some (ptr 0 o) /\
    sensorsChanged st'' = Some ["/inv/Baro"].
Proof.
  split; [reflexivity|].
  destruct (@incremental_scan_constructs_an_unknown_name collaborators
              [humRecord; baroRecord] baroPath (st0 (Some ["/inv/Baro"]))
              (takenLocals baroConfig DPS310 baroMap) baroConfig baroMap
              (st0 (Some ["/inv/Baro"])) (VString "pressure") "pressure"
              (VString "Baro") "Baro" ["/inv/Baro"] Single.half always)
    as (st''&o&Hp&Hs&_&Hch&_); try reflexivity.
  - by apply baro_matched.
  - exists st'', o. split; [done|]. split; [|done].
    rewrite Hs. apply lookup_insert_eq.
Defined.

Lemma resolver_reads_decimal_hyphen_hexadecimal_witness :
  resolveIdentity "7-0076" (st0 None) = (Normal (7, 118), st0 None).
Proof.
  apply (@resolver_reads_decimal_hyphen_hexadecimal collaborators
           (Decimal.D7 Decimal.Nil)
           (Hexadecimal.D0 (Hexadecimal.D0
              (Hexadecimal.D7 (Hexadecimal.D6 Hexadecimal.Nil))))
           (st0 None)).
  - discriminate.
  - discriminate.
  - vm_compute. discriminate.
  - vm_compute. discriminate.
Defined.

Lemma matched_bus_and_address_are_wrapped_ints_witness :
  baroMap !! "Address" = Some (VUint64 118) /\
  (0 <= 118 < 2 ^ 31 \/ 2 ^ 64 - 2 ^ 31 <= 118 < 2 ^ 64).
Proof.
  split; [reflexivity|].
  apply (@matched_bus_and_address_are_wrapped_ints collaborators
           [humRecord; baroRecord] baroPath (st0 None)
           (takenLocals baroConfig DPS310 baroMap) baroConfig baroMap
           (st0 None) (baro_matched baroPath (st0 None) eq_refl)
           "Address" (VUint64 118) 118).
  - by right.
  - reflexivity.
  - reflexivity.
Defined.

Lemma event_handler_keeps_the_set_increasing_witness :
  increasing
    (Debounce.changedSet
       (Debounce.idle_until 1800000
          (Debounce.run ((0, notification "/inv/A") :: laterFour) idle))) /\
  Debounce.changedSet
    (Debounce.eventHandler (notification "/inv/A")
       (Debounce.run [(0, notification "/inv/A")] idle))
  = ["/inv/A"].
Proof.
  split.
  - destruct (event_handler_keeps_the_set_increasing
                ((0, notification "/inv/A") :: laterFour) idle 1800000)
      as (Hi&_&_); [exact I|constructor|exact Hi].
  - destruct (event_handler_keeps_the_set_increasing []
                (Debounce.run [(0, notification "/inv/A")] idle) 0)
      as (_&_&Hsame).
    + simpl. split; [constructor|exact I].
    + constructor.
    + apply (Hsame (notification "/inv/A")); [reflexivity|].
      vm_compute. left.
Defined.

Lemma pass_keeps_the_set_increasing_witness :
  increasing ["/inv/Baro"; "/inv/Hum"] /\
  exists st' l',
    createSensors [humRecord; baroRecord] [baroPath; humPath]
      (st2 ["/inv/Baro"; "/inv/Hum"]) = (Normal tt, st') /\
    sensorsChanged st' = Some l' /\ increasing l'.
Proof.
  assert (Hinc : increasing ["/inv/Baro"; "/inv/Hum"]).
  { simpl. split_and!; [|constructor|exact I].
    constructor; [reflexivity|constructor]. }
  split; [exact Hinc|].
  set (st' := (@createSensors collaborators [humRecord; baroRecord] [baroPath; humPath]
                 (st2 ["/inv/Baro"; "/inv/Hum"])).2).
  assert (Hc : createSensors [humRecord; baroRecord] [baroPath; humPath]
                 (st2 ["/inv/Baro"; "/inv/Hum"]) = (Normal tt, st'))
    by (reflexivity).
  destruct (@pass_keeps_the_set_increasing collaborators _ _ _ _ _ _
              Hc eq_refl Hinc) as (l'&Hl'&Hinc').
  by exists st', l'.
Defined.

Lemma consumed_entry_is_the_least_and_is_gone_witness :
  increasing ["/inv/Baro"; "/inv/Hum"] /\
  exists st' x l',
    reconcile "Baro" (st2 ["/inv/Baro"; "/inv/Hum"]) = (Normal tt, st') /\
    sensorsChanged st' = Some l' /\
    x ∈ ["/inv/Baro"; "/inv/Hum"] /\ (x ∉ l') /\
    sensors st' !! "Baro" = Some nullptr.
Proof.
  assert (Hinc : increasing ["/inv/Baro"; "/inv/Hum"]).
  { simpl. split_and!; [|constructor|exact I].
    constructor; [reflexivity|constructor]. }
  split; [exact Hinc|].
  set (st' := (@reconcile collaborators "Baro" (st2 ["/inv/Baro"; "/inv/Hum"])).2).
  assert (Hr : reconcile "Baro" (st2 ["/inv/Baro"; "/inv/Hum"])
               = (Normal tt, st')) by (reflexivity).
  destruct (@consumed_entry_is_the_least_and_is_gone collaborators
              "Baro" (st2 ["/inv/Baro"; "/inv/Hum"]) st'
              ["/inv/Baro"; "/inv/Hum"] 0%nat baroSensor
              eq_refl Hinc eq_refl Hr)
    as (x&l'&Hl'&Hx&_&_&Hgone&_&Hnull).
  by exists st', x, l'.
Defined.

Lemma entry_goes_to_the_first_sensor_it_names_witness :
  name cpuSensor = "CPU_" +:+ name inletSensor /\
  exists st1,
    reconcile "Temp" (st3 ["/inv/CPU_Temp"]) = (Normal tt, st1) /\
    sensors st1 !! "Temp" = Some nullptr /\
    reconcile "CPU_Temp" st1 = (Continue, st1).
Proof.
  split; [reflexivity|].
  apply (@entry_goes_to_the_first_sensor_it_names collaborators
           (st3 ["/inv/CPU_Temp"]) ["/inv/CPU_Temp"] "Temp" "CPU_Temp"
           0%nat inletSensor 1%nat cpuSensor "/inv/CPU_Temp" "CPU_").
  - reflexivity.
  - simpl. split; [constructor|exact I].
  - discriminate.
  - reflexivity.
  - reflexivity.
  - reflexivity.
  - left.
  - reflexivity.
  - by intros y [->|Hy%elem_of_nil]%elem_of_cons _.
Defined.

Lemma completed_first_scan_has_a_sensor_for_each_matched_device_witness :
  baroPath ∈ [noNumber; baroPath; humPath] /\
  exists st' a o,
    createSensors [humRecord; baroRecord] [noNumber; baroPath; humPath]
      (st0 None) = (Normal tt, st') /\
    sensors st' !! "Baro" = Some (ptr a o) /\
    ctor_sensorName o = "Baro".
Proof.
  assert (Hin : baroPath ∈ [noNumber; baroPath; humPath])
    by (right; left).
  split; [exact Hin|].
  set (st' := (@createSensors collaborators [humRecord; baroRecord]
                 [noNumber; baroPath; humPath] (st0 None)).2).
  assert (Hc : createSensors [humRecord; baroRecord]
                 [noNumber; baroPath; humPath] (st0 None) = (Normal tt, st'))
    by (reflexivity).
  destruct (@completed_first_scan_has_a_sensor_for_each_matched_device
              collaborators [humRecord; baroRecord]
              [noNumber; baroPath; humPath] (st0 None) st' baroPath
              (takenLocals baroConfig DPS310 baroMap) baroConfig baroMap
              (st0 None) (VString "pressure") "pressure" (VString "Baro")
              "Baro" Hc eq_refl Hin
              (baro_matched baroPath (st0 None) eq_refl)
              eq_refl eq_refl eq_refl eq_refl)
    as (a&o&Hs&_&Hn).
  by exists st', a, o.
Defined.
